(** * LiveTalk client: a shallow embedding of the chat front end

    The development follows the TypeScript sources of the front end:
    - [types/index.ts] and the conversation store (messages, [addMessage],
      [updateLastMessage]);
    - [services/authService] (the token kept in [localStorage]);
    - [components/Chat/ChatView.tsx] (the WebSocket handler and the two
      submission paths);
    - [components/Voice/VoiceRecorder.tsx] (the recorder and the WAV encoder);
    - the login page's [handleSubmit], the auth store, the settings store
      with the theme button of the main layout, and the [useWebSocket] hook.

    The context manager of the backend is not among the sources; its module
    is written from the specification and says so.

    JavaScript strings are sequences of UTF-16 code units, numbers that are
    identifiers or counters are integers, React state is a record threaded
    through the handlers, and everything a handler does to the outside world
    (a frame sent on the socket, a log line, a refetch) is returned as a list
    of effects. An [async] function is cut at its [await]s: the stretch up
    to an [await] runs in the event that called it, the rest in the event
    that settles the promise, with the calls that are pending kept in the
    state. *)

From Stdlib Require Import ZArith QArith Qround Lqa Ascii String.
From stdpp Require Import base option list gmap.

Local Open Scope Z_scope.

(* ===================================================================== *)
(** ** JavaScript strings *)
(* ===================================================================== *)

Module Js.

(** A string is the list of its UTF-16 code units. *)
Definition jsstring := list N.

(** An ASCII literal as a JavaScript string. *)
Definition lit (s : string) : jsstring :=
  map N_of_ascii (list_ascii_of_string s).

(** ECMAScript [WhiteSpace] and [LineTerminator] code points, the ones
    [String.prototype.trim] removes. All lie in the basic plane. *)
Definition isWhiteSpace (c : N) : bool :=
  ((c =? 0x09) || (c =? 0x0A) || (c =? 0x0B) || (c =? 0x0C) || (c =? 0x0D)
   || (c =? 0x20) || (c =? 0xA0) || (c =? 0x1680)
   || ((0x2000 <=? c) && (c <=? 0x200A))
   || (c =? 0x2028) || (c =? 0x2029) || (c =? 0x202F) || (c =? 0x205F)
   || (c =? 0x3000) || (c =? 0xFEFF))%N.

Fixpoint trimStart (s : jsstring) : jsstring :=
  match s with
  | c :: s' => if isWhiteSpace c then trimStart s' else s
  | [] => []
  end.

Definition trimEnd (s : jsstring) : jsstring :=
  reverse (trimStart (reverse s)).

(** [s.trim()] *)
Definition trim (s : jsstring) : jsstring := trimEnd (trimStart s).

(** Truthiness of a string: every string but the empty one. *)
Definition truthy (s : jsstring) : bool :=
  match s with [] => false | _ :: _ => true end.

(** A string made of white space only (the empty string included). *)
Definition blank (s : jsstring) : bool := forallb isWhiteSpace s.

End Js.

Import Js.

(* ===================================================================== *)
(** ** [types/index.ts] *)
(* ===================================================================== *)

Inductive Role := user | assistant | system.

#[global] Instance Role_eq_dec : EqDecision Role.
Proof. solve_decision. Defined.

Record Message := {
  id : Z;
  conversation_id : Z;
  role : Role;
  content : jsstring;
  audio_path : option jsstring;
  token_count : Z;
  created_at : jsstring;
}.

Record ConversationGroup := {
  group_id_of : Z;
  group_name : jsstring;
  order_index : Z;
  group_created_at : jsstring;
}.

Record Conversation := {
  conv_id : Z;
  user_id : Z;
  group_id : option Z;
  title : jsstring;
  tags : list jsstring;
  summary : option jsstring;
  is_archived : bool;
  conv_created_at : jsstring;
  updated_at : jsstring;
  message_count : option Z;
}.

Inductive StatusKind := transcribing | thinking | synthesizing.

(** [WSMessage]: the union of the seven interfaces of [types/index.ts],
    one constructor per member, in the order of the declaration. *)
Inductive WSMessage :=
| WSUserMessage (message : Message)
| WSAssistantChunk (content : jsstring)
| WSAssistantComplete (message : Message)
| WSStatus (status : StatusKind)
| WSTranscription (text : jsstring)
| WSAudio (audio : jsstring) (format : jsstring)
| WSError (message : jsstring).

(** The [type] field, the discriminant of the union. *)
Definition ws_type (data : WSMessage) : string :=
  match data with
  | WSUserMessage _ => "user_message"
  | WSAssistantChunk _ => "assistant_chunk"
  | WSAssistantComplete _ => "assistant_complete"
  | WSStatus _ => "status"
  | WSTranscription _ => "transcription"
  | WSAudio _ _ => "assistant_audio"
  | WSError _ => "error"
  end.

(** The outbound event kinds as the specification of the live transport
    lists them (its section on external interfaces). *)
Definition spec_event_kinds : list string :=
  ["user_message"; "assistant_chunk"; "assistant_complete"; "status";
   "assistant_audio"; "error"]%string.

(* ===================================================================== *)
(** ** The conversation store *)
(* ===================================================================== *)

Module ConversationStore.

Record ConversationState := {
  conversations : list Conversation;
  groups : list ConversationGroup;
  currentConversation : option Conversation;
  messages : list Message;
  isLoading : bool;
  searchQuery : jsstring;
  selectedGroupId : option Z;
}.

(** [set(state => ({ messages: ms }))]: a partial update, every other
    field of the store is kept. *)
Definition set_messages (ms : list Message) (st : ConversationState)
  : ConversationState :=
  {| conversations := conversations st;
     groups := groups st;
     currentConversation := currentConversation st;
     messages := ms;
     isLoading := isLoading st;
     searchQuery := searchQuery st;
     selectedGroupId := selectedGroupId st |}.

(** [{ ...lastMessage, content }] *)
Definition with_content (m : Message) (c : jsstring) : Message :=
  {| id := id m;
     conversation_id := conversation_id m;
     role := role m;
     content := c;
     audio_path := audio_path m;
     token_count := token_count m;
     created_at := created_at m |}.

(** [addMessage]: [messages: [...state.messages, message]] *)
Definition addMessage (message : Message) (st : ConversationState)
  : ConversationState :=
  set_messages (messages st ++ [message]) st.

(** The body of [updateLastMessage] on the copied array. The index
    [messages.length - 1] is only computed under the guard
    [messages.length > 0], so it is in range and the array never grows. *)
Definition updateLast (c : jsstring) (ms : list Message) : list Message :=
  if decide (0 < length ms)%nat then
    match ms !! (length ms - 1)%nat with
    | Some lastMessage =>
        if decide (role lastMessage = assistant)
        then <[(length ms - 1)%nat := with_content lastMessage c]> ms
        else ms
    | None => ms
    end
  else ms.

Definition updateLastMessage (c : jsstring) (st : ConversationState)
  : ConversationState :=
  set_messages (updateLast c (messages st)) st.

End ConversationStore.

Import ConversationStore.

(* ===================================================================== *)
(** ** [services/authService]: the token in [localStorage] *)
(* ===================================================================== *)

Module AuthService.

(** [localStorage] maps keys to strings; it is written as the map itself
    below. The service only ever uses the key ['token']. *)
Definition tokenKey : jsstring := lit "token".

(** [logout]: [localStorage.removeItem('token')] *)
Definition logout (ls : gmap jsstring jsstring) : gmap jsstring jsstring :=
  delete tokenKey ls.

(** [getToken]: [localStorage.getItem('token')], [None] for [null]. *)
Definition getToken (ls : gmap jsstring jsstring) : option jsstring :=
  ls !! tokenKey.

(** [setToken]: [localStorage.setItem('token', token)] *)
Definition setToken (token : jsstring) (ls : gmap jsstring jsstring)
  : gmap jsstring jsstring :=
  <[tokenKey := token]> ls.

(** [isAuthenticated]: [!!this.getToken()]; [null] and the empty string are
    the two falsy results [getToken] can give. *)
Definition isAuthenticated (ls : gmap jsstring jsstring) : bool :=
  match getToken ls with
  | Some token => truthy token
  | None => false
  end.

(** Other writers of [localStorage] (settings, other keys). *)
Inductive StorageOp :=
| SetItem (key value : jsstring)
| RemoveItem (key : jsstring).

Definition op_key (op : StorageOp) : jsstring :=
  match op with SetItem k _ => k | RemoveItem k => k end.

Definition apply_op (ls : gmap jsstring jsstring) (op : StorageOp)
  : gmap jsstring jsstring :=
  match op with
  | SetItem k v => <[k := v]> ls
  | RemoveItem k => delete k ls
  end.

End AuthService.

(* ===================================================================== *)
(** ** [components/Chat/ChatView.tsx] *)
(* ===================================================================== *)

Module ChatView.

(** [WebSocket.readyState] *)
Inductive ReadyState := CONNECTING | OPEN | CLOSING | CLOSED.

(** What a handler does besides updating state. *)
Inductive Effect :=
| WsSend (content : jsstring)       (* a frame [{content}] leaves on the socket *)
| WsDropped (content : jsstring)    (* [send] on a closing or closed socket *)
| InvalidStateError                 (* [send] on a connecting socket throws *)
| ConsoleError (label : string) (detail : option jsstring)
| ConsoleLog (label : string)
| FetchConversations.

(** The component's state: the three [useState] cells, [wsRef.current]
    ([None] for [null]) and the store. *)
Record State := {
  inputValue : jsstring;
  isStreaming : bool;
  streamingContent : jsstring;
  wsRef : option ReadyState;
  store : ConversationState;
}.

Definition setInputValue (v : jsstring) (s : State) : State :=
  {| inputValue := v; isStreaming := isStreaming s;
     streamingContent := streamingContent s; wsRef := wsRef s;
     store := store s |}.

Definition setIsStreaming (b : bool) (s : State) : State :=
  {| inputValue := inputValue s; isStreaming := b;
     streamingContent := streamingContent s; wsRef := wsRef s;
     store := store s |}.

(** [setStreamingContent] takes an updater, as in
    [setStreamingContent((prev) => prev + data.content)]. *)
Definition setStreamingContent (f : jsstring -> jsstring) (s : State) : State :=
  {| inputValue := inputValue s; isStreaming := isStreaming s;
     streamingContent := f (streamingContent s); wsRef := wsRef s;
     store := store s |}.

Definition onStore (f : ConversationState -> ConversationState) (s : State)
  : State :=
  {| inputValue := inputValue s; isStreaming := isStreaming s;
     streamingContent := streamingContent s; wsRef := wsRef s;
     store := f (store s) |}.

(** The socket [wsRef.current] holds changes its [readyState] under the
    page; the reference itself is set once. *)
Definition setReadyState (rs : ReadyState) (s : State) : State :=
  {| inputValue := inputValue s; isStreaming := isStreaming s;
     streamingContent := streamingContent s;
     wsRef := match wsRef s with Some _ => Some rs | None => None end;
     store := store s |}.

(** [ws.onopen], [ws.onerror] and [ws.onclose]: they log, and change no
    state. *)
Definition onopen : list Effect := [ConsoleLog "WebSocket connected"].
Definition onerror : list Effect := [ConsoleError "WebSocket error:" None].
Definition onclose : list Effect := [ConsoleLog "WebSocket closed"].

(** The [case] labels of the [switch (data.type)] in [handleWSMessage]. *)
Inductive CaseLabel :=
| case_user_message | case_assistant_chunk | case_assistant_complete
| case_error.

(** Which label, if any, a message selects. The [switch] has no [default]:
    for the other members of the union no clause runs. *)
Definition switch_case (data : WSMessage) : option CaseLabel :=
  match data with
  | WSUserMessage _ => Some case_user_message
  | WSAssistantChunk _ => Some case_assistant_chunk
  | WSAssistantComplete _ => Some case_assistant_complete
  | WSError _ => Some case_error
  | WSStatus _ | WSTranscription _ | WSAudio _ _ => None
  end.

(** The kinds named by the [case] labels. *)
Definition handled_kinds : list string :=
  ["user_message"; "assistant_chunk"; "assistant_complete"; "error"]%string.

(** [handleWSMessage] *)
Definition handleWSMessage (data : WSMessage) (s : State)
  : State * list Effect :=
  match data with
  | WSUserMessage message =>
      (onStore (addMessage message) s, [])
  | WSAssistantChunk content =>
      (setStreamingContent (fun prev => prev ++ content) s, [])
  | WSAssistantComplete message =>
      (onStore (addMessage message)
         (setStreamingContent (fun _ => [])
            (setIsStreaming false s)),
       [FetchConversations])
  | WSError message =>
      (setIsStreaming false s, [ConsoleError "Chat error:" (Some message)])
  | WSStatus _ | WSTranscription _ | WSAudio _ _ =>
      (s, [])
  end.

(** The state after the messages [ds], handled in order of arrival. *)
Definition receive (ds : list WSMessage) (s : State) : State :=
  foldl (fun s data => (handleWSMessage data s).1) s ds.

(** [wsRef.current.send(JSON.stringify({ content }))] on a socket that is
    there. *)
Definition ws_send (rs : ReadyState) (content : jsstring) : list Effect :=
  match rs with
  | OPEN => [WsSend content]
  | CONNECTING => [InvalidStateError]
  | CLOSING | CLOSED => [WsDropped content]
  end.

(** The values of one render that the callbacks of that render close over:
    [sendMessage] is rebuilt on [[inputValue, isStreaming]] and
    [handleVoiceMessage] on [[isStreaming]], and each reads only the values
    it is rebuilt on. The setters and [wsRef] are stable and always act on
    the current state. *)
Record Closure := {
  seen_inputValue : jsstring;
  seen_isStreaming : bool;
}.

Definition render (s : State) : Closure :=
  {| seen_inputValue := inputValue s; seen_isStreaming := isStreaming s |}.

(** [sendMessage], as built by the render [cl]. *)
Definition sendMessage (cl : Closure) (s : State) : State * list Effect :=
  match wsRef s with
  | Some rs =>
      if negb (truthy (trim (seen_inputValue cl))) || seen_isStreaming cl
      then (s, [])
      else
        let content := trim (seen_inputValue cl) in
        (setStreamingContent (fun _ => [])
           (setIsStreaming true (setInputValue [] s)),
         ws_send rs content)
  | None => (s, [])
  end.

(** [handleVoiceMessage], as built by the render [cl]. *)
Definition handleVoiceMessage (cl : Closure) (text : jsstring) (s : State)
  : State * list Effect :=
  match wsRef s with
  | Some rs =>
      if seen_isStreaming cl then (s, [])
      else
        (setStreamingContent (fun _ => []) (setIsStreaming true s),
         ws_send rs text)
  | None => (s, [])
  end.

(** What the JSX shows. *)
Definition showsStreamingBubble (s : State) : bool :=
  isStreaming s && truthy (streamingContent s).

Definition showsThinking (s : State) : bool :=
  isStreaming s && negb (truthy (streamingContent s)).

(** The [content] of the message the streaming bubble renders, when it is
    rendered. *)
Definition streamingBubble (s : State) : option jsstring :=
  if showsStreamingBubble s then Some (streamingContent s) else None.

(** [disabled] of the send button and of the recorder. *)
Definition sendDisabled (s : State) : bool :=
  negb (truthy (trim (inputValue s))) || isStreaming s.

Definition recorderDisabled (s : State) : bool := isStreaming s.

(** Whether the handler ended by the exception of [send]. *)
Definition threw (es : list Effect) : bool :=
  existsb (fun e => match e with InvalidStateError => true | _ => false end) es.

(** Frames that left on the socket. *)
Definition sent (es : list Effect) : list jsstring :=
  omap (fun e => match e with WsSend c => Some c | _ => None end) es.

End ChatView.
(* ===================================================================== *)
(** ** [components/Voice/VoiceRecorder.tsx]: the recorder *)
(* ===================================================================== *)

Module VoiceRecorder.

Import ChatView.

Inductive RecordingStatus := idle | recording | processing.

(** The messages given to [setError]. *)
Definition err_no_speech : jsstring :=      (* '未检测到语音' *)
  [0x672A; 0x68C0; 0x6D4B; 0x5230; 0x8BED; 0x97F3]%N.
Definition err_stt_failed : jsstring :=     (* '语音识别失败' *)
  [0x8BED; 0x97F3; 0x8BC6; 0x522B; 0x5931; 0x8D25]%N.
Definition err_no_microphone : jsstring :=  (* '无法访问麦克风' *)
  [0x65E0; 0x6CD5; 0x8BBF; 0x95EE; 0x9EA6; 0x514B; 0x98CE]%N.

(** The component's state: [status], [error], and the sizes of the blobs in
    [chunksRef.current]. *)
Record Recorder := {
  status : RecordingStatus;
  error : option jsstring;
  chunks : list N;
}.

Definition setStatus (st : RecordingStatus) (r : Recorder) : Recorder :=
  {| status := st; error := error r; chunks := chunks r |}.

Definition setError (e : option jsstring) (r : Recorder) : Recorder :=
  {| status := status r; error := e; chunks := chunks r |}.

Definition setChunks (cs : list N) (r : Recorder) : Recorder :=
  {| status := status r; error := error r; chunks := cs |}.

(** [startRecording] is an [async] function. Up to its [await] it runs
    inside the handler that called it: [setError(null)] and
    [chunksRef.current = []]. The status is not touched. *)
Definition startRecording_begin (r : Recorder) : Recorder :=
  setChunks [] (setError None r).

(** The rest of [startRecording] runs when [getUserMedia] has settled,
    whatever the component's state is by then. [granted] says whether the
    [try] block ran to its end (the promise resolved, the [MediaRecorder]
    was built and started); otherwise the [catch] block runs. *)
Definition startRecording_resume (granted : bool) (r : Recorder)
  : Recorder * list Effect :=
  if granted then (setStatus recording r, [])
  else (setStatus idle (setError (Some err_no_microphone) r),
        [ConsoleError "Microphone access error:" None]).

(** A [MediaRecorder] built by [startRecording]. Its [state] is 'recording'
    from [start] on; [stop()], or the end of its stream, makes it 'inactive'
    and queues the task that fires the last [dataavailable] and then [stop];
    after that task it is over. Its [onstop] handler mentions the
    [onTranscription] of the [startRecording] that built it:
    [startRecording] is memoised on [[onTranscription]], so that is the
    [handleVoiceMessage] of the render in which the button was pressed. *)
Inductive MediaRecorderState := MrRecording | MrStopping | MrInactive.

Record MediaRecorder := {
  state : MediaRecorderState;
  onTranscription : Closure;
}.

Definition setState (st : MediaRecorderState) (m : MediaRecorder)
  : MediaRecorder :=
  {| state := st; onTranscription := onTranscription m |}.

(** [MediaRecorder.stop()]. On a recorder that is not recording it changes
    nothing. *)
Definition stop (m : MediaRecorder) : MediaRecorder :=
  match state m with
  | MrRecording => setState MrStopping m
  | _ => m
  end.

(** [mediaRecorder.ondataavailable] *)
Definition ondataavailable (size : N) (r : Recorder) : Recorder :=
  if (0 <? size)%N then setChunks (chunks r ++ [size]) r else r.

(** [handleMouseDown]: [Some] of the state [startRecording] leaves at its
    [await] when it is called, [None] when it is not. *)
Definition handleMouseDown (disabled : bool) (r : Recorder)
  : option Recorder :=
  match status r with
  | idle => if disabled then None else Some (startRecording_begin r)
  | _ => None
  end.

(** A JSON value, for the [text] field of the answer of [/api/voice/stt]. *)
Inductive JsValue :=
| JUndefined | JNull | JBool (b : bool) | JNumber (n : Z)
| JString (s : jsstring) | JObject.

(** How the transcription request ends. *)
Inductive SttOutcome :=
| ConvertFailed          (* [convertToWav] rejects *)
| FetchFailed            (* [fetch] rejects *)
| NotOk                  (* [!response.ok] *)
| JsonFailed             (* [response.json()] rejects *)
| Json (text : JsValue). (* the body, with its [text] field *)

(** [data.text && data.text.trim()]: [Some (Some t)] when it is the truthy
    string [t]; [Some None] when it is falsy; [None] when evaluating it
    throws ([trim] is not a method of a truthy non-string). *)
Definition text_and_trim (text : JsValue) : option (option jsstring) :=
  match text with
  | JUndefined | JNull => Some None
  | JBool false => Some None
  | JNumber 0 => Some None
  | JString s =>
      if truthy s && truthy (trim s) then Some (Some (trim s)) else Some None
  | JBool true | JNumber _ | JObject => None
  end.

(** [mediaRecorder.onstop] up to its first [await]: with no chunks the
    handler is over ([setStatus('idle'); return]). *)
Definition onstop_begin (r : Recorder) : Recorder :=
  match chunks r with
  | [] => setStatus idle r
  | _ :: _ => setStatus processing r
  end.

(** The size of [audioBlob], the [new Blob(chunksRef.current)] the handler
    builds before its first [await]. *)
Definition audioBlob (r : Recorder) : N := foldr N.add 0%N (chunks r).

(** The rest of [onstop], run when the transcription request has ended,
    whatever the component's state is by then: the [try] block, its [catch]
    and its [finally]. [onTranscription] is the one the handler closes over.
    An exception it throws (a [send] on a connecting socket) is caught by
    the same [catch]. *)
Definition onstop_resume (onTranscription : Closure) (outcome : SttOutcome)
    (r : Recorder) (s : State) : Recorder * State * list Effect :=
  match outcome with
  | Json text =>
      match text_and_trim text with
      | Some (Some t) =>
          let '(s', es) := handleVoiceMessage onTranscription t s in
          if threw es
          then (setStatus idle (setError (Some err_stt_failed) r), s',
                 es ++ [ConsoleError "STT error:" None])
          else (setStatus idle r, s', es)
      | Some None =>
          (setStatus idle (setError (Some err_no_speech) r), s, [])
      | None =>
          (setStatus idle (setError (Some err_stt_failed) r), s,
           [ConsoleError "STT error:" None])
      end
  | ConvertFailed | FetchFailed | NotOk | JsonFailed =>
      (setStatus idle (setError (Some err_stt_failed) r), s,
       [ConsoleError "STT error:" None])
  end.

(** The whole [onstop] handler of one recording when nothing else happens
    to the component while the request is under way, the outcome of the
    request (if one is made) given. *)
Definition onstop (onTranscription : Closure) (outcome : SttOutcome)
    (r : Recorder) (s : State) : Recorder * State * list Effect :=
  match status (onstop_begin r) with
  | processing => onstop_resume onTranscription outcome (onstop_begin r) s
  | _ => (onstop_begin r, s, [])
  end.

(** The test of [handleMouseUp], and of the [stopRecording] it calls:
    [status === 'recording']. *)
Definition recordingStops (r : Recorder) : bool :=
  match status r with recording => true | _ => false end.

End VoiceRecorder.

(* ===================================================================== *)
(** ** [components/Voice/VoiceRecorder.tsx]: the WAV encoder *)
(* ===================================================================== *)

Module Wav.

(** An element of the [Float32Array] of channel data. A finite float is the
    rational it denotes; the products the encoder forms (a 24-bit significand
    by a 15- or 16-bit constant) are exact in double precision, so the
    arithmetic below is the arithmetic of the code. *)
Inductive Sample := Finite (q : Q) | PosInf | NegInf | NaN.

Definition Qltb (a b : Q) : bool := negb (Qle_bool b a).

(** [a < b] on numbers; any comparison with [NaN] is false. *)
Definition num_lt (a b : Sample) : bool :=
  match a, b with
  | NaN, _ | _, NaN => false
  | Finite x, Finite y => Qltb x y
  | NegInf, NegInf => false
  | NegInf, _ => true
  | _, NegInf => false
  | PosInf, _ => false
  | Finite _, PosInf => true
  end.

Definition Math_min (a b : Sample) : Sample :=
  match a, b with
  | NaN, _ | _, NaN => NaN
  | _, _ => if num_lt b a then b else a
  end.

Definition Math_max (a b : Sample) : Sample :=
  match a, b with
  | NaN, _ | _, NaN => NaN
  | _, _ => if num_lt a b then b else a
  end.

(** [s * k] for a positive integer constant [k]. *)
Definition times (s : Sample) (k : Z) : Sample :=
  match s with
  | Finite q => Finite (q * inject_Z k)
  | other => other
  end.

(** Truncation toward zero. *)
Definition trunc (q : Q) : Z :=
  if Qltb q 0 then Qceiling q else Qfloor q.

(** [ToInt16], the conversion [setInt16] applies to its argument. *)
Definition ToInt16 (s : Sample) : Z :=
  match s with
  | Finite q => (trunc q + 32768) mod 65536 - 32768
  | PosInf | NegInf | NaN => 0
  end.

(** [Math.max(-1, Math.min(1, data[i]))] *)
Definition clamp (x : Sample) : Sample :=
  Math_max (Finite (inject_Z (-1))) (Math_min (Finite (inject_Z 1)) x).

(** [sample < 0 ? sample * 0x8000 : sample * 0x7fff] *)
Definition scale (sample : Sample) : Sample :=
  if num_lt sample (Finite 0) then times sample 0x8000
  else times sample 0x7fff.

(** The 16-bit integer stored for the sample [x]. *)
Definition pcm16 (x : Sample) : Z := ToInt16 (scale (clamp x)).

(** The clamped value of a finite sample, and the integer stored for a
    clamped value when no wrap-around takes place: the scaled value cut
    toward zero. *)
Definition clampQ (q : Q) : Q :=
  let m := if Qltb q 1 then q else 1%Q in
  if Qltb (-1) m then m else (-1)%Q.

Definition pcmQ (c : Q) : Z :=
  if Qltb c 0 then trunc (c * inject_Z 0x8000) else trunc (c * inject_Z 0x7fff).

(** The [n] low bytes of [v], least significant first: what a little-endian
    setter of width [n] stores, negative numbers in two's complement. *)
Fixpoint le_bytes (n : nat) (v : Z) : list Z :=
  match n with
  | O => []
  | S n' => v mod 256 :: le_bytes n' (v / 256)
  end.

(** A [DataView] over an [ArrayBuffer] is the list of its bytes. Every
    setter checks the whole range it writes and throws a [RangeError]
    ([None]) before writing anything when it does not fit. *)
Definition write (byteOffset : nat) (bs : list Z) (view : list Z)
  : option (list Z) :=
  if decide (byteOffset + length bs <= length view)%nat
  then Some (list_inserts byteOffset bs view)
  else None.

Definition setUint8 (byteOffset : nat) (value : Z) := write byteOffset (le_bytes 1 value).
(** The multi-byte setters, called with [littleEndian = true]. *)
Definition setUint16 (byteOffset : nat) (value : Z) := write byteOffset (le_bytes 2 value).
Definition setUint32 (byteOffset : nat) (value : Z) := write byteOffset (le_bytes 4 value).
Definition setInt16 (byteOffset : nat) (value : Sample) :=
  write byteOffset (le_bytes 2 (ToInt16 value)).

(** The getters that read a field back, little-endian. *)
Definition getUint16 (byteOffset : nat) (view : list Z) : option Z :=
  b0 ← view !! byteOffset; b1 ← view !! (byteOffset + 1)%nat;
  Some (b0 + 256 * b1).

Definition getInt16 (byteOffset : nat) (view : list Z) : option Z :=
  u ← getUint16 byteOffset view;
  Some (if u <? 32768 then u else u - 65536).

Definition getUint32 (byteOffset : nat) (view : list Z) : option Z :=
  b0 ← view !! byteOffset; b1 ← view !! (byteOffset + 1)%nat;
  b2 ← view !! (byteOffset + 2)%nat; b3 ← view !! (byteOffset + 3)%nat;
  Some (b0 + 256 * b1 + 65536 * b2 + 16777216 * b3).

(** [writeString]: one [setUint8] per character, from [offset] on. *)
Fixpoint writeString (offset : nat) (str : jsstring) (view : list Z)
  : option (list Z) :=
  match str with
  | [] => Some view
  | c :: str' =>
      view' ← setUint8 offset (Z.of_N c) view;
      writeString (S offset) str' view'
  end.

(** The loop over the samples: [setInt16(offset, ..., true); offset += 2]. *)
Fixpoint writeSamples (offset : nat) (data : list Sample) (view : list Z)
  : option (list Z) :=
  match data with
  | [] => Some view
  | x :: data' =>
      view' ← setInt16 offset (scale (clamp x)) view;
      writeSamples (offset + 2) data' view'
  end.

(** [audioBufferToWav]; [data] is [buffer.getChannelData(0)]. *)
Definition audioBufferToWav (sampleRate : Z) (data : list Sample)
  : option (list Z) :=
  let numChannels := 1 in
  let format := 1 in
  let bitDepth := 16 in
  let dataLength := (length data * Z.to_nat (bitDepth / 8))%nat in
  let headerLength := 44%nat in
  let totalLength := (headerLength + dataLength)%nat in
  let view := replicate totalLength 0 in
  view ← writeString 0 (lit "RIFF") view;
  view ← setUint32 4 (Z.of_nat totalLength - 8) view;
  view ← writeString 8 (lit "WAVE") view;
  view ← writeString 12 (lit "fmt ") view;
  view ← setUint32 16 16 view;
  view ← setUint16 20 format view;
  view ← setUint16 22 numChannels view;
  view ← setUint32 24 sampleRate view;
  view ← setUint32 28 (sampleRate * numChannels * (bitDepth / 8)) view;
  view ← setUint16 32 (numChannels * (bitDepth / 8)) view;
  view ← setUint16 34 bitDepth view;
  view ← writeString 36 (lit "data") view;
  view ← setUint32 40 (Z.of_nat dataLength) view;
  writeSamples 44 data view.

(** The 44 bytes of the header for [n] samples, as laid out by the writes
    above. *)
Definition header (sampleRate : Z) (n : nat) : list Z :=
  [82; 73; 70; 70] ++ le_bytes 4 (Z.of_nat (44 + n * 2) - 8) ++
  [87; 65; 86; 69] ++ [102; 109; 116; 32] ++
  le_bytes 4 16 ++ le_bytes 2 1 ++ le_bytes 2 1 ++
  le_bytes 4 sampleRate ++ le_bytes 4 (sampleRate * 1 * 2) ++
  le_bytes 2 2 ++ le_bytes 2 16 ++
  [100; 97; 116; 97] ++ le_bytes 4 (Z.of_nat (n * 2)).

End Wav.

(* ===================================================================== *)
(** ** The context manager *)
(* ===================================================================== *)

Module ContextManager.

(** Modelled from the spec: the context manager (the backend's context
    service) is not among the sources; the definitions of this module follow
    the specification's data model and the contract of its section on the
    ContextManager. A turn has a role, a text and its place in the order of
    creation. *)
Record Turn := {
  turn_role : Role;
  turn_content : jsstring;
  turn_seq : nat;
}.

(** Modelled from the spec: the context window, the ordered turns and the
    optional summary that stands in for the turns compression evicted. *)
Record ContextWindow := {
  turns : list Turn;
  contextSummary : option jsstring;
}.

(** Modelled from the spec: the configuration keys the manager reads. The
    compression threshold is a ratio, kept as a fraction. *)
Record Config := {
  maxTokens : nat;
  compressionThreshold : nat * nat;
  K : nat;
}.

(** The configuration of the scenario: 4096 tokens, threshold 0.8, four
    turns retained. *)
Definition scenario : Config :=
  {| maxTokens := 4096; compressionThreshold := (8, 10)%nat; K := 4 |}.

Section Manager.

(** The cheap deterministic estimator, and the call to the completion client
    in summary mode, which gets the summary so far and the turns to fold and
    may fail ([None]: refused, timed out, or in error). *)
Variable estimate : jsstring -> nat.
Variable summarize : option jsstring -> list Turn -> option jsstring.

(** Modelled from the spec: the estimate of a window, its summary
    included. *)
Definition estimatedTurns (ts : list Turn) : nat :=
  sum_list_with (fun t => estimate (turn_content t)) ts.

Definition estimatedTokens (w : ContextWindow) : nat :=
  (from_option estimate 0 (contextSummary w) + estimatedTurns (turns w))%nat.

(** Modelled from the spec: [append(turn)] adds the turn at the end. *)
Definition append (t : Turn) (w : ContextWindow) : ContextWindow :=
  {| turns := turns w ++ [t]; contextSummary := contextSummary w |}.

(** [estimatedTokens / maxTokens >= compressionThreshold] *)
Definition overThreshold (cfg : Config) (w : ContextWindow) : bool :=
  bool_decide
    (fst (compressionThreshold cfg) * maxTokens cfg
     <= estimatedTokens w * snd (compressionThreshold cfg))%nat.

(** Modelled from the spec: [maybeCompress()]. Over the threshold, the
    turns to fold are all turns but the most recent [K]; the summary call is
    made on them; when it succeeds the folded turns give way to the new
    summary and the recent turns are kept; when it fails the window is left
    as it is. With nothing to fold no call is made (a second call in a row
    is a no-op). The result says whether compression occurred. *)
Definition maybeCompress (cfg : Config) (w : ContextWindow)
  : ContextWindow * bool :=
  if overThreshold cfg w then
    let n := (length (turns w) - K cfg)%nat in
    match take n (turns w) with
    | [] => (w, false)
    | folded =>
        match summarize (contextSummary w) folded with
        | Some s => ({| turns := drop n (turns w); contextSummary := Some s |},
                     true)
        | None => (w, false)
        end
    end
  else (w, false).

End Manager.

(** A turn of [n] characters. *)
Definition user_turn (seq n : nat) : Turn :=
  {| turn_role := user; turn_content := replicate n 97%N; turn_seq := seq |}.

(** A window with no summary whose turns have the given lengths. *)
Definition window (sizes : list nat) : ContextWindow :=
  {| turns := imap user_turn sizes; contextSummary := None |}.

(** An estimator by length, one token a character; a summary call that
    fails; one that answers with a text of [n] characters. *)
Definition one_per_char : jsstring -> nat := length.

Definition failing : option jsstring -> list Turn -> option jsstring :=
  fun _ _ => None.

Definition answering (n : nat) : option jsstring -> list Turn -> option jsstring :=
  fun _ _ => Some (replicate n 115%N).

End ContextManager.

(* ===================================================================== *)
(** ** The page: [ChatView] with its [VoiceRecorder] *)
(* ===================================================================== *)

Module App.

Import ChatView VoiceRecorder.

(** The page: the two components, and what the browser holds for the
    recorder. [startRecording] and [onstop] are [async]: between a press
    and the answer of [getUserMedia], and between the [stop] event and the
    answer of the transcription request, other handlers run. So the page
    has, besides the components' state,
    - every [MediaRecorder] built so far, oldest first;
      [mediaRecorderRef.current] is the last one, as [startRecording]
      assigns it whenever it builds one;
    - the calls of [getUserMedia] that have not settled, each with the
      [onTranscription] of the [startRecording] that made it;
    - the [onstop] handlers waiting in their [try] block, each with its
      [onTranscription] and the size of its [audioBlob]. *)
Record App := {
  chat : State;
  recorder : Recorder;
  mediaRecorders : list MediaRecorder;
  getUserMedia : list Closure;
  requests : list (Closure * N);
}.

Definition set_chat (s : State) (a : App) : App :=
  {| chat := s; recorder := recorder a;
     mediaRecorders := mediaRecorders a; getUserMedia := getUserMedia a;
     requests := requests a |}.

Definition set_recorder (r : Recorder) (a : App) : App :=
  {| chat := chat a; recorder := r;
     mediaRecorders := mediaRecorders a; getUserMedia := getUserMedia a;
     requests := requests a |}.

Definition set_mediaRecorders (ms : list MediaRecorder) (a : App) : App :=
  {| chat := chat a; recorder := recorder a;
     mediaRecorders := ms; getUserMedia := getUserMedia a;
     requests := requests a |}.

Definition set_getUserMedia (cs : list Closure) (a : App) : App :=
  {| chat := chat a; recorder := recorder a;
     mediaRecorders := mediaRecorders a; getUserMedia := cs;
     requests := requests a |}.

Definition set_requests (rs : list (Closure * N)) (a : App) : App :=
  {| chat := chat a; recorder := recorder a;
     mediaRecorders := mediaRecorders a; getUserMedia := getUserMedia a;
     requests := rs |}.

(** Effects that are only lines on the console. *)
Definition only_logs (es : list Effect) : bool :=
  forallb (fun e => match e with
                    | ConsoleLog _ | ConsoleError _ _ => true
                    | _ => false
                    end) es.

(** The ways one event can act on the chat component, with the effects
    that go with them: nothing but log lines; a keystroke; a change of the
    socket's [readyState]; [sendMessage] as built by the current render;
    [handleWSMessage]; and the end of an [onstop] handler, which calls the
    [handleVoiceMessage] it holds. *)
Inductive chat_step (s : State) : State -> list Effect -> Prop :=
| chat_same es : only_logs es = true -> chat_step s s es
| chat_typed v : chat_step s (setInputValue v s) []
| chat_socket rs es :
    only_logs es = true -> chat_step s (setReadyState rs s) es
| chat_send :
    chat_step s (sendMessage (render s) s).1 (sendMessage (render s) s).2
| chat_incoming data :
    chat_step s (handleWSMessage data s).1 (handleWSMessage data s).2
| chat_voice cl outcome r :
    chat_step s (onstop_resume cl outcome r s).1.2
      (onstop_resume cl outcome r s).2.

(** [mediaRecorderRef.current.stop()] *)
Definition stop_current (ms : list MediaRecorder) : list MediaRecorder :=
  match ms with
  | [] => []
  | _ :: _ => alter stop (pred (length ms)) ms
  end.

(** What happens to the page. An event runs one handler, or one stretch of
    an [async] function between two [await]s, to completion; React has
    rendered between two events, so a handler of the page is the one built
    from the current state, while a handler held by a browser object is the
    one built when the object was set up. The page stays mounted on one
    conversation. An event that names a pending call, a recorder or a
    request that is not there, or a change the socket cannot make from its
    [readyState], does not happen: the step leaves the page as it is. The
    order in which the answers of [getUserMedia] and of the transcription
    service arrive is free, and so is what the user does meanwhile. A
    message from the socket is handled whenever it is delivered; the model
    does not ask that the socket be open then. *)
Inductive Event :=
| Typed (v : jsstring)            (* [onChange] of the textarea *)
| SendPressed                     (* the send button, or Enter *)
| Incoming (data : WSMessage)     (* [ws.onmessage] *)
| SocketOpened                    (* the socket is open; [ws.onopen] *)
| SocketError                     (* [ws.onerror] *)
| SocketClosing                   (* the closing handshake has started *)
| SocketClosed                    (* the socket is closed; [ws.onclose] *)
| MouseDown                       (* [handleMouseDown] *)
| UserMedia (k : nat) (granted : bool)
                                  (* the [k]-th pending [getUserMedia]
                                     settles, [startRecording] resumes *)
| DataAvailable (k : nat) (size : N)
                                  (* a blob of recorder [k], which has not
                                     fired its [stop] event *)
| MouseUp                         (* [handleMouseUp] *)
| Stopped (k : nat) (size : N)    (* the task that ends recorder [k]: its
                                     last blob, then [onstop] up to its
                                     [await] *)
| SttDone (k : nat) (outcome : SttOutcome).
                                  (* the [k]-th pending request ended, its
                                     [onstop] resumes *)

Definition step (e : Event) (a : App) : App * list Effect :=
  match e with
  | Typed v => (set_chat (setInputValue v (chat a)) a, [])
  | SendPressed =>
      let '(s', es) := sendMessage (render (chat a)) (chat a) in
      (set_chat s' a, es)
  | Incoming data =>
      let '(s', es) := handleWSMessage data (chat a) in
      (set_chat s' a, es)
  | SocketOpened =>
      match wsRef (chat a) with
      | Some CONNECTING => (set_chat (setReadyState OPEN (chat a)) a, onopen)
      | _ => (a, [])
      end
  | SocketError =>
      match wsRef (chat a) with
      | Some _ => (a, onerror)
      | None => (a, [])
      end
  | SocketClosing =>
      match wsRef (chat a) with
      | Some OPEN => (set_chat (setReadyState CLOSING (chat a)) a, [])
      | _ => (a, [])
      end
  | SocketClosed =>
      match wsRef (chat a) with
      | Some CLOSED | None => (a, [])
      | Some _ => (set_chat (setReadyState CLOSED (chat a)) a, onclose)
      end
  | MouseDown =>
      match handleMouseDown (recorderDisabled (chat a)) (recorder a) with
      | Some r' =>
          (set_getUserMedia (getUserMedia a ++ [render (chat a)])
             (set_recorder r' a), [])
      | None => (a, [])
      end
  | UserMedia k granted =>
      match getUserMedia a !! k with
      | Some cl =>
          let '(r', es) := startRecording_resume granted (recorder a) in
          (set_getUserMedia (delete k (getUserMedia a))
             (set_mediaRecorders
                (if granted
                 then mediaRecorders a
                        ++ [{| state := MrRecording; onTranscription := cl |}]
                 else mediaRecorders a)
                (set_recorder r' a)), es)
      | None => (a, [])
      end
  | DataAvailable k size =>
      match state <$> mediaRecorders a !! k with
      | Some MrRecording | Some MrStopping =>
          (set_recorder (ondataavailable size (recorder a)) a, [])
      | _ => (a, [])
      end
  | MouseUp =>
      if recordingStops (recorder a)
      then (set_mediaRecorders (stop_current (mediaRecorders a)) a, [])
      else (a, [])
  | Stopped k size =>
      match mediaRecorders a !! k with
      | Some m =>
          match state m with
          | MrInactive => (a, [])
          | _ =>
              let r0 := ondataavailable size (recorder a) in
              (set_requests
                 (match chunks r0 with
                  | [] => requests a
                  | _ :: _ => requests a ++ [(onTranscription m, audioBlob r0)]
                  end)
                 (set_mediaRecorders
                    (<[k := setState MrInactive m]> (mediaRecorders a))
                    (set_recorder (onstop_begin r0) a)), [])
          end
      | None => (a, [])
      end
  | SttDone k outcome =>
      match requests a !! k with
      | Some (cl, _) =>
          let '(r', s', es) := onstop_resume cl outcome (recorder a) (chat a) in
          (set_requests (delete k (requests a))
             (set_recorder r' (set_chat s' a)), es)
      | None => (a, [])
      end
  end.

Fixpoint run (es : list Event) (a : App) : App * list Effect :=
  match es with
  | [] => (a, [])
  | e :: es' =>
      let '(a1, out1) := step e a in
      let '(a2, out2) := run es' a1 in
      (a2, out1 ++ out2)
  end.

(** A handler tried to put a frame on the socket: a turn was submitted. *)
Definition submitted (out : list Effect) : bool :=
  existsb (fun e => match e with
                    | WsSend _ | WsDropped _ | InvalidStateError => true
                    | _ => false
                    end) out.

(** The state after the events, the effects dropped. *)
Definition after (es : list Event) (a : App) : App := (run es a).1.

(** A page just mounted on a conversation, with a token: the socket has
    been created and is connecting. *)
Definition mounted : App :=
  {| chat := {| inputValue := []; isStreaming := false;
                streamingContent := []; wsRef := Some CONNECTING;
                store := {| conversations := []; groups := [];
                            currentConversation := None; messages := [];
                            isLoading := false; searchQuery := [];
                            selectedGroupId := None |} |};
     recorder := {| status := idle; error := None; chunks := [] |};
     mediaRecorders := []; getUserMedia := []; requests := [] |}.

(** The same page once the socket is open. *)
Definition fresh : App := set_chat (setReadyState OPEN (chat mounted)) mounted.

(** A conversation of two messages, the second a partial assistant reply. *)
Definition two_messages : ConversationState :=
  {| conversations := []; groups := []; currentConversation := None;
     messages :=
       [ {| id := 1; conversation_id := 7; role := user; content := lit "hi";
            audio_path := None; token_count := 1; created_at := lit "t0" |};
         {| id := 2; conversation_id := 7; role := assistant;
            content := lit "par"; audio_path := Some (lit "a.wav");
            token_count := 0; created_at := lit "t1" |} ];
     isLoading := false; searchQuery := []; selectedGroupId := None |}.

(** A scenario: the user presses the microphone button, the microphone is
    granted, a blob of audio arrives, the user releases the button and the
    recorder stops (its last blob is empty); while the transcription
    request is under way they type and send a text, and the first chunk of
    the answer arrives. *)
Definition text_sent_while_transcribing : list Event :=
  [MouseDown; UserMedia 0 true; DataAvailable 0 1600; MouseUp; Stopped 0 0;
   Typed (lit "hi"); SendPressed;
   Incoming (WSAssistantChunk (lit "par"))].

End App.

(* ===================================================================== *)
(** ** The conversation store: the other actions *)
(* ===================================================================== *)

Module StoreActions.

(** How an awaited call to the conversation service ends. *)
Inductive Settled (A : Type) :=
| Resolved (a : A)
| Rejected.

Arguments Resolved {A} a.
Arguments Rejected {A}.

(** Whether an action returns or rethrows. *)
Inductive Completion := returns | throws.

(** The partial updates [set({ ... })] of the actions below. *)
Definition set_isLoading (b : bool) (st : ConversationState)
  : ConversationState :=
  {| conversations := conversations st; groups := groups st;
     currentConversation := currentConversation st; messages := messages st;
     isLoading := b; searchQuery := searchQuery st;
     selectedGroupId := selectedGroupId st |}.

Definition set_conversations (cs : list Conversation) (st : ConversationState)
  : ConversationState :=
  {| conversations := cs; groups := groups st;
     currentConversation := currentConversation st; messages := messages st;
     isLoading := isLoading st; searchQuery := searchQuery st;
     selectedGroupId := selectedGroupId st |}.

Definition set_currentConversation (c : option Conversation)
    (st : ConversationState) : ConversationState :=
  {| conversations := conversations st; groups := groups st;
     currentConversation := c; messages := messages st;
     isLoading := isLoading st; searchQuery := searchQuery st;
     selectedGroupId := selectedGroupId st |}.

Definition set_groups (gs : list ConversationGroup) (st : ConversationState)
  : ConversationState :=
  {| conversations := conversations st; groups := gs;
     currentConversation := currentConversation st; messages := messages st;
     isLoading := isLoading st; searchQuery := searchQuery st;
     selectedGroupId := selectedGroupId st |}.

Definition set_selectedGroupId (g : option Z) (st : ConversationState)
  : ConversationState :=
  {| conversations := conversations st; groups := groups st;
     currentConversation := currentConversation st; messages := messages st;
     isLoading := isLoading st; searchQuery := searchQuery st;
     selectedGroupId := g |}.

(** [setSearchQuery] *)
Definition setSearchQuery (query : jsstring) (st : ConversationState)
  : ConversationState :=
  {| conversations := conversations st; groups := groups st;
     currentConversation := currentConversation st; messages := messages st;
     isLoading := isLoading st; searchQuery := query;
     selectedGroupId := selectedGroupId st |}.

(** The query of [fetchConversations]: [search: searchQuery || undefined],
    [group_id: selectedGroupId ?? undefined], [is_archived: false]. *)
Record ListParams := {
  param_search : option jsstring;
  param_group_id : option Z;
  param_is_archived : bool;
}.

Definition fetchParams (st : ConversationState) : ListParams :=
  {| param_search := if truthy (searchQuery st) then Some (searchQuery st)
                     else None;
     param_group_id := selectedGroupId st;
     param_is_archived := false |}.

(** [fetchConversations]: the state while the request is under way, and the
    state and completion once it has settled. *)
Definition fetchConversations_begin (st : ConversationState)
  : ConversationState := set_isLoading true st.

Definition fetchConversations_end (r : Settled (list Conversation))
    (st : ConversationState) : ConversationState * Completion :=
  match r with
  | Resolved cs => (set_isLoading false (set_conversations cs st), returns)
  | Rejected => (set_isLoading false st, throws)
  end.

Definition fetchConversations (r : Settled (list Conversation))
    (st : ConversationState) : ConversationState * Completion :=
  fetchConversations_end r (fetchConversations_begin st).

(** [selectConversation]: the two requests run under [Promise.all], which
    rejects as soon as one of them does. *)
Definition selectConversation
    (r : Settled (Conversation * list Message)) (st : ConversationState)
  : ConversationState * Completion :=
  match r with
  | Resolved (conversation, ms) =>
      (set_isLoading false
         (set_messages ms
            (set_currentConversation (Some conversation)
               (set_isLoading true st))),
       returns)
  | Rejected => (set_isLoading false (set_isLoading true st), throws)
  end.

(** [createConversation], once the service has answered:
    [conversations: [conversation, ...state.conversations]]. *)
Definition createConversation (conversation : Conversation)
    (st : ConversationState) : ConversationState :=
  set_conversations (conversation :: conversations st) st.

(** [{ ...c, ...updated }] for an [updated] that is a conversation: every
    field is the one of [updated]; the optional [message_count] is only
    overwritten when [updated] carries it. *)
Definition spread_over (c updated : Conversation) : Conversation :=
  {| conv_id := conv_id updated; user_id := user_id updated;
     group_id := group_id updated; title := title updated;
     tags := tags updated; summary := summary updated;
     is_archived := is_archived updated;
     conv_created_at := conv_created_at updated;
     updated_at := updated_at updated;
     message_count := match message_count updated with
                      | Some n => Some n
                      | None => message_count c
                      end |}.

(** [{ ...c, summary, tags }] *)
Definition with_summary (c : Conversation) (s : jsstring) (ts : list jsstring)
  : Conversation :=
  {| conv_id := conv_id c; user_id := user_id c; group_id := group_id c;
     title := title c; tags := ts; summary := Some s;
     is_archived := is_archived c; conv_created_at := conv_created_at c;
     updated_at := updated_at c; message_count := message_count c |}.

(** [state.currentConversation?.id === id] *)
Definition current_is (id : Z) (st : ConversationState) : bool :=
  match currentConversation st with
  | Some c => bool_decide (conv_id c = id)
  | None => false
  end.

(** The store update shared by [updateConversation] and
    [summarizeConversation]: the entries with the given [id], and the
    current conversation when it has that [id], are rewritten by [f]. *)
Definition rewrite_conversation (id : Z) (f : Conversation -> Conversation)
    (st : ConversationState) : ConversationState :=
  set_currentConversation
    (if current_is id st then f <$> currentConversation st
     else currentConversation st)
    (set_conversations
       ((fun c => if bool_decide (conv_id c = id) then f c else c)
          <$> conversations st) st).

(** [updateConversation], once the service has answered with [updated]. *)
Definition updateConversation (id : Z) (updated : Conversation)
    (st : ConversationState) : ConversationState :=
  rewrite_conversation id (fun c => spread_over c updated) st.

(** [summarizeConversation], once the service has answered. *)
Definition summarizeConversation (id : Z) (s : jsstring) (ts : list jsstring)
    (st : ConversationState) : ConversationState :=
  rewrite_conversation id (fun c => with_summary c s ts) st.

(** [deleteConversation], once the service has answered. The three fields
    are computed from the same [state]. *)
Definition deleteConversation (id : Z) (st : ConversationState)
  : ConversationState :=
  set_messages (if current_is id st then [] else messages st)
    (set_currentConversation
       (if current_is id st then None else currentConversation st)
       (set_conversations
          (filter (fun c => conv_id c <> id) (conversations st)) st)).

(** [fetchGroups], [createGroup], [updateGroup], [deleteGroup], once the
    service has answered. *)
Definition fetchGroups (gs : list ConversationGroup) (st : ConversationState)
  : ConversationState := set_groups gs st.

Definition createGroup (g : ConversationGroup) (st : ConversationState)
  : ConversationState := set_groups (groups st ++ [g]) st.

Definition updateGroup (id : Z) (updated : ConversationGroup)
    (st : ConversationState) : ConversationState :=
  set_groups
    ((fun g => if bool_decide (group_id_of g = id) then updated else g)
       <$> groups st) st.

Definition deleteGroup (id : Z) (st : ConversationState)
  : ConversationState :=
  set_selectedGroupId
    (if bool_decide (selectedGroupId st = Some id) then None
     else selectedGroupId st)
    (set_groups (filter (fun g => group_id_of g <> id) (groups st)) st).

(** [setSelectedGroupId]: the state it sets and the query of the
    [fetchConversations] it starts. *)
Definition setSelectedGroupId (id : option Z) (st : ConversationState)
  : ConversationState * ListParams :=
  (set_selectedGroupId id st, fetchParams (set_selectedGroupId id st)).

(** [fetchMessages], once the service has answered. *)
Definition fetchMessages (ms : list Message) (st : ConversationState)
  : ConversationState := set_messages ms st.

(** [clearCurrentConversation] *)
Definition clearCurrentConversation (st : ConversationState)
  : ConversationState :=
  set_messages [] (set_currentConversation None st).

(** The open conversation and the list agree: every entry of the list with
    the identifier of the open conversation is the open conversation. *)
Definition in_sync (st : ConversationState) : Prop :=
  forall c c', currentConversation st = Some c ->
               c' ∈ conversations st -> conv_id c' = conv_id c -> c' = c.

(** The selected group exists: a selection names a group of the list. *)
Definition selection_valid (st : ConversationState) : Prop :=
  forall id, selectedGroupId st = Some id ->
             exists g, g ∈ groups st /\ group_id_of g = id.

(** A conversation and a group for examples. *)
Definition a_conversation (id : Z) (t : jsstring) : Conversation :=
  {| conv_id := id; user_id := 1; group_id := None; title := t; tags := [];
     summary := None; is_archived := false; conv_created_at := lit "t0";
     updated_at := lit "t0"; message_count := None |}.

Definition a_group (id : Z) (n : jsstring) : ConversationGroup :=
  {| group_id_of := id; group_name := n; order_index := 0;
     group_created_at := lit "t0" |}.

(** A store with two conversations, the second one open with two messages,
    and two groups, the first one selected. *)
Definition a_store : ConversationState :=
  {| conversations := [a_conversation 1 (lit "one"); a_conversation 2 (lit "two")];
     groups := [a_group 10 (lit "work"); a_group 11 (lit "home")];
     currentConversation := Some (a_conversation 2 (lit "two"));
     messages := messages App.two_messages;
     isLoading := false; searchQuery := [];
     selectedGroupId := Some 10 |}.

End StoreActions.

(* ===================================================================== *)
(** ** The page: what is received and what is sent *)
(* ===================================================================== *)

Module Traffic.

Import ChatView VoiceRecorder App.

(** The message an incoming event adds to the conversation, if any. *)
Definition carried (data : WSMessage) : option Message :=
  match data with
  | WSUserMessage m | WSAssistantComplete m => Some m
  | _ => None
  end.

(** The messages carried by the incoming events of a run, in order. *)
Definition received (evs : list Event) : list Message :=
  omap (fun e => match e with Incoming data => carried data | _ => None end)
       evs.

(** A string that neither starts nor ends with white space. *)
Definition starts_clean (s : jsstring) : Prop :=
  match s with
  | [] => True
  | c :: _ => isWhiteSpace c = false
  end.

Definition clean_ends (s : jsstring) : Prop :=
  starts_clean s /\ starts_clean (reverse s).

(** A frame worth sending: not empty, and trimmed. *)
Definition well_formed_frame (c : jsstring) : Prop :=
  c <> [] /\ clean_ends c /\ trim c = c.

(** What a run put on the socket, or tried to. *)
Definition frames (out : list Effect) : list jsstring :=
  omap (fun e => match e with
                 | WsSend c | WsDropped c => Some c
                 | _ => None
                 end) out.

(** The chunks the [assistant_chunk] events of a run carried, in order. *)
Definition streamed (evs : list Event) : list jsstring :=
  omap (fun e => match e with
                 | Incoming (WSAssistantChunk c) => Some c
                 | _ => None
                 end) evs.

(** The events that end a turn on the page: the complete reply, and an
    error. *)
Definition completes (e : Event) : bool :=
  match e with Incoming (WSAssistantComplete _) => true | _ => false end.

Definition reports_error (e : Event) : bool :=
  match e with Incoming (WSError _) => true | _ => false end.

(** Every callback held for the recorder (by a pending [getUserMedia], by
    a [MediaRecorder], by an [onstop] handler waiting for its request) was
    built by a render with the flag clear. *)
Definition closure_clear (a : App) : Prop :=
  Forall (fun cl => seen_isStreaming cl = false) (getUserMedia a) /\
  Forall (fun m => seen_isStreaming (onTranscription m) = false)
    (mediaRecorders a) /\
  Forall (fun q => seen_isStreaming q.1 = false) (requests a).

End Traffic.

(* ===================================================================== *)
(** ** The recorder: outcomes and states *)
(* ===================================================================== *)

Module RecorderStates.

Import ChatView VoiceRecorder App.

(** The outcomes that end in the [catch] block: a rejected step of the
    request, or a [text] that is truthy and has no [trim]. *)
Definition fails (outcome : SttOutcome) : bool :=
  match outcome with
  | ConvertFailed | FetchFailed | NotOk | JsonFailed => true
  | Json text =>
      match text_and_trim text with
      | None => true
      | Some _ => false
      end
  end.

(** The size of the blob [new Blob(chunksRef.current)]. *)
Definition blob_size (r : Recorder) : N := audioBlob r.

(** The recorder holds no empty chunk, and has audio whenever its status
    is processing. *)
Definition has_audio (r : Recorder) : Prop :=
  Forall (fun n => (0 < n)%N) (chunks r) /\
  (status r = processing -> chunks r <> []).

(** Every request under way was made with a blob that is not empty. *)
Definition requests_have_audio (a : App) : Prop :=
  Forall (fun q => (0 < q.2)%N) (requests a).

(** What the status stands for: while it is recording, the recorder that
    [mediaRecorderRef.current] holds has not fired its [stop] event; while
    it is processing, a transcription request is under way. *)
Definition backed (a : App) : Prop :=
  (status (recorder a) = recording ->
   exists m, last (mediaRecorders a) = Some m /\ state m <> MrInactive) /\
  (status (recorder a) = processing -> requests a <> []).

End RecorderStates.

(* ===================================================================== *)
(** ** The WAV encoder: reading the result back *)
(* ===================================================================== *)

Module WavRead.

Import Wav.

(** The PCM payload: what follows the 44 bytes of the header. *)
Definition payload (out : list Z) : list Z := drop 44 out.

(** The four characters of a chunk identifier, as [writeString] stores
    them. *)
Definition fourcc (byteOffset : nat) (view : list Z) : list Z :=
  take 4 (drop byteOffset view).

(** The scale factor the encoder applies to a clamped value. *)
Definition factor (c : Q) : Q :=
  if Qltb c 0 then inject_Z 0x8000 else inject_Z 0x7fff.

End WavRead.

(* ===================================================================== *)
(** ** The login page: [handleSubmit] *)
(* ===================================================================== *)

Module LoginPage.

(** The messages given to [setError]. *)
Definition err_missing : jsstring :=       (* '请输入用户名和密码' *)
  [0x8BF7; 0x8F93; 0x5165; 0x7528; 0x6237; 0x540D; 0x548C; 0x5BC6; 0x7801]%N.
Definition err_short : jsstring :=         (* '密码至少6个字符' *)
  [0x5BC6; 0x7801; 0x81F3; 0x5C11; 0x0036; 0x4E2A; 0x5B57; 0x7B26]%N.
Definition err_failed : jsstring :=        (* '操作失败，请重试' *)
  [0x64CD; 0x4F5C; 0x5931; 0x8D25; 0xFF0C; 0x8BF7; 0x91CD; 0x8BD5]%N.

(** The form: the mode, the two fields and the message shown. *)
Record Form := {
  isLogin : bool;
  username : jsstring;
  password : jsstring;
  error : jsstring;
}.

Definition setError (e : jsstring) (f : Form) : Form :=
  {| isLogin := isLogin f; username := username f; password := password f;
     error := e |}.

(** What [handleSubmit] does besides setting the message: the call to the
    auth store and the navigation. *)
Inductive Effect :=
| Login (username password : jsstring)
| Register (username password : jsstring)
| Navigate (path : jsstring).

(** How the awaited call to the store ends: it returns, or it throws an
    error whose [response?.data?.detail] is the given string, if any. *)
Inductive Answer :=
| Accepted
| Refused (detail : option jsstring).

(** [error.response?.data?.detail || '操作失败，请重试'] *)
Definition detail_or_default (detail : option jsstring) : jsstring :=
  match detail with
  | Some d => if truthy d then d else err_failed
  | None => err_failed
  end.

(** [handleSubmit], the answer of the store (if it is asked) given. *)
Definition handleSubmit (answer : Answer) (f : Form) : Form * list Effect :=
  let f0 := setError [] f in
  if negb (truthy (trim (username f))) || negb (truthy (trim (password f)))
  then (setError err_missing f0, [])
  else if (length (password f) <? 6)%nat
  then (setError err_short f0, [])
  else
    let call := if isLogin f then Login (username f) (password f)
                else Register (username f) (password f) in
    match answer with
    | Accepted => (f0, [call; Navigate (lit "/")])
    | Refused detail => (setError (detail_or_default detail) f0, [call])
    end.

(** The calls to the store among the effects. *)
Definition is_call (e : Effect) : bool :=
  match e with Login _ _ | Register _ _ => true | Navigate _ => false end.

End LoginPage.

(* ===================================================================== *)
(** ** The auth store *)
(* ===================================================================== *)

Module AuthStore.

(** [User] of [types/index.ts]. *)
Record User := {
  user_ident : Z;
  user_name : jsstring;
  user_is_admin : bool;
  user_created_at : jsstring;
  user_updated_at : jsstring;
}.

(** The store's state, and the store together with [localStorage], which
    its actions read and write through the auth service. *)
Record AuthState := {
  user : option User;
  isAuthenticated : bool;
  isLoading : bool;
}.

Record World := {
  auth : AuthState;
  storage : gmap jsstring jsstring;
}.

(** The initial state, computed when the module is loaded. *)
Definition initial (ls : gmap jsstring jsstring) : World :=
  {| auth := {| user := None;
                isAuthenticated := AuthService.isAuthenticated ls;
                isLoading := false |};
     storage := ls |}.

Definition set_isLoading (b : bool) (s : AuthState) : AuthState :=
  {| user := user s; isAuthenticated := isAuthenticated s; isLoading := b |}.

(** How the request for the current user ([/api/auth/me]) ends. *)
Inductive MeAnswer :=
| MeFailed              (* the request rejects, is not ok, or is not JSON *)
| Me (u : User).

(** How [login] proceeds: the login request is refused, or it gives a
    token and the request for the user follows. *)
Inductive LoginAnswer :=
| LoginRefused
| Token (access_token : jsstring) (me : MeAnswer).

(** How [register] proceeds: the registration is refused, or the login
    follows. *)
Inductive RegisterAnswer :=
| RegisterRefused
| Registered (login : LoginAnswer).

(** Whether the action returns or rethrows. *)
Inductive Completion := returns | throws.

(** [login] *)
Definition login (answer : LoginAnswer) (w : World) : World * Completion :=
  match answer with
  | LoginRefused =>
      ({| auth := set_isLoading false (set_isLoading true (auth w));
          storage := storage w |}, throws)
  | Token access_token MeFailed =>
      ({| auth := set_isLoading false (set_isLoading true (auth w));
          storage := AuthService.setToken access_token (storage w) |}, throws)
  | Token access_token (Me u) =>
      ({| auth := {| user := Some u; isAuthenticated := true;
                     isLoading := false |};
          storage := AuthService.setToken access_token (storage w) |}, returns)
  end.

(** [register]: the registration, then the same steps as [login]. *)
Definition register (answer : RegisterAnswer) (w : World)
  : World * Completion :=
  match answer with
  | RegisterRefused =>
      ({| auth := set_isLoading false (set_isLoading true (auth w));
          storage := storage w |}, throws)
  | Registered la => login la w
  end.

(** [logout] *)
Definition logout (w : World) : World :=
  {| auth := {| user := None; isAuthenticated := false;
                isLoading := isLoading (auth w) |};
     storage := AuthService.logout (storage w) |}.

(** [fetchUser]: with no token no request is made; otherwise the answer of
    [getCurrentUser] decides. The second component says whether the request
    was made. *)
Definition fetchUser (answer : MeAnswer) (w : World) : World * bool :=
  if AuthService.isAuthenticated (storage w) then
    match answer with
    | Me u =>
        ({| auth := {| user := Some u; isAuthenticated := true;
                       isLoading := false |};
            storage := storage w |}, true)
    | MeFailed =>
        ({| auth := {| user := None; isAuthenticated := false;
                       isLoading := false |};
            storage := AuthService.logout (storage w) |}, true)
    end
  else
    ({| auth := {| user := None; isAuthenticated := false;
                   isLoading := isLoading (auth w) |};
        storage := storage w |}, false).

(** [setUser] *)
Definition setUser (u : option User) (w : World) : World :=
  {| auth := {| user := u; isAuthenticated := isAuthenticated (auth w);
                isLoading := isLoading (auth w) |};
     storage := storage w |}.

(** The store and the token agree. *)
Definition agree (w : World) : Prop :=
  isAuthenticated (auth w) = AuthService.isAuthenticated (storage w).

(** A user for examples. *)
Definition alice : User :=
  {| user_ident := 1; user_name := lit "alice"; user_is_admin := true;
     user_created_at := lit "t0"; user_updated_at := lit "t0" |}.

End AuthStore.

(* ===================================================================== *)
(** ** The settings store and the theme button *)
(* ===================================================================== *)

Module SettingsStore.

Inductive Theme := light | dark | system.

#[global] Instance Theme_eq_dec : EqDecision Theme.
Proof. solve_decision. Defined.

Inductive VoiceMode := push_to_talk | vad.

Record SettingsState := {
  theme : Theme;
  voiceMode : VoiceMode;
}.

(** The class a theme that is not ['system'] puts on the root. *)
Definition className (t : Theme) : string :=
  match t with
  | light => "light"
  | dark => "dark"
  | system => "system"
  end.

(** [getEffectiveTheme]; [prefersDark] is what
    [matchMedia('(prefers-color-scheme: dark)').matches] gives. *)
Definition getEffectiveTheme (s : SettingsState) (prefersDark : bool) : Theme :=
  match theme s with
  | system => if prefersDark then dark else light
  | t => t
  end.

(** [classList.remove(...tokens)] and [classList.add(token)] on the ordered
    set of the root's classes. *)
Definition classList_remove (tokens : list string) (cl : list string)
  : list string :=
  filter (fun c => c ∉ tokens) cl.

Definition classList_add (token : string) (cl : list string) : list string :=
  if decide (token ∈ cl) then cl else cl ++ [token].

(** [applyTheme] on the root's class list. *)
Definition applyTheme (t : Theme) (prefersDark : bool) (cl : list string)
  : list string :=
  let effectiveTheme :=
    match t with
    | system => if prefersDark then dark else light
    | _ => t
    end in
  classList_add (className effectiveTheme)
    (classList_remove ["light"; "dark"]%string cl).

(** The class of the effective theme, as [getEffectiveTheme] computes it
    in a store whose theme is [t]. *)
Definition applied_class (t : Theme) (prefersDark : bool) : string :=
  className (getEffectiveTheme {| theme := t; voiceMode := push_to_talk |}
               prefersDark).

(** [setTheme]: the state and the root's class list. *)
Definition setTheme (t : Theme) (prefersDark : bool)
    (s : SettingsState) (cl : list string) : SettingsState * list string :=
  ({| theme := t; voiceMode := voiceMode s |}, applyTheme t prefersDark cl).

(** [setVoiceMode] *)
Definition setVoiceMode (m : VoiceMode) (s : SettingsState) : SettingsState :=
  {| theme := theme s; voiceMode := m |}.

(** [themes.indexOf(theme)], -1 when absent. *)
Fixpoint indexOf (themes : list Theme) (t : Theme) : Z :=
  match themes with
  | [] => -1
  | t' :: rest =>
      if decide (t' = t) then 0
      else let i := indexOf rest t in if i <? 0 then -1 else i + 1
  end.

(** [cycleTheme] of the main layout: the theme it passes to [setTheme];
    [None] stands for [undefined], an index out of the array. *)
Definition cycleTheme (t : Theme) : option Theme :=
  let themes := [light; dark; system] in
  let currentIndex := indexOf themes t in
  let nextIndex := (currentIndex + 1) mod Z.of_nat (length themes) in
  themes !! Z.to_nat nextIndex.

(** A press on the theme button: [cycleTheme], then [setTheme]. *)
Definition pressThemeButton (prefersDark : bool)
    (w : SettingsState * list string) : SettingsState * list string :=
  match cycleTheme (theme w.1) with
  | Some t => setTheme t prefersDark w.1 w.2
  | None => w
  end.

End SettingsStore.

(* ===================================================================== *)
(** ** The [useWebSocket] hook *)
(* ===================================================================== *)

Module UseWebSocket.

Import ChatView.

(** A socket built by [connect]: its [readyState], and the
    [conversationId] its handlers close over. The timer callback of
    [ws.onclose] calls the [connect] that built the socket, so it
    reconnects to that same conversation. *)
Record Socket := {
  readyState : ReadyState;
  conversationId : Z;
}.

Definition withReadyState (rs : ReadyState) (so : Socket) : Socket :=
  {| readyState := rs; conversationId := conversationId so |}.

(** The hook's state: [isConnected], the socket [wsRef.current] holds, the
    timer [reconnectTimeoutRef.current] names, and around them every socket
    built so far (a socket is named by its place in the list) and the
    timers that are pending, each with the conversation its callback
    reconnects to. *)
Record Hook := {
  isConnected : bool;
  wsRef : option nat;
  reconnectTimeoutRef : option nat;
  sockets : list Socket;
  timers : gmap nat Z;
  nextTimer : nat;
}.

(** Truthiness of [conversationId] and of the token in [localStorage]. *)
Definition has_conversation (id : option Z) : bool :=
  match id with
  | Some n => negb (n =? 0)
  | None => false
  end.

Definition has_token (token : option jsstring) : bool :=
  match token with
  | Some t => truthy t
  | None => false
  end.

(** [connect], as built by a render with [conversationId = id]; [token] is
    what [authService.getToken()] returns when it is called. The socket
    [wsRef.current] held before is not closed. *)
Definition connect (id : option Z) (token : option jsstring) (h : Hook)
  : Hook :=
  match id with
  | Some n =>
      if negb (n =? 0) && has_token token then
        {| isConnected := isConnected h;
           wsRef := Some (length (sockets h));
           reconnectTimeoutRef := reconnectTimeoutRef h;
           sockets := sockets h
                      ++ [{| readyState := CONNECTING; conversationId := n |}];
           timers := timers h; nextTimer := nextTimer h |}
      else h
  | None => h
  end.

(** [WebSocket.close()] *)
Definition close (so : Socket) : Socket :=
  match readyState so with
  | CLOSED => so
  | _ => withReadyState CLOSING so
  end.

(** [disconnect]: the timer [reconnectTimeoutRef.current] names is
    cleared when the reference is truthy, the socket held is closed and let
    go. *)
Definition disconnect (h : Hook) : Hook :=
  {| isConnected := false;
     wsRef := None;
     reconnectTimeoutRef := reconnectTimeoutRef h;
     sockets := match wsRef h with
                | Some i => alter close i (sockets h)
                | None => sockets h
                end;
     timers := match reconnectTimeoutRef h with
               | Some t => if (t =? 0)%nat then timers h
                            else delete t (timers h)
               | None => timers h
               end;
     nextTimer := nextTimer h |}.

(** [send]: the frame that leaves, if any. *)
Definition send (data : jsstring) (h : Hook) : list jsstring :=
  match wsRef h with
  | Some i =>
      match readyState <$> sockets h !! i with
      | Some OPEN => [data]
      | _ => []
      end
  | None => []
  end.

(** The effect [useEffect(() => { connect(); return () => disconnect() },
    [conversationId, connect, disconnect])]: its body, its cleanup, and a
    re-run, which React makes when a dependency has changed: the cleanup of
    the previous run, then the body as built by the new render. *)
Definition effect (id : option Z) (token : option jsstring) (h : Hook)
  : Hook := connect id token h.

Definition cleanup (h : Hook) : Hook := disconnect h.

Definition rerun (id : option Z) (token : option jsstring) (h : Hook)
  : Hook := effect id token (cleanup h).

(** What the browser tells the hook. A socket opens once, from connecting;
    it is closed once; a timer fires if it is pending. *)
Inductive Event :=
| Opened (i : nat)       (* [onopen] of socket [i] *)
| Closed (i : nat)       (* [onclose] of socket [i] *)
| TimerFired (t : nat) (token : option jsstring).
                         (* timer [t] fires; [token] is the token then *)

(** The handlers [connect] installs, and the timer's callback. The handles
    [setTimeout] returns are fresh: [nextTimer] stands for the next one. *)
Definition handle (e : Event) (h : Hook) : Hook :=
  match e with
  | Opened i =>
      match sockets h !! i with
      | Some so =>
          match readyState so with
          | CONNECTING =>
              {| isConnected := true; wsRef := wsRef h;
                 reconnectTimeoutRef := reconnectTimeoutRef h;
                 sockets := <[i := withReadyState OPEN so]> (sockets h);
                 timers := timers h; nextTimer := nextTimer h |}
          | _ => h
          end
      | None => h
      end
  | Closed i =>
      match sockets h !! i with
      | Some so =>
          match readyState so with
          | CLOSED => h
          | _ =>
              {| isConnected := false; wsRef := wsRef h;
                 reconnectTimeoutRef := Some (nextTimer h);
                 sockets := <[i := withReadyState CLOSED so]> (sockets h);
                 timers := <[nextTimer h := conversationId so]> (timers h);
                 nextTimer := S (nextTimer h) |}
          end
      | None => h
      end
  | TimerFired t token =>
      match timers h !! t with
      | Some n =>
          let h' := {| isConnected := isConnected h; wsRef := wsRef h;
                       reconnectTimeoutRef := reconnectTimeoutRef h;
                       sockets := sockets h;
                       timers := delete t (timers h);
                       nextTimer := nextTimer h |} in
          if negb (n =? 0) then connect (Some n) token h' else h'
      | None => h
      end
  end.

(** A hook that holds an open socket to conversation 7, with no timer. *)
Definition connected : Hook :=
  {| isConnected := true; wsRef := Some 0%nat;
     reconnectTimeoutRef := None;
     sockets := [{| readyState := OPEN; conversationId := 7 |}];
     timers := ∅; nextTimer := 1 |}.

End UseWebSocket.

(* ===================================================================== *)
(** * Theorems *)
(* ===================================================================== *)

(* ===================================================================== *)
(** ** Properties of the conversation store *)
(* ===================================================================== *)

Section StoreFacts.

Implicit Types (ms : list Message) (c : jsstring) (st : ConversationState).

Lemma updateLast_length c ms : length (updateLast c ms) = length ms.
Proof.
  unfold updateLast. case_decide; [|done].
  destruct (ms !! _) as [m|]; [|done].
  case_decide; [|done]. by rewrite length_insert.
Qed.

Lemma updateLast_nil c : updateLast c [] = [].
Proof. done. Qed.

Lemma updateLast_snoc c ms m :
  updateLast c (ms ++ [m]) =
  ms ++ [if decide (role m = assistant) then with_content m c else m].
Proof.
  unfold updateLast. rewrite length_app. simpl.
  case_decide; [|lia].
  replace (length ms + 1 - 1)%nat with (length ms + 0)%nat by lia.
  rewrite lookup_app_r by lia.
  replace (length ms + 0 - length ms)%nat with 0%nat by lia. simpl.
  case_decide; [|done].
  rewrite insert_app_r. done.
Qed.

Lemma updateLast_other c ms i :
  (i + 1 < length ms)%nat -> updateLast c ms !! i = ms !! i.
Proof.
  intros Hi. unfold updateLast. case_decide; [|done].
  destruct (ms !! (length ms - 1)%nat) as [m|]; [|done].
  case_decide; [|done].
  apply list_lookup_insert_ne. lia.
Qed.

End StoreFacts.

(** C9. [updateLastMessage] touches nothing but the [content] of the last
    message, and that only when the last message is an assistant message:
    the store's other fields, the length of the list, every element before
    the last and every other field of the last element are kept; on an empty
    list and on a list ending in a message of another role the list is the
    same list. *)
Theorem updateLastMessage_frame (c : jsstring) (st : ConversationState) :
  (* the rest of the store *)
  conversations (updateLastMessage c st) = conversations st /\
  groups (updateLastMessage c st) = groups st /\
  currentConversation (updateLastMessage c st) = currentConversation st /\
  isLoading (updateLastMessage c st) = isLoading st /\
  searchQuery (updateLastMessage c st) = searchQuery st /\
  selectedGroupId (updateLastMessage c st) = selectedGroupId st /\
  (* the list *)
  length (messages (updateLastMessage c st)) = length (messages st) /\
  (forall i, (i + 1 < length (messages st))%nat ->
             messages (updateLastMessage c st) !! i = messages st !! i) /\
  (forall m, messages st !! (length (messages st) - 1)%nat = Some m ->
     exists m',
       messages (updateLastMessage c st) !! (length (messages st) - 1)%nat
         = Some m' /\
       id m' = id m /\ role m' = role m /\
       conversation_id m' = conversation_id m /\
       token_count m' = token_count m /\
       created_at m' = created_at m /\
       audio_path m' = audio_path m /\
       content m' = (if decide (role m = assistant) then c else content m)) /\
  (messages st = [] -> messages (updateLastMessage c st) = []) /\
  (forall m, messages st !! (length (messages st) - 1)%nat = Some m ->
             role m <> assistant ->
             messages (updateLastMessage c st) = messages st).
Proof.
  unfold updateLastMessage; simpl.
  repeat split; try done.
  - apply updateLast_length.
  - intros i Hi. by apply updateLast_other.
  - intros m Hm.
    destruct (messages st) as [|m0 ms0] eqn:E using rev_ind; [done|].
    clear IHms0. rewrite length_app in Hm |- *. simpl in *.
    replace (length ms0 + 1 - 1)%nat with (length ms0) in * by lia.
    rewrite list_lookup_middle in Hm by done. injection Hm as ->.
    rewrite updateLast_snoc, list_lookup_middle by done.
    eexists; split; [done|]. by case_decide.
  - intros ->. done.
  - intros m Hm Hrole.
    destruct (messages st) as [|m0 ms0] eqn:E using rev_ind; [done|].
    clear IHms0. rewrite length_app in Hm. simpl in *.
    replace (length ms0 + 1 - 1)%nat with (length ms0) in * by lia.
    rewrite list_lookup_middle in Hm by done. injection Hm as ->.
    rewrite updateLast_snoc. by case_decide.
Qed.

(** A concrete use of [updateLastMessage_frame]: the partial reply of a
    conversation of two messages is replaced. *)
Lemma updateLastMessage_frame_witness :
  messages (updateLastMessage (lit "partial") App.two_messages) !! 0%nat
    = messages App.two_messages !! 0%nat /\
  exists m',
    messages (updateLastMessage (lit "partial") App.two_messages) !! 1%nat
      = Some m' /\
    id m' = 2 /\ role m' = assistant /\ conversation_id m' = 7 /\
    token_count m' = 0 /\ created_at m' = lit "t1" /\
    audio_path m' = Some (lit "a.wav") /\ content m' = lit "partial".
Proof.
  destruct (updateLastMessage_frame (lit "partial") App.two_messages)
    as (_ & _ & _ & _ & _ & _ & _ & Hother & Hlast & _).
  split.
  - apply Hother. simpl. lia.
  - exact (Hlast _ eq_refl).
Defined.

(* ===================================================================== *)
(** ** The token store *)
(* ===================================================================== *)

Section AuthFacts.

Import AuthService.

Implicit Types (ls : gmap jsstring jsstring) (t : jsstring).

Lemma truthy_nonempty t : truthy t = true <-> t <> [].
Proof. destruct t; simpl; split; congruence. Qed.

Lemma getToken_setToken t ls : getToken (setToken t ls) = Some t.
Proof. apply lookup_insert_eq. Qed.

Lemma getToken_logout ls : getToken (logout ls) = None.
Proof. apply lookup_delete_eq. Qed.

Lemma getToken_apply_op ls op :
  op_key op <> tokenKey -> getToken (apply_op ls op) = getToken ls.
Proof.
  intros Hk. unfold getToken.
  destruct op; simpl in *; [by rewrite lookup_insert_ne | by rewrite lookup_delete_ne].
Qed.

Lemma getToken_other_ops ls ops :
  Forall (fun op => op_key op <> tokenKey) ops ->
  getToken (foldl apply_op ls ops) = getToken ls.
Proof.
  intros H. revert ls. induction H as [|op ops Hop _ IH]; intros ls; [done|].
  simpl. by rewrite IH, getToken_apply_op.
Qed.

Lemma isAuthenticated_spec ls :
  isAuthenticated ls = true <-> exists t, getToken ls = Some t /\ t <> [].
Proof.
  unfold isAuthenticated. destruct (getToken ls) as [t|].
  - rewrite truthy_nonempty. split; [eauto|]. by intros (t' & [= <-] & ?).
  - split; [done|]. by intros (? & ? & _).
Qed.

End AuthFacts.

(** C8, as stated, fails: after [setToken('')] the service holds the token
    it was given and yet [isAuthenticated()] is [false]. *)
Lemma auth_empty_token_not_authenticated :
  AuthService.getToken (AuthService.setToken [] ∅) = Some [] /\
  AuthService.isAuthenticated (AuthService.setToken [] ∅) = false.
Proof. split; reflexivity. Qed.

(** C8, amended. For every token string [t], after [setToken(t)] and any
    writes to other keys of [localStorage], [getToken()] returns [t], and
    [isAuthenticated()] returns [true] exactly when [t] is not the empty
    string; after [logout()], [getToken()] returns [null] and
    [isAuthenticated()] returns [false]; in every state [isAuthenticated()]
    is [true] if and only if [getToken()] returns a non-empty string. *)
Theorem auth_token_roundtrip :
  (forall t ls ops,
      Forall (fun op => AuthService.op_key op <> AuthService.tokenKey) ops ->
      AuthService.getToken
        (foldl AuthService.apply_op (AuthService.setToken t ls) ops) = Some t /\
      (AuthService.isAuthenticated
         (foldl AuthService.apply_op (AuthService.setToken t ls) ops) = true
       <-> t <> [])) /\
  (forall ls,
      AuthService.getToken (AuthService.logout ls) = None /\
      AuthService.isAuthenticated (AuthService.logout ls) = false) /\
  (forall ls,
      AuthService.isAuthenticated ls = true <->
      exists t, AuthService.getToken ls = Some t /\ t <> []).
Proof.
  split; [|split].
  - intros t ls ops Hops.
    assert (AuthService.getToken
              (foldl AuthService.apply_op (AuthService.setToken t ls) ops)
            = Some t) as Hget
      by (by rewrite getToken_other_ops, getToken_setToken).
    split; [done|].
    rewrite isAuthenticated_spec, Hget. split.
    + by intros (t' & [= <-] & ?).
    + eauto.
  - intros ls. split; [apply getToken_logout|].
    unfold AuthService.isAuthenticated. by rewrite getToken_logout.
  - apply isAuthenticated_spec.
Qed.

(** A concrete use of [auth_token_roundtrip]: a token, then a write to the
    settings key. *)
Lemma auth_token_roundtrip_witness :
  AuthService.getToken
    (foldl AuthService.apply_op (AuthService.setToken (lit "abc") ∅)
       [AuthService.SetItem (lit "livetalk-settings") (lit "{}")])
  = Some (lit "abc").
Proof.
  apply (proj1 auth_token_roundtrip (lit "abc") ∅
           [AuthService.SetItem (lit "livetalk-settings") (lit "{}")]).
  repeat constructor. vm_compute. discriminate.
Defined.

(* ===================================================================== *)
(** ** The transport boundary: [handleWSMessage] *)
(* ===================================================================== *)

Section BoundaryFacts.

Import ChatView.

Lemma switch_case_handled data :
  is_Some (switch_case data) <-> (ws_type data ∈ handled_kinds).
Proof.
  unfold handled_kinds.
  destruct data; simpl; split; intros H;
    try (by eauto); try (by destruct H);
    try (repeat constructor; fail);
    repeat (apply elem_of_cons in H as [H|H]; [discriminate H|]);
    by apply elem_of_nil in H.
Qed.

Lemma unhandled_is_noop data s :
  switch_case data = None -> handleWSMessage data s = (s, []).
Proof. by destruct data. Qed.

End BoundaryFacts.

(** C1, as stated, fails twice: the union has a member whose kind,
    [transcription], is not among the kinds the specification lists, and a
    [status] message (like [transcription] and [assistant_audio]) selects no
    clause of the handler's [switch]. *)
Lemma ws_union_not_exhaustively_matched :
  (ws_type (WSTranscription []) ∉ spec_event_kinds) /\
  ChatView.switch_case (WSStatus thinking) = None /\
  ChatView.switch_case (WSTranscription []) = None /\
  ChatView.switch_case (WSAudio [] []) = None.
Proof.
  split; [|done].
  unfold spec_event_kinds. simpl. intros H.
  repeat (apply elem_of_cons in H as [H|H]; [discriminate H|]).
  by apply elem_of_nil in H.
Qed.

(** C1, amended. The messages of the transport form a closed union of seven
    kinds: the six kinds of the specification and [transcription]; messages
    of the same kind are built by the same constructor. The client's handler
    is total on the union. It has a clause for exactly four kinds
    ([user_message], [assistant_chunk], [assistant_complete], [error]); a
    message of one of the other three kinds ([status], [transcription],
    [assistant_audio]) selects no clause, and handling it changes nothing
    and does nothing. *)
Theorem ws_union_and_handler :
  (forall data, ws_type data ∈ (spec_event_kinds ++ ["transcription"%string])) /\
  (forall k, k ∈ (spec_event_kinds ++ ["transcription"%string]) ->
             exists data, ws_type data = k) /\
  (forall d1 d2, ws_type d1 = ws_type d2 ->
     match d1, d2 with
     | WSUserMessage _, WSUserMessage _
     | WSAssistantChunk _, WSAssistantChunk _
     | WSAssistantComplete _, WSAssistantComplete _
     | WSStatus _, WSStatus _
     | WSTranscription _, WSTranscription _
     | WSAudio _ _, WSAudio _ _
     | WSError _, WSError _ => True
     | _, _ => False
     end) /\
  (forall data, is_Some (ChatView.switch_case data)
                <-> (ws_type data ∈ ChatView.handled_kinds)) /\
  (forall data s, ChatView.switch_case data = None ->
                  ChatView.handleWSMessage data s = (s, [])).
Proof.
  repeat split.
  - intros data. unfold spec_event_kinds.
    destruct data; simpl; repeat constructor.
  - intros k Hk. unfold spec_event_kinds in Hk. simpl in Hk.
    pose (m := {| id := 0; conversation_id := 0; role := user; content := [];
                  audio_path := None; token_count := 0; created_at := [] |}).
    repeat (apply elem_of_cons in Hk as [->|Hk];
            [first [ by exists (WSUserMessage m)
                   | by exists (WSAssistantChunk [])
                   | by exists (WSAssistantComplete m)
                   | by exists (WSStatus thinking)
                   | by exists (WSAudio [] [])
                   | by exists (WSError [])
                   | by exists (WSTranscription []) ]|]).
    by apply elem_of_nil in Hk.
  - intros d1 d2. destruct d1, d2; simpl; done.
  - apply switch_case_handled.
  - apply switch_case_handled.
  - intros data s. apply unhandled_is_noop.
Qed.

(** A concrete use of [ws_union_and_handler]: a [status] message. *)
Lemma ws_union_and_handler_witness :
  ChatView.handleWSMessage (WSStatus thinking) (App.chat App.fresh)
  = (App.chat App.fresh, []).
Proof.
  apply (proj2 (proj2 (proj2 (proj2 ws_union_and_handler)))
           (WSStatus thinking) (App.chat App.fresh)).
  reflexivity.
Defined.

(* ===================================================================== *)
(** ** Streaming: chunks, completion, errors *)
(* ===================================================================== *)

Section StreamingFacts.

Import ChatView.

Implicit Types (s : State) (cs : list jsstring) (ds : list WSMessage).

Lemma receive_app ds1 ds2 s :
  receive (ds1 ++ ds2) s = receive ds2 (receive ds1 s).
Proof. apply foldl_app. Qed.

(** Chunks only ever touch [streamingContent], and append to it. *)
Lemma receive_chunks cs s :
  receive (WSAssistantChunk <$> cs) s =
  setStreamingContent (fun prev => prev ++ concat cs) s.
Proof.
  revert s. induction cs as [|c cs IH]; intros s; simpl.
  - destruct s; unfold setStreamingContent; simpl. by rewrite app_nil_r.
  - change (receive (WSAssistantChunk <$> cs)
              (setStreamingContent (fun prev => prev ++ c) s) = 
            setStreamingContent (fun prev => prev ++ c ++ concat cs) s).
    rewrite IH. unfold setStreamingContent; simpl. by rewrite <- app_assoc.
Qed.

End StreamingFacts.

(** C4. Handling [assistant_complete] appends the message of the event, once
    and at the end of the conversation's messages, clears the flag and the
    accumulated content, so neither the bubble nor the indicator shows; the
    chunks received before it leave the messages as they were, so the only
    message a streamed reply adds is the complete one. *)
Theorem assistant_complete_appends_once
    (m : Message) (s : ChatView.State) (cs : list jsstring) :
  messages (ChatView.store (ChatView.handleWSMessage (WSAssistantComplete m) s).1)
    = messages (ChatView.store s) ++ [m] /\
  ChatView.isStreaming (ChatView.handleWSMessage (WSAssistantComplete m) s).1
    = false /\
  ChatView.streamingContent (ChatView.handleWSMessage (WSAssistantComplete m) s).1
    = [] /\
  ChatView.showsStreamingBubble
    (ChatView.handleWSMessage (WSAssistantComplete m) s).1 = false /\
  ChatView.showsThinking
    (ChatView.handleWSMessage (WSAssistantComplete m) s).1 = false /\
  messages (ChatView.store (ChatView.receive (WSAssistantChunk <$> cs) s))
    = messages (ChatView.store s) /\
  messages (ChatView.store
              (ChatView.receive
                 ((WSAssistantChunk <$> cs) ++ [WSAssistantComplete m]) s))
    = messages (ChatView.store s) ++ [m].
Proof.
  repeat split.
  - by rewrite receive_chunks.
  - by rewrite receive_app, receive_chunks.
Qed.

(* ===================================================================== *)
(** ** The page: who can set the streaming flag, and the streamed text *)
(* ===================================================================== *)

Section PageFacts.

Import ChatView VoiceRecorder App Traffic.

Lemma submitted_app out1 out2 :
  submitted (out1 ++ out2) = submitted out1 || submitted out2.
Proof. apply existsb_app. Qed.

Lemma submitted_ws_send rs c : submitted (ws_send rs c) = true.
Proof. by destruct rs. Qed.

Lemma submitted_only_logs es : only_logs es = true -> submitted es = false.
Proof.
  induction es as [|e es IH]; [done|]. simpl.
  intros [He Hes]%andb_true_iff. rewrite (IH Hes). by destruct e.
Qed.

(** The fresh page is the mounted page once its socket has opened. *)
Lemma fresh_is_opened : fresh = after [SocketOpened] mounted.
Proof. reflexivity. Qed.

(** Every step acts on the chat component in one of six ways. *)
Lemma step_chat e a : chat_step (chat a) (chat (step e a).1) (step e a).2.
Proof.
  destruct e as [v| |data| | | | | |k granted|k size| |k size|k outcome];
    cbn [step].
  - apply chat_typed.
  - pose proof (chat_send (chat a)) as H.
    by destruct (sendMessage (render (chat a)) (chat a)).
  - pose proof (chat_incoming (chat a) data) as H.
    by destruct (handleWSMessage data (chat a)).
  - destruct (wsRef (chat a)) as [[]|]; by constructor.
  - destruct (wsRef (chat a)); by constructor.
  - destruct (wsRef (chat a)) as [[]|]; by constructor.
  - destruct (wsRef (chat a)) as [[]|]; by constructor.
  - destruct (handleMouseDown _ _); by constructor.
  - destruct (getUserMedia a !! k); [|by constructor].
    unfold startRecording_resume. destruct granted; by constructor.
  - destruct (state <$> mediaRecorders a !! k) as [[]|]; by constructor.
  - destruct (recordingStops (recorder a)); by constructor.
  - destruct (mediaRecorders a !! k) as [m|]; [|by constructor].
    destruct (state m); by constructor.
  - destruct (requests a !! k) as [[cl n]|]; [|by constructor].
    pose proof (chat_voice (chat a) cl outcome (recorder a)) as H.
    by destruct (onstop_resume cl outcome (recorder a) (chat a))
      as [[r' s'] es].
Qed.

Lemma sendMessage_flag cl s :
  isStreaming (sendMessage cl s).1 = true ->
  isStreaming s = true \/ submitted (sendMessage cl s).2 = true.
Proof.
  unfold sendMessage. destruct (wsRef s) as [rs|]; [|by left].
  destruct (_ || _); simpl; [by left|].
  intros _. right. apply submitted_ws_send.
Qed.

Lemma handleVoiceMessage_flag cl text s :
  isStreaming (handleVoiceMessage cl text s).1 = true ->
  isStreaming s = true \/ submitted (handleVoiceMessage cl text s).2 = true.
Proof.
  unfold handleVoiceMessage. destruct (wsRef s) as [rs|]; [|by left].
  destruct (seen_isStreaming cl); simpl; [by left|].
  intros _. right. apply submitted_ws_send.
Qed.

Lemma handleWSMessage_flag data s :
  isStreaming (handleWSMessage data s).1 = true -> isStreaming s = true.
Proof. by destruct data. Qed.

Lemma handleWSMessage_quiet data s : submitted (handleWSMessage data s).2 = false.
Proof. by destruct data. Qed.

Lemma onstop_resume_flag cl outcome r s :
  isStreaming (onstop_resume cl outcome r s).1.2 = true ->
  isStreaming s = true \/ submitted (onstop_resume cl outcome r s).2 = true.
Proof.
  unfold onstop_resume.
  destruct outcome as [| | | |text]; simpl; try (by left).
  destruct (text_and_trim text) as [[t|]|]; simpl; try (by left).
  pose proof (handleVoiceMessage_flag cl t s) as H.
  destruct (handleVoiceMessage cl t s) as [s' es].
  simpl in H. destruct (threw es); simpl; intros Hs; [|by apply H].
  destruct (H Hs) as [?|Hsub]; [by left|right].
  by rewrite submitted_app, Hsub.
Qed.

(** Only a submission sets the flag. *)
Lemma chat_step_flag s s' es :
  chat_step s s' es ->
  isStreaming s' = true -> isStreaming s = true \/ submitted es = true.
Proof.
  destruct 1 as [es H|v|rs es H| |data|cl outcome r]; try (by left).
  - apply sendMessage_flag.
  - intros H. left. by apply (handleWSMessage_flag data).
  - apply onstop_resume_flag.
Qed.

Lemma step_flag e a :
  isStreaming (chat (step e a).1) = true ->
  isStreaming (chat a) = true \/ submitted (step e a).2 = true.
Proof. apply chat_step_flag, step_chat. Qed.

Lemma run_flag evs a :
  isStreaming (chat a) = false ->
  submitted (run evs a).2 = false ->
  isStreaming (chat (run evs a).1) = false.
Proof.
  revert a. induction evs as [|e evs IH]; intros a Hoff Hnone; [done|].
  simpl in *. pose proof (step_flag e a) as Hstep.
  destruct (step e a) as [a1 out1]. specialize (IH a1).
  destruct (run evs a1) as [a2 out2]. simpl in *.
  rewrite submitted_app in Hnone. apply orb_false_elim in Hnone as [H1 H2].
  apply IH; [|done].
  destruct (isStreaming (chat a1)); [|done].
  destruct Hstep as [?|?]; [done|congruence|congruence].
Qed.

(** A submission made while the rendered state has the flag set is turned
    down: nothing is sent and the state is the same state. This holds for
    [sendMessage], always called as built by the current render, and for a
    [handleVoiceMessage] built by the current render. *)
Lemma sendMessage_busy s :
  isStreaming s = true -> sendMessage (render s) s = (s, []).
Proof.
  intros H. unfold sendMessage, render; simpl. rewrite H, orb_true_r.
  by destruct (wsRef s).
Qed.

Lemma handleVoiceMessage_busy text s :
  isStreaming s = true -> handleVoiceMessage (render s) text s = (s, []).
Proof.
  intros H. unfold handleVoiceMessage, render; simpl. rewrite H.
  by destruct (wsRef s).
Qed.

(** A handler that was asked to submit and put nothing on the socket, not
    even in vain, returned at its guard: the state is the same state. *)
Lemma sendMessage_quiet cl s :
  submitted (sendMessage cl s).2 = false -> sendMessage cl s = (s, []).
Proof.
  unfold sendMessage. destruct (wsRef s) as [rs|]; [|done].
  destruct (_ || _); [done|]. simpl. by rewrite submitted_ws_send.
Qed.

Lemma handleVoiceMessage_quiet cl t s :
  submitted (handleVoiceMessage cl t s).2 = false ->
  handleVoiceMessage cl t s = (s, []).
Proof.
  unfold handleVoiceMessage. destruct (wsRef s) as [rs|]; [|done].
  destruct (seen_isStreaming cl); [done|]. simpl.
  by rewrite submitted_ws_send.
Qed.

Lemma onstop_resume_quiet cl outcome r s :
  submitted (onstop_resume cl outcome r s).2 = false ->
  (onstop_resume cl outcome r s).1.2 = s.
Proof.
  unfold onstop_resume. destruct outcome as [| | | |text]; try done.
  destruct (text_and_trim text) as [[t|]|]; try done.
  pose proof (handleVoiceMessage_quiet cl t s) as H.
  destruct (handleVoiceMessage cl t s) as [s' es]. simpl in H.
  destruct (threw es); simpl.
  - rewrite submitted_app. intros [Hq _]%orb_false_elim.
    by injection (H Hq).
  - intros Hq. by injection (H Hq).
Qed.

(** An accepted submission, by either path, starts the turn with the flag
    set and nothing accumulated. *)
Lemma sendMessage_starts cl s :
  submitted (sendMessage cl s).2 = true ->
  isStreaming (sendMessage cl s).1 = true /\
  streamingContent (sendMessage cl s).1 = [].
Proof.
  unfold sendMessage. destruct (wsRef s) as [rs|]; [|done].
  by destruct (_ || _).
Qed.

Lemma handleVoiceMessage_starts cl t s :
  submitted (handleVoiceMessage cl t s).2 = true ->
  isStreaming (handleVoiceMessage cl t s).1 = true /\
  streamingContent (handleVoiceMessage cl t s).1 = [].
Proof.
  unfold handleVoiceMessage. destruct (wsRef s) as [rs|]; [|done].
  by destruct (seen_isStreaming cl).
Qed.

Lemma onstop_resume_starts cl outcome r s :
  submitted (onstop_resume cl outcome r s).2 = true ->
  isStreaming (onstop_resume cl outcome r s).1.2 = true /\
  streamingContent (onstop_resume cl outcome r s).1.2 = [].
Proof.
  unfold onstop_resume. destruct outcome as [| | | |text]; try done.
  destruct (text_and_trim text) as [[t|]|]; try done.
  pose proof (handleVoiceMessage_starts cl t s) as H.
  destruct (handleVoiceMessage cl t s) as [s' es]. simpl in H.
  destruct (threw es); simpl; [|done].
  rewrite submitted_app. simpl. rewrite orb_false_r. done.
Qed.

Lemma step_starts e a :
  submitted (step e a).2 = true ->
  isStreaming (chat (step e a).1) = true /\
  streamingContent (chat (step e a).1) = [].
Proof.
  destruct (step_chat e a) as [es H|v|rs es H| |data|cl outcome r];
    try done.
  - by rewrite submitted_only_logs.
  - by rewrite submitted_only_logs.
  - apply sendMessage_starts.
  - by rewrite handleWSMessage_quiet.
  - apply onstop_resume_starts.
Qed.

(** Between two submissions, and until the complete reply, the streaming
    content only grows, by the chunks received. *)
Lemma step_content e a :
  completes e = false ->
  submitted (step e a).2 = false ->
  streamingContent (chat (step e a).1)
  = streamingContent (chat a) ++ concat (streamed [e]).
Proof.
  intros Hc Hq.
  destruct e as [v| |data| | | | | |k granted|k size| |k size|k outcome];
    cbn [step] in *; unfold streamed; cbn [omap concat option_bind mbind];
    rewrite ?app_nil_r.
  - done.
  - pose proof (sendMessage_quiet (render (chat a)) (chat a)) as H.
    destruct (sendMessage (render (chat a)) (chat a)) as [s' es].
    cbn [fst snd] in *. by injection (H Hq) as -> _.
  - destruct data; try done; simpl; by rewrite ?app_nil_r.
  - by destruct (wsRef (chat a)) as [[]|].
  - by destruct (wsRef (chat a)).
  - by destruct (wsRef (chat a)) as [[]|].
  - by destruct (wsRef (chat a)) as [[]|].
  - by destruct (handleMouseDown _ _).
  - destruct (getUserMedia a !! k); [|done].
    by destruct (startRecording_resume granted (recorder a)).
  - by destruct (state <$> mediaRecorders a !! k) as [[]|].
  - by destruct (recordingStops (recorder a)).
  - destruct (mediaRecorders a !! k) as [m|]; [|done]. by destruct (state m).
  - destruct (requests a !! k) as [[cl n]|]; [|done].
    pose proof (onstop_resume_quiet cl outcome (recorder a) (chat a)) as H.
    destruct (onstop_resume cl outcome (recorder a) (chat a)) as [[r' s'] es].
    cbn [fst snd chat set_requests set_recorder set_chat] in *.
    by rewrite (H Hq).
Qed.

Lemma streamed_cons e evs : streamed (e :: evs) = streamed [e] ++ streamed evs.
Proof.
  unfold streamed. simpl.
  by destruct (match e with Incoming (WSAssistantChunk c) => _ | _ => _ end).
Qed.

Lemma run_content evs a :
  Forall (fun e => completes e = false) evs ->
  submitted (run evs a).2 = false ->
  streamingContent (chat (after evs a))
  = streamingContent (chat a) ++ concat (streamed evs).
Proof.
  unfold after. revert a.
  induction evs as [|e evs IH]; intros a Hc Hq.
  - simpl. by rewrite app_nil_r.
  - apply Forall_cons in Hc as [He Hc]. rewrite streamed_cons, concat_app.
    cbn [run] in *. pose proof (step_content e a He) as Hstep.
    destruct (step e a) as [a1 out1]. specialize (IH a1 Hc).
    destruct (run evs a1) as [a2 out2]. cbn [fst snd] in *.
    rewrite submitted_app in Hq. apply orb_false_elim in Hq as [H1 H2].
    rewrite (IH H2), (Hstep H1). by rewrite <- app_assoc.
Qed.

(** Until the complete reply or an error, the flag stays set. *)
Lemma step_flag_stays e a :
  completes e = false -> reports_error e = false ->
  isStreaming (chat a) = true -> isStreaming (chat (step e a).1) = true.
Proof.
  intros Hc He Hon.
  destruct e as [v| |data| | | | | |k granted|k size| |k size|k outcome];
    cbn [step] in *.
  - done.
  - by rewrite (sendMessage_busy _ Hon).
  - by destruct data.
  - by destruct (wsRef (chat a)) as [[]|].
  - by destruct (wsRef (chat a)).
  - by destruct (wsRef (chat a)) as [[]|].
  - by destruct (wsRef (chat a)) as [[]|].
  - by destruct (handleMouseDown _ _).
  - destruct (getUserMedia a !! k); [|done].
    by destruct (startRecording_resume granted (recorder a)).
  - by destruct (state <$> mediaRecorders a !! k) as [[]|].
  - by destruct (recordingStops (recorder a)).
  - destruct (mediaRecorders a !! k) as [m|]; [|done]. by destruct (state m).
  - destruct (requests a !! k) as [[cl n]|]; [|done].
    unfold onstop_resume. destruct outcome as [| | | |text]; try done.
    destruct (text_and_trim text) as [[t|]|]; try done.
    unfold handleVoiceMessage. destruct (wsRef (chat a)) as [rs|]; [|done].
    destruct (seen_isStreaming cl); [done|].
    by destruct (threw (ws_send rs t)).
Qed.

Lemma run_flag_stays evs a :
  Forall (fun e => completes e = false) evs ->
  Forall (fun e => reports_error e = false) evs ->
  isStreaming (chat a) = true -> isStreaming (chat (after evs a)) = true.
Proof.
  unfold after. revert a.
  induction evs as [|e evs IH]; intros a Hc He Hon; [done|].
  apply Forall_cons in Hc as [Hc1 Hc]. apply Forall_cons in He as [He1 He].
  cbn [run]. pose proof (step_flag_stays e a Hc1 He1 Hon) as Hstep.
  destruct (step e a) as [a1 out1]. specialize (IH a1 Hc He Hstep).
  by destruct (run evs a1) as [a2 out2].
Qed.

(** A run is the run of a prefix followed by the run of the rest. *)
Lemma run_app evs1 evs2 a :
  run (evs1 ++ evs2) a
  = ((run evs2 (after evs1 a)).1,
     (run evs1 a).2 ++ (run evs2 (after evs1 a)).2).
Proof.
  unfold after. revert a. induction evs1 as [|e evs1 IH]; intros a.
  - simpl. by destruct (run evs2 a).
  - cbn [app run]. destruct (step e a) as [a1 out1]. rewrite IH.
    destruct (run evs1 a1) as [a2 out2]. cbn [fst snd].
    by rewrite app_assoc.
Qed.

Lemma run_take_quiet k evs a :
  submitted (run evs a).2 = false -> submitted (run (take k evs) a).2 = false.
Proof.
  rewrite <- (take_drop k evs) at 1. rewrite run_app. cbn [snd].
  rewrite submitted_app. by intros [? _]%orb_false_elim.
Qed.

End PageFacts.

(** C3. From the submission that starts a turn, by the text path or by the
    voice path, and as long as the complete reply has not arrived and no
    other turn is submitted, whatever else happens on the page (the echo of
    the user's message, status messages, errors, typing, the recorder, the
    socket): the turn starts with nothing accumulated; every
    [assistant_chunk] is appended to the streaming content by the very
    handler call that receives it, in whatever state it arrives; and after
    every prefix of the events, and after all of them, the streaming content
    is the concatenation, in order of arrival, of the [content] fields of
    the chunks received since the submission; from any other state the same
    events add their chunks, in order, to what was accumulated. Unless an
    error was reported
    the flag is still set, so the streaming bubble is rendered as soon as
    that content is not empty, and that content is what it shows. *)
Theorem chunks_accumulate_in_order
    (a : App.App) (e0 : App.Event) (evs : list App.Event) :
  App.submitted (App.step e0 a).2 = true ->
  App.submitted (App.run evs (App.step e0 a).1).2 = false ->
  Forall (fun e => Traffic.completes e = false) evs ->
  ChatView.streamingContent (App.chat (App.step e0 a).1) = [] /\
  (forall a' c,
     App.step (App.Incoming (WSAssistantChunk c)) a'
     = (App.set_chat
          (ChatView.setStreamingContent (fun prev => prev ++ c) (App.chat a'))
          a', [])) /\
  (forall k,
     ChatView.streamingContent
       (App.chat (App.after (take k evs) (App.step e0 a).1))
     = concat (Traffic.streamed (take k evs))) /\
  ChatView.streamingContent (App.chat (App.after evs (App.step e0 a).1))
    = concat (Traffic.streamed evs) /\
  (* from any state, the same events only add their chunks *)
  (forall a',
     App.submitted (App.run evs a').2 = false ->
     ChatView.streamingContent (App.chat (App.after evs a'))
     = ChatView.streamingContent (App.chat a')
       ++ concat (Traffic.streamed evs)) /\
  (Forall (fun e => Traffic.reports_error e = false) evs ->
   ChatView.isStreaming (App.chat (App.after evs (App.step e0 a).1)) = true /\
   ChatView.showsStreamingBubble
     (App.chat (App.after evs (App.step e0 a).1))
   = truthy (concat (Traffic.streamed evs)) /\
   ChatView.streamingBubble (App.chat (App.after evs (App.step e0 a).1))
   = (if truthy (concat (Traffic.streamed evs))
      then Some (concat (Traffic.streamed evs)) else None)).
Proof.
  intros Hstart Hquiet Hopen.
  destruct (step_starts e0 a Hstart) as [Hflag Hempty].
  assert (forall l,
            App.submitted (App.run l (App.step e0 a).1).2 = false ->
            Forall (fun e => Traffic.completes e = false) l ->
            ChatView.streamingContent
              (App.chat (App.after l (App.step e0 a).1))
            = concat (Traffic.streamed l)) as Hall.
  { intros l Hq Hc. by rewrite run_content, Hempty. }
  split; [done|]. split; [done|]. split; [|split; [|split]].
  - intros k. apply Hall; [by apply run_take_quiet|by apply Forall_take].
  - by apply Hall.
  - intros a' Hq. by apply run_content.
  - intros Herr.
    pose proof (run_flag_stays evs _ Hopen Herr Hflag) as Hon.
    unfold ChatView.streamingBubble, ChatView.showsStreamingBubble.
    by rewrite Hon, Hall.
Qed.

(** A concrete use of [chunks_accumulate_in_order]: a typed message is sent
    on the fresh page; its echo, a status message and three chunks arrive,
    with some typing and a press on the microphone button in between. *)
Lemma chunks_accumulate_in_order_witness :
  ChatView.streamingContent
    (App.chat
       (App.after
          [App.Incoming (WSUserMessage
             {| id := 1; conversation_id := 7; role := user;
                content := lit "hi"; audio_path := None; token_count := 1;
                created_at := lit "t0" |});
           App.Incoming (WSStatus thinking);
           App.Incoming (WSAssistantChunk (lit "Hel"));
           App.Typed (lit "and");
           App.Incoming (WSAssistantChunk (lit "lo, "));
           App.MouseDown;
           App.Incoming (WSAssistantChunk (lit "world"))]
          (App.step App.SendPressed
             (App.after [App.Typed (lit " hi ")] App.fresh)).1))
  = lit "Hello, world".
Proof.
  refine (proj1 (proj2 (proj2 (proj2
    (chunks_accumulate_in_order
       (App.after [App.Typed (lit " hi ")] App.fresh) App.SendPressed
       _ _ _ _))))).
  - reflexivity.
  - reflexivity.
  - repeat constructor.
Defined.

(** C5. Handling an [error] event clears the streaming flag, whatever the
    state; and from the state it leaves, whatever happens on the page
    (typing, further messages of any kind from the socket, the socket
    opening or closing, recording), as long as no turn is submitted the
    flag stays clear, so neither the thinking indicator nor the streaming
    bubble is shown. *)
Theorem no_thinking_after_error
    (a : App.App) (msg : jsstring) (evs : list App.Event) :
  App.submitted (App.run evs (App.step (App.Incoming (WSError msg)) a).1).2
    = false ->
  ChatView.isStreaming (App.chat (App.step (App.Incoming (WSError msg)) a).1)
    = false /\
  ChatView.isStreaming
    (App.chat (App.run evs (App.step (App.Incoming (WSError msg)) a).1).1)
    = false /\
  ChatView.showsThinking
    (App.chat (App.run evs (App.step (App.Incoming (WSError msg)) a).1).1)
    = false /\
  ChatView.showsStreamingBubble
    (App.chat (App.run evs (App.step (App.Incoming (WSError msg)) a).1).1)
    = false.
Proof.
  intros Hnone.
  assert (ChatView.isStreaming
            (App.chat (App.step (App.Incoming (WSError msg)) a).1) = false)
    as Hoff by done.
  pose proof (run_flag evs _ Hoff Hnone) as Hrun.
  unfold ChatView.showsThinking, ChatView.showsStreamingBubble.
  by rewrite Hrun.
Qed.

(** A concrete use of [no_thinking_after_error]: a turn is under way with
    some text streamed when the error arrives; late chunks, a status message
    and some typing follow, and a recording with no audio. *)
Lemma no_thinking_after_error_witness :
  ChatView.showsThinking
    (App.chat
       (App.run [App.Incoming (WSAssistantChunk (lit "late"));
                 App.Incoming (WSStatus thinking);
                 App.Typed (lit "again");
                 App.MouseDown; App.UserMedia 0 true; App.MouseUp;
                 App.Stopped 0 0]
          (App.step (App.Incoming (WSError (lit "backend unavailable")))
             (App.run [App.Typed (lit "hi"); App.SendPressed;
                       App.Incoming (WSAssistantChunk (lit "par"))]
                App.fresh).1).1).1)
  = false.
Proof.
  refine (proj1 (proj2 (proj2 (no_thinking_after_error _ _ _ _)))).
  reflexivity.
Defined.

(* ===================================================================== *)
(** ** A second submission while a turn is in flight *)
(* ===================================================================== *)

Section StaleClosure.

Import ChatView VoiceRecorder App.

(** The voice path does not look at the current flag but at the flag of the
    render in which the button was pressed. When that one is clear, a
    transcription that comes back non-blank is submitted whatever the
    current state: the content is emptied, the flag set, and the frame
    given to the socket. *)
Lemma transcription_ignores_current_flag a k cl n rs t :
  requests a !! k = Some (cl, n) ->
  seen_isStreaming cl = false ->
  wsRef (chat a) = Some rs ->
  truthy t && truthy (trim t) = true ->
  sent (step (SttDone k (Json (JString t))) a).2 = sent (ws_send rs (trim t)) /\
  submitted (step (SttDone k (Json (JString t))) a).2 = true /\
  streamingContent (chat (step (SttDone k (Json (JString t))) a).1) = [] /\
  isStreaming (chat (step (SttDone k (Json (JString t))) a).1) = true.
Proof.
  intros Hk Hcl Hws Ht. cbn [step]. rewrite Hk.
  unfold onstop_resume, text_and_trim. rewrite Ht.
  unfold handleVoiceMessage. rewrite Hws, Hcl.
  destruct rs; cbn; done.
Qed.

End StaleClosure.

(** C2, at the failing scenario. A text turn is in flight (the flag is set
    and ["par"] has been streamed) when the transcription of a recording
    started earlier comes back: the voice path is not refused. A second
    frame is sent and the partial content of the turn in flight is
    discarded. On the same state the text path, and a voice callback built
    by the current render, send nothing and change nothing. *)
Theorem voice_path_submits_during_turn :
  ChatView.isStreaming
    (App.chat (App.after App.text_sent_while_transcribing App.fresh)) = true /\
  ChatView.streamingContent
    (App.chat (App.after App.text_sent_while_transcribing App.fresh))
    = lit "par" /\
  ChatView.sent (App.run App.text_sent_while_transcribing App.fresh).2
    = [lit "hi"] /\
  (* the transcription arrives *)
  ChatView.sent
    (App.step
       (App.SttDone 0 (VoiceRecorder.Json (VoiceRecorder.JString (lit "hello"))))
       (App.after App.text_sent_while_transcribing App.fresh)).2
    = [lit "hello"] /\
  ChatView.streamingContent
    (App.chat
       (App.step
          (App.SttDone 0
             (VoiceRecorder.Json (VoiceRecorder.JString (lit "hello"))))
          (App.after App.text_sent_while_transcribing App.fresh)).1)
    = [] /\
  (* the other ways in are shut on that state *)
  App.step App.SendPressed
    (App.step (App.Typed (lit "again"))
       (App.after App.text_sent_while_transcribing App.fresh)).1
    = ((App.step (App.Typed (lit "again"))
          (App.after App.text_sent_while_transcribing App.fresh)).1, []) /\
  ChatView.handleVoiceMessage
    (ChatView.render
       (App.chat (App.after App.text_sent_while_transcribing App.fresh)))
    (lit "hello")
    (App.chat (App.after App.text_sent_while_transcribing App.fresh))
    = (App.chat (App.after App.text_sent_while_transcribing App.fresh), []).
Proof. repeat split. Qed.

(* ===================================================================== *)
(** ** The recorder: recordings with nothing to submit *)
(* ===================================================================== *)

Section RecorderFacts.

Import ChatView VoiceRecorder App.

Lemma trimStart_blank t : blank t = true -> trimStart t = [].
Proof.
  induction t as [|c t IH]; [done|]. simpl.
  intros [Hc Ht]%andb_true_iff. rewrite Hc. auto.
Qed.

Lemma trim_blank t : blank t = true -> trim t = [].
Proof. intros H. unfold trim. by rewrite trimStart_blank. Qed.

Lemma trimStart_not_blank t : blank t = false -> trimStart t <> [].
Proof.
  induction t as [|c t IH]; [done|]. simpl.
  destruct (isWhiteSpace c) eqn:Hc; simpl; [auto|done].
Qed.

Lemma trimStart_nonempty_head t :
  trimStart t <> [] ->
  exists c t', trimStart t = c :: t' /\ isWhiteSpace c = false.
Proof.
  induction t as [|c t IH]; [done|]. simpl.
  destruct (isWhiteSpace c) eqn:Hc; [auto|]. intros _. eauto.
Qed.

Lemma blank_app t1 t2 : blank (t1 ++ t2) = blank t1 && blank t2.
Proof. apply forallb_app. Qed.

Lemma blank_reverse t : blank (reverse t) = blank t.
Proof.
  induction t as [|c t IH]; [done|].
  rewrite reverse_cons, blank_app, IH. simpl.
  rewrite andb_true_r. apply andb_comm.
Qed.

(** A string with a character that is not white space keeps it. *)
Lemma trim_not_blank t : blank t = false -> trim t <> [].
Proof.
  intros H. unfold trim, trimEnd.
  destruct (trimStart_nonempty_head t (trimStart_not_blank t H))
    as (c & t' & Heq & Hc).
  rewrite Heq. intros Hnil.
  apply (f_equal reverse) in Hnil. rewrite reverse_involutive in Hnil.
  simpl in Hnil.
  assert (blank (reverse (c :: t')) = false) as Hb.
  { rewrite blank_reverse. simpl. by rewrite Hc. }
  apply trimStart_not_blank in Hb. by rewrite reverse_nil in Hnil.
Qed.

Lemma blank_text_is_falsy t :
  blank t = true -> text_and_trim (JString t) = Some None.
Proof.
  intros H. unfold text_and_trim. rewrite (trim_blank t H). simpl.
  by rewrite andb_false_r.
Qed.

Lemma speech_text_is_truthy t :
  blank t = false -> text_and_trim (JString t) = Some (Some (trim t)).
Proof.
  intros H. unfold text_and_trim.
  pose proof (trim_not_blank t H) as Hne.
  destruct t as [|c t]; [done|].
  destruct (trim (c :: t)); done.
Qed.

End RecorderFacts.

(** C6, as stated, fails for the recordings with no audio chunk: the
    handler returns at once, and nothing is reported. On the fresh page,
    pressing the button, being granted the microphone and releasing the
    button before any data arrives (the last blob is empty too) leaves the
    recorder idle with no error, and no request is made. *)
Lemma no_chunks_no_error_reported :
  VoiceRecorder.status
    (App.recorder
       (App.after [App.MouseDown; App.UserMedia 0 true; App.MouseUp;
                   App.Stopped 0 0] App.fresh))
    = VoiceRecorder.idle /\
  VoiceRecorder.error
    (App.recorder
       (App.after [App.MouseDown; App.UserMedia 0 true; App.MouseUp;
                   App.Stopped 0 0] App.fresh))
    = None /\
  App.requests
    (App.after [App.MouseDown; App.UserMedia 0 true; App.MouseUp;
                App.Stopped 0 0] App.fresh)
    = [] /\
  (App.run [App.MouseDown; App.UserMedia 0 true; App.MouseUp;
            App.Stopped 0 0] App.fresh).2 = [].
Proof. repeat split. Qed.

(** C6, amended. For every recording whose transcription is empty or made
    of white space only, [onTranscription] is not called (the chat state is
    the same and nothing is sent), the error ['未检测到语音'] is reported and
    the recorder returns to idle. For every recording that produced no audio
    chunk, no request is made, [onTranscription] is not called and the
    recorder returns to idle, with no error reported: the error stays as
    [startRecording] left it, cleared. A transcription with a character that
    is not white space is passed, trimmed, to [onTranscription]. *)
Theorem empty_transcription_aborts
    (cl : ChatView.Closure) (r : VoiceRecorder.Recorder) (s : ChatView.State) :
  (forall t, VoiceRecorder.chunks r <> [] -> blank t = true ->
     VoiceRecorder.onstop cl (VoiceRecorder.Json (VoiceRecorder.JString t)) r s
     = (VoiceRecorder.setStatus VoiceRecorder.idle
          (VoiceRecorder.setError (Some VoiceRecorder.err_no_speech) r),
        s, [])) /\
  (forall outcome, VoiceRecorder.chunks r = [] ->
     VoiceRecorder.onstop cl outcome r s
     = (VoiceRecorder.setStatus VoiceRecorder.idle r, s, [])) /\
  (forall outcome,
     VoiceRecorder.onstop cl outcome
       (VoiceRecorder.startRecording_resume true
          (VoiceRecorder.startRecording_begin r)).1 s
     = (VoiceRecorder.setStatus VoiceRecorder.idle
          (VoiceRecorder.startRecording_resume true
             (VoiceRecorder.startRecording_begin r)).1, s, []) /\
     VoiceRecorder.error
       (VoiceRecorder.onstop cl outcome
          (VoiceRecorder.startRecording_resume true
             (VoiceRecorder.startRecording_begin r)).1 s).1.1 = None) /\
  (forall t, VoiceRecorder.chunks r <> [] -> blank t = false ->
     VoiceRecorder.onstop cl (VoiceRecorder.Json (VoiceRecorder.JString t)) r s
     = (let '(s', es) := ChatView.handleVoiceMessage cl (trim t) s in
        if ChatView.threw es
        then (VoiceRecorder.setStatus VoiceRecorder.idle
                (VoiceRecorder.setError (Some VoiceRecorder.err_stt_failed) r),
              s', es ++ [ChatView.ConsoleError "STT error:" None])
        else (VoiceRecorder.setStatus VoiceRecorder.idle r, s', es))).
Proof.
  repeat split.
  - intros t Hc Ht. unfold VoiceRecorder.onstop, VoiceRecorder.onstop_begin.
    destruct (VoiceRecorder.chunks r) eqn:E; [done|].
    cbn [VoiceRecorder.status VoiceRecorder.setStatus].
    unfold VoiceRecorder.onstop_resume. by rewrite blank_text_is_falsy.
  - intros outcome Hc.
    unfold VoiceRecorder.onstop, VoiceRecorder.onstop_begin. by rewrite Hc.
  - intros t Hc Ht. unfold VoiceRecorder.onstop, VoiceRecorder.onstop_begin.
    destruct (VoiceRecorder.chunks r) eqn:E; [done|].
    cbn [VoiceRecorder.status VoiceRecorder.setStatus].
    unfold VoiceRecorder.onstop_resume. rewrite speech_text_is_truthy by done.
    destruct (ChatView.handleVoiceMessage _ _ _) as [s' es].
    by destruct (ChatView.threw es).
Qed.

(** A concrete use of [empty_transcription_aborts]: a recording of two
    chunks for which the server answers with spaces and a line break. *)
Lemma empty_transcription_aborts_witness :
  VoiceRecorder.onstop (ChatView.render (App.chat App.fresh))
    (VoiceRecorder.Json (VoiceRecorder.JString (lit "  " ++ [0x3000; 0x0A]%N)))
    (App.recorder
       (App.after [App.MouseDown; App.UserMedia 0 true;
                   App.DataAvailable 0 1600; App.DataAvailable 0 800]
          App.fresh))
    (App.chat App.fresh)
  = (VoiceRecorder.setStatus VoiceRecorder.idle
       (VoiceRecorder.setError (Some VoiceRecorder.err_no_speech)
          (App.recorder
             (App.after [App.MouseDown; App.UserMedia 0 true;
                         App.DataAvailable 0 1600; App.DataAvailable 0 800]
                App.fresh))),
     App.chat App.fresh, []).
Proof.
  apply (proj1 (empty_transcription_aborts _ _ _)).
  - vm_compute. discriminate.
  - reflexivity.
Defined.

(* ===================================================================== *)
(** ** The WAV encoder *)
(* ===================================================================== *)

Section DataViewFacts.

Import Wav.

Implicit Types (view pre suf bs : list Z) (off : nat).

Lemma length_le_bytes n v : length (le_bytes n v) = n.
Proof. revert v. induction n as [|n IH]; intros v; simpl; [done|]. by rewrite IH. Qed.

Lemma write_ok off bs view :
  (off + length bs <= length view)%nat ->
  write off bs view = Some (list_inserts off bs view).
Proof. intros H. unfold write. by case_decide. Qed.

Lemma list_inserts_app_prefix off bs pre suf :
  (off + length bs <= length pre)%nat ->
  list_inserts off bs (pre ++ suf) = list_inserts off bs pre ++ suf.
Proof.
  revert off. induction bs as [|b bs IH]; intros off Hle; simpl in *; [done|].
  rewrite IH by lia. apply insert_app_l. rewrite length_inserts. lia.
Qed.

(** Writing over a slice of the same length, in place. *)
Lemma write_slice pre old bs suf :
  length old = length bs ->
  write (length pre) bs (pre ++ old ++ suf) = Some (pre ++ bs ++ suf).
Proof.
  intros Hlen. rewrite write_ok by (rewrite !length_app; lia). f_equal.
  rewrite <- (Nat.add_0_r (length pre)).
  by rewrite list_inserts_app_r, list_inserts_0_r.
Qed.

Lemma writeString_spec off str view :
  (off + length str <= length view)%nat ->
  writeString off str view
  = Some (list_inserts off ((fun c => Z.of_N c mod 256) <$> str) view).
Proof.
  revert off view. induction str as [|c str IH]; intros off view Hle; [done|].
  simpl in Hle. cbn [writeString]. unfold setUint8.
  rewrite write_ok by (simpl; lia). cbn [mbind option_bind].
  rewrite IH by (rewrite length_inserts; lia).
  simpl. f_equal. symmetry. apply list_insert_inserts_lt. lia.
Qed.

Lemma writeSamples_spec data pre :
  writeSamples (length pre) data (pre ++ replicate (length data * 2) 0)
  = Some (pre ++ flat_map (fun x => le_bytes 2 (pcm16 x)) data).
Proof.
  revert pre. induction data as [|x data IH]; intros pre.
  - simpl. by rewrite app_nil_r.
  - cbn [writeSamples length flat_map]. unfold setInt16.
    change (S (length data) * 2)%nat with (2 + length data * 2)%nat.
    rewrite replicate_add.
    rewrite write_slice by (by rewrite length_le_bytes).
    cbn [mbind option_bind].
    fold (pcm16 x).
    replace (length pre + 2)%nat with (length (pre ++ le_bytes 2 (pcm16 x)))
      by (rewrite length_app, length_le_bytes; done).
    rewrite (app_assoc pre), IH. by rewrite <- !app_assoc.
Qed.

Lemma length_samples data :
  length (flat_map (fun x => le_bytes 2 (pcm16 x)) data) = (length data * 2)%nat.
Proof.
  induction data as [|x data IH]; [done|].
  cbn [flat_map]. rewrite length_app, length_le_bytes, IH. simpl. lia.
Qed.

Lemma lookup_samples data i x :
  data !! i = Some x ->
  flat_map (fun x => le_bytes 2 (pcm16 x)) data !! (2 * i)%nat
    = Some (pcm16 x mod 256) /\
  flat_map (fun x => le_bytes 2 (pcm16 x)) data !! (2 * i + 1)%nat
    = Some (pcm16 x / 256 mod 256).
Proof.
  revert i. induction data as [|y data IH]; intros i Hi; [done|].
  destruct i as [|i]; simpl in Hi.
  - injection Hi as ->. done.
  - replace (2 * S i)%nat with (S (S (2 * i))) by lia.
    replace (S (S (2 * i)) + 1)%nat with (S (S (2 * i + 1))) by lia.
    simpl flat_map. simpl le_bytes. simpl app.
    rewrite !lookup_cons. by apply IH.
Qed.

(** The closed form of the encoder: it never throws, and its result is the
    header followed by the samples, two bytes each. *)
Lemma audioBufferToWav_closed_form sampleRate data :
  audioBufferToWav sampleRate data
  = Some (header sampleRate (length data)
          ++ flat_map (fun x => le_bytes 2 (pcm16 x)) data).
Proof.
  unfold audioBufferToWav. cbv zeta.
  change (Z.to_nat (16 / 8)) with 2%nat. change (16 / 8) with 2.
  rewrite replicate_add.
  repeat first
    [ rewrite writeString_spec
        by (rewrite ?length_inserts, length_app, !length_replicate; simpl; lia)
    | unfold setUint32 at 1 | unfold setUint16 at 1
    | rewrite write_ok
        by (rewrite ?length_inserts, length_app, !length_replicate; simpl; lia)
    | progress cbn [mbind option_bind] ].
  rewrite !list_inserts_app_prefix
    by (rewrite ?length_inserts, length_replicate; simpl; lia).
  match goal with
  | |- writeSamples _ _ (?h ++ _) = _ =>
      assert (h = header sampleRate (length data)) as -> by reflexivity
  end.
  change 44%nat with (length (header sampleRate (length data))) at 1.
  apply writeSamples_spec.
Qed.

End DataViewFacts.

Section SampleFacts.

Import Wav.

Local Open Scope Q_scope.

Lemma Qltb_lt a b : Qltb a b = true <-> a < b.
Proof.
  unfold Qltb. rewrite negb_true_iff, <- not_true_iff_false, Qle_bool_iff.
  split; [apply Qnot_le_lt | apply Qlt_not_le].
Qed.

Lemma Qltb_ge a b : Qltb a b = false <-> b <= a.
Proof.
  unfold Qltb. rewrite negb_false_iff. apply Qle_bool_iff.
Qed.

Lemma clamp_finite q : clamp (Finite q) = Finite (clampQ q).
Proof.
  unfold clamp, clampQ, Math_min, Math_max, num_lt.
  change (inject_Z 1) with 1. change (inject_Z (-1)) with (-1).
  destruct (Qltb q 1); simpl; [by destruct (Qltb (-1) q)|done].
Qed.

Lemma clampQ_range q : -1 <= clampQ q <= 1.
Proof.
  unfold clampQ.
  destruct (Qltb q 1) eqn:H1; [apply Qltb_lt in H1|apply Qltb_ge in H1].
  - destruct (Qltb (-1) q) eqn:H2; [apply Qltb_lt in H2|apply Qltb_ge in H2];
      lra.
  - simpl. lra.
Qed.

Lemma clampQ_inside q : -1 < q -> q < 1 -> clampQ q = q.
Proof.
  intros H1 H2. unfold clampQ.
  apply Qltb_lt in H2. rewrite H2. apply Qltb_lt in H1. by rewrite H1.
Qed.

(** The clamp of anything but [NaN] is a number between -1 and 1. *)
Lemma clamp_cases x :
  match x with
  | Finite q => clamp x = Finite (clampQ q)
  | PosInf => clamp x = Finite 1
  | NegInf => clamp x = Finite (-1)
  | NaN => clamp x = NaN
  end.
Proof. destruct x; [apply clamp_finite|done..]. Qed.

Lemma pcmQ_range c : -1 <= c <= 1 -> (-32768 <= pcmQ c <= 32767)%Z.
Proof.
  intros [Hlo Hhi]. unfold pcmQ, trunc.
  change (inject_Z 32768) with (32768#1). change (inject_Z 32767) with (32767#1).
  destruct (Qltb c 0) eqn:Hneg; [apply Qltb_lt in Hneg|apply Qltb_ge in Hneg].
  - assert (Qltb (c * (32768#1)) 0 = true) as -> by (apply Qltb_lt; lra).
    pose proof (Qceiling_resp_le (inject_Z (-32768)) (c * (32768#1))) as H1.
    pose proof (Qceiling_resp_le (c * (32768#1)) (inject_Z 0)) as H2.
    rewrite Qceiling_Z in H1, H2.
    split; [apply H1|transitivity 0%Z; [apply H2|done]]; unfold inject_Z; lra.
  - assert (Qltb (c * (32767#1)) 0 = false) as -> by (apply Qltb_ge; lra).
    pose proof (Qfloor_resp_le (inject_Z 0) (c * (32767#1))) as H1.
    pose proof (Qfloor_resp_le (c * (32767#1)) (inject_Z 32767)) as H2.
    rewrite Qfloor_Z in H1, H2.
    split; [transitivity 0%Z; [done|apply H1]|apply H2]; unfold inject_Z; lra.
Qed.

Lemma wrap16_small t :
  (-32768 <= t <= 32767)%Z -> ((t + 32768) mod 65536 - 32768)%Z = t.
Proof. intros H. rewrite Z.mod_small; lia. Qed.

Lemma pcm16_of_clamp x c :
  clamp x = Finite c -> -1 <= c <= 1 -> pcm16 x = pcmQ c.
Proof.
  intros Hc Hr. unfold pcm16. rewrite Hc. unfold scale, num_lt.
  pose proof (pcmQ_range c Hr) as H. unfold pcmQ in *.
  destruct (Qltb c 0); simpl; by apply wrap16_small.
Qed.

Lemma pcm16_finite q : pcm16 (Finite q) = pcmQ (clampQ q).
Proof. apply pcm16_of_clamp; [apply clamp_finite | apply clampQ_range]. Qed.

Lemma pcm16_range x : (-32768 <= pcm16 x <= 32767)%Z.
Proof.
  unfold pcm16, ToInt16. destruct (scale (clamp x)); [|lia..].
  pose proof (Z.mod_pos_bound (trunc q + 32768) 65536). lia.
Qed.

End SampleFacts.

Section LayoutFacts.

Import Wav.

Lemma le2_value v :
  v mod 256 + 256 * (v / 256 mod 256) = v mod 65536.
Proof. change 65536 with (256 * 256). by rewrite Z.rem_mul_r by lia. Qed.

Lemma le4_value v :
  v mod 256 + 256 * (v / 256 mod 256) + 65536 * (v / 256 / 256 mod 256)
  + 16777216 * (v / 256 / 256 / 256 mod 256) = v mod 4294967296.
Proof.
  change 4294967296 with (256 * (256 * (256 * 256))).
  rewrite (Z.rem_mul_r v) by lia.
  rewrite (Z.rem_mul_r (v / 256)) by lia.
  rewrite (Z.rem_mul_r (v / 256 / 256)) by lia. lia.
Qed.

Lemma int16_read_back v :
  -32768 <= v <= 32767 ->
  (if v mod 65536 <? 32768 then v mod 65536 else v mod 65536 - 65536) = v.
Proof.
  intros H. destruct (Z.ltb_spec (v mod 65536) 32768) as [Hlt|Hge];
    Z.div_mod_to_equations; lia.
Qed.

Lemma header_length sampleRate n : length (header sampleRate n) = 44%nat.
Proof. done. Qed.

Lemma header_fields sampleRate n body :
  getUint32 4 (header sampleRate n ++ body)
    = Some ((Z.of_nat (44 + n * 2) - 8) mod 4294967296) /\
  getUint32 40 (header sampleRate n ++ body)
    = Some (Z.of_nat (n * 2) mod 4294967296).
Proof.
  unfold header.
  generalize (Z.of_nat (44 + n * 2) - 8) as total.
  generalize (Z.of_nat (n * 2)) as dataLength.
  intros dataLength total. unfold getUint32.
  cbn [app le_bytes lookup list_lookup Nat.add mbind option_bind].
  by rewrite !le4_value.
Qed.

Lemma sample_read_back sampleRate data i x :
  data !! i = Some x ->
  getInt16 (44 + 2 * i)
    (header sampleRate (length data)
     ++ flat_map (fun x => le_bytes 2 (pcm16 x)) data)
  = Some (pcm16 x).
Proof.
  intros Hi. unfold getInt16, getUint16.
  destruct (lookup_samples data i x Hi) as [H0 H1].
  rewrite !lookup_app_r by (rewrite header_length; lia).
  rewrite header_length.
  replace (44 + 2 * i - 44)%nat with (2 * i)%nat by lia.
  replace (44 + 2 * i + 1 - 44)%nat with (2 * i + 1)%nat by lia.
  rewrite H0, H1. cbn [mbind option_bind].
  rewrite le2_value. f_equal. apply int16_read_back, pcm16_range.
Qed.

End LayoutFacts.

(** C10, as stated, fails at the two ends of the input type. A size field
    of the header holds 32 bits: for 2147483630 samples the total size
    [36 + 2n] is [2^32] and the field at offset 4 records 0. And a sample
    that is not a number is not clamped into the interval ([Math.min] and
    [Math.max] give [NaN] back); it is stored as 0. *)
Lemma wav_header_wraps_and_nan_is_not_clamped :
  (exists out,
     Wav.audioBufferToWav 16000
       (replicate (Z.to_nat 2147483630) (Wav.Finite 0)) = Some out /\
     Wav.getUint32 4 out = Some 0 /\
     36 + 2 * Z.of_nat (length (replicate (Z.to_nat 2147483630) (Wav.Finite 0%Q)))
       = 4294967296) /\
  Wav.clamp Wav.NaN = Wav.NaN /\
  Wav.audioBufferToWav 16000 [Wav.NaN]
    = Some (Wav.header 16000 1 ++ [0; 0]).
Proof.
  split; [|split; reflexivity].
  eexists. split; [apply audioBufferToWav_closed_form|].
  rewrite (proj1 (header_fields _ _ _)).
  rewrite length_replicate.
  rewrite Nat2Z.inj_add, Nat2Z.inj_mul, Z2Nat.id by lia.
  split; reflexivity.
Qed.

(** C10, amended. For every sample rate and every channel of [n] samples,
    [audioBufferToWav] returns, without throwing, a buffer of exactly
    [44 + 2n] bytes. Its header records [(36 + 2n) mod 2^32] at offset 4 and
    [2n mod 2^32] at offset 40, which are [36 + 2n] and [2n] whenever
    [36 + 2n < 2^32]. The two bytes at offset [44 + 2i] hold, little-endian
    and in two's complement, the 16-bit integer of sample [i], which lies in
    [-32768, 32767]: for a sample that is a number, its clamp to [-1, 1]
    scaled by [0x8000] when negative and by [0x7fff] otherwise, cut toward
    zero; for [NaN], 0. *)
Theorem wav_layout (sampleRate : Z) (data : list Wav.Sample) :
  exists out,
    Wav.audioBufferToWav sampleRate data = Some out /\
    length out = (44 + 2 * length data)%nat /\
    Wav.getUint32 4 out
      = Some ((36 + 2 * Z.of_nat (length data)) mod 4294967296) /\
    Wav.getUint32 40 out
      = Some ((2 * Z.of_nat (length data)) mod 4294967296) /\
    (36 + 2 * Z.of_nat (length data) < 4294967296 ->
     Wav.getUint32 4 out = Some (36 + 2 * Z.of_nat (length data)) /\
     Wav.getUint32 40 out = Some (2 * Z.of_nat (length data))) /\
    (forall i x, data !! i = Some x ->
       Wav.getInt16 (44 + 2 * i) out = Some (Wav.pcm16 x) /\
       -32768 <= Wav.pcm16 x <= 32767 /\
       match x with
       | Wav.Finite q =>
           Wav.clamp x = Wav.Finite (Wav.clampQ q) /\
           (-1 <= Wav.clampQ q <= 1)%Q /\
           Wav.pcm16 x = Wav.pcmQ (Wav.clampQ q)
       | Wav.PosInf =>
           Wav.clamp x = Wav.Finite 1 /\ Wav.pcm16 x = 32767
       | Wav.NegInf =>
           Wav.clamp x = Wav.Finite (-1) /\ Wav.pcm16 x = -32768
       | Wav.NaN =>
           Wav.clamp x = Wav.NaN /\ Wav.pcm16 x = 0
       end).
Proof.
  eexists. split; [apply audioBufferToWav_closed_form|].
  destruct (header_fields sampleRate (length data)
              (flat_map (fun x => Wav.le_bytes 2 (Wav.pcm16 x)) data))
    as [H4 H40].
  assert (Z.of_nat (44 + length data * 2) - 8 = 36 + 2 * Z.of_nat (length data))
    as E4 by lia.
  assert (Z.of_nat (length data * 2) = 2 * Z.of_nat (length data)) as E40 by lia.
  rewrite E4 in H4. rewrite E40 in H40.
  split; [|split; [done|split; [done|split]]].
  - rewrite length_app, header_length, length_samples. lia.
  - intros Hfit. rewrite H4, H40.
    rewrite !Z.mod_small by lia. done.
  - intros i x Hi. split; [by apply sample_read_back|].
    split; [apply pcm16_range|].
    destruct x as [q| | |].
    + split; [apply clamp_finite|]. split; [apply clampQ_range|].
      apply pcm16_finite.
    + done.
    + done.
    + done.
Qed.

(** A concrete use of [wav_layout]: three samples at 16 kHz. *)
Lemma wav_layout_witness :
  exists out,
    Wav.audioBufferToWav 16000
      [Wav.Finite (1#2); Wav.Finite (-(3#2)); Wav.Finite (-(1#3))] = Some out /\
    Wav.getUint32 4 out = Some 42 /\
    Wav.getUint32 40 out = Some 6.
Proof.
  destruct (wav_layout 16000
              [Wav.Finite (1#2); Wav.Finite (-(3#2)); Wav.Finite (-(1#3))])
    as (out & Hout & _ & _ & _ & Hfit & _).
  exists out. split; [exact Hout|]. apply Hfit. simpl. lia.
Defined.

(* ===================================================================== *)
(** ** The context manager: compression at the threshold *)
(* ===================================================================== *)

Section CompressionFacts.

Import ContextManager.

Variable estimate : jsstring -> nat.
Variable summarize : option jsstring -> list Turn -> option jsstring.

Implicit Types (w : ContextWindow) (ts : list Turn).

Lemma estimatedTurns_app ts1 ts2 :
  estimatedTurns estimate (ts1 ++ ts2)
  = (estimatedTurns estimate ts1 + estimatedTurns estimate ts2)%nat.
Proof. apply sum_list_with_app. Qed.

(** In the scenario the threshold is met from 3277 tokens on. *)
Lemma overThreshold_scenario w :
  overThreshold estimate scenario w = true
  <-> (3277 <= estimatedTokens estimate w)%nat.
Proof.
  unfold overThreshold, scenario. cbn [maxTokens compressionThreshold fst snd].
  rewrite bool_decide_eq_true. lia.
Qed.

Lemma maybeCompress_below cfg w :
  overThreshold estimate cfg w = false ->
  maybeCompress estimate summarize cfg w = (w, false).
Proof. intros H. unfold maybeCompress. by rewrite H. Qed.

Lemma maybeCompress_nothing_to_fold cfg w :
  (length (turns w) <= K cfg)%nat ->
  maybeCompress estimate summarize cfg w = (w, false).
Proof.
  intros H. unfold maybeCompress.
  destruct (overThreshold estimate cfg w); [|done].
  replace (length (turns w) - K cfg)%nat with 0%nat by lia. done.
Qed.

Lemma maybeCompress_over cfg w :
  overThreshold estimate cfg w = true ->
  (K cfg < length (turns w))%nat ->
  maybeCompress estimate summarize cfg w
  = match summarize (contextSummary w)
            (take (length (turns w) - K cfg) (turns w)) with
    | Some s => ({| turns := drop (length (turns w) - K cfg) (turns w);
                    contextSummary := Some s |}, true)
    | None => (w, false)
    end.
Proof.
  intros Hover HK. unfold maybeCompress. rewrite Hover. cbv zeta.
  destruct (take (length (turns w) - K cfg) (turns w)) eqn:E; [|done].
  apply (f_equal length) in E. rewrite length_take in E. simpl in E. lia.
Qed.

End CompressionFacts.

(** C7, as stated, fails on the manager of the specification, in three
    ways. A window over the threshold with fewer than four turns (here one
    turn of 3277 tokens) is not reduced to a summary and four turns:
    nothing is folded. When the summary call fails the window is left as it
    is. And when the call succeeds, the estimate goes up if the summary is
    longer than what it replaces (here one turn of 1 token, folded into a
    summary of 100). *)
Lemma compression_not_always_summary_plus_four :
  (* fewer than four turns *)
  ContextManager.estimatedTokens ContextManager.one_per_char
    (ContextManager.window [3277%nat]) = 3277%nat /\
  ContextManager.maybeCompress ContextManager.one_per_char
    (ContextManager.answering 10) ContextManager.scenario
    (ContextManager.window [3277%nat])
  = (ContextManager.window [3277%nat], false) /\
  (* the summary call fails *)
  ContextManager.estimatedTokens ContextManager.one_per_char
    (ContextManager.window [1000; 1000; 1000; 1000; 1000]%nat) = 5000%nat /\
  ContextManager.maybeCompress ContextManager.one_per_char
    ContextManager.failing ContextManager.scenario
    (ContextManager.window [1000; 1000; 1000; 1000; 1000]%nat)
  = (ContextManager.window [1000; 1000; 1000; 1000; 1000]%nat, false) /\
  (* the summary is longer than the turn it replaces *)
  ContextManager.estimatedTokens ContextManager.one_per_char
    (ContextManager.window [1; 1000; 1000; 1000; 1000]%nat) = 4001%nat /\
  ContextManager.estimatedTokens ContextManager.one_per_char
    (ContextManager.maybeCompress ContextManager.one_per_char
       (ContextManager.answering 100) ContextManager.scenario
       (ContextManager.window [1; 1000; 1000; 1000; 1000]%nat)).1 = 4100%nat.
Proof. repeat split; vm_compute; reflexivity. Qed.

(** C7, amended. In the scenario (4096 tokens, threshold 0.8, four turns
    retained), for every window of more than four turns whose estimate is at
    least 3277: when the summary call succeeds, [maybeCompress()] returns
    [true] and leaves the new summary and exactly the four most recent
    turns, in their order; the estimate afterwards is at most the estimate
    before exactly when the new summary is estimated at no more than what it
    replaces (the previous summary and the folded turns). When the call
    fails the window is unchanged and the result is [false]. *)
Theorem maybeCompress_in_scenario
    (estimate : jsstring -> nat)
    (summarize : option jsstring -> list ContextManager.Turn -> option jsstring)
    (w : ContextManager.ContextWindow) :
  (3277 <= ContextManager.estimatedTokens estimate w)%nat ->
  (4 < length (ContextManager.turns w))%nat ->
  (forall s,
     summarize (ContextManager.contextSummary w)
       (take (length (ContextManager.turns w) - 4) (ContextManager.turns w))
     = Some s ->
     ContextManager.maybeCompress estimate summarize ContextManager.scenario w
     = ({| ContextManager.turns :=
             drop (length (ContextManager.turns w) - 4) (ContextManager.turns w);
           ContextManager.contextSummary := Some s |}, true) /\
     length (drop (length (ContextManager.turns w) - 4) (ContextManager.turns w))
       = 4%nat /\
     (exists folded, ContextManager.turns w
        = folded ++ drop (length (ContextManager.turns w) - 4)
                      (ContextManager.turns w)) /\
     ((ContextManager.estimatedTokens estimate
         (ContextManager.maybeCompress estimate summarize
            ContextManager.scenario w).1
       <= ContextManager.estimatedTokens estimate w)%nat
      <->
      (estimate s
       <= from_option estimate 0 (ContextManager.contextSummary w)
          + ContextManager.estimatedTurns estimate
              (take (length (ContextManager.turns w) - 4)
                 (ContextManager.turns w)))%nat)) /\
  (summarize (ContextManager.contextSummary w)
     (take (length (ContextManager.turns w) - 4) (ContextManager.turns w))
   = None ->
   ContextManager.maybeCompress estimate summarize ContextManager.scenario w
   = (w, false)).
Proof.
  intros Hover Hlen.
  apply overThreshold_scenario in Hover.
  pose proof (maybeCompress_over estimate summarize ContextManager.scenario w
                Hover Hlen) as Hmc.
  change (ContextManager.K ContextManager.scenario) with 4%nat in Hmc.
  split.
  - intros s Hs. rewrite Hs in Hmc. rewrite Hmc.
    split; [done|]. split; [rewrite length_drop; lia|].
    split; [eexists; symmetry; apply take_drop|].
    unfold ContextManager.estimatedTokens. cbn [fst ContextManager.turns
      ContextManager.contextSummary from_option].
    rewrite <- (take_drop (length (ContextManager.turns w) - 4)
                  (ContextManager.turns w)) at 3.
    rewrite estimatedTurns_app. lia.
  - intros Hs. by rewrite Hs in Hmc.
Qed.

(** A concrete use of [maybeCompress_in_scenario]: a fifth turn of 1000
    tokens is appended to four, and the call answers with a summary of
    100. *)
Lemma maybeCompress_in_scenario_witness :
  ContextManager.maybeCompress ContextManager.one_per_char
    (ContextManager.answering 100) ContextManager.scenario
    (ContextManager.append (ContextManager.user_turn 4 1000)
       (ContextManager.window [1000; 1000; 1000; 1000]%nat))
  = ({| ContextManager.turns :=
          drop 1 (ContextManager.turns
                    (ContextManager.window [1000; 1000; 1000; 1000; 1000]%nat));
        ContextManager.contextSummary := Some (replicate 100 115%N) |}, true).
Proof.
  refine (proj1 (proj1 (maybeCompress_in_scenario ContextManager.one_per_char
            (ContextManager.answering 100)
            (ContextManager.append (ContextManager.user_turn 4 1000)
               (ContextManager.window [1000; 1000; 1000; 1000]%nat)) _ _)
          (replicate 100 115%N) _)).
  - vm_compute. lia.
  - vm_compute. lia.
  - reflexivity.
Defined.

(* ===================================================================== *)
(** ** The conversation store: how the actions compose *)
(* ===================================================================== *)

Section StoreActionFacts.

Import StoreActions.

Implicit Types (st : ConversationState) (ms : list Message) (c : jsstring).

Lemma updateLast_updateLast c1 c2 ms :
  updateLast c2 (updateLast c1 ms) = updateLast c2 ms.
Proof.
  destruct ms as [|m ms _] using rev_ind; [done|].
  rewrite !updateLast_snoc.
  destruct (decide (role m = assistant)) as [Hr|Hr]; simpl.
  - by rewrite decide_True by done.
  - by rewrite decide_False by done.
Qed.

End StoreActionFacts.

(** X1. Successive [updateLastMessage] calls compose as the last one: the
    content written last wins, whatever was written before, and writing the
    same content twice is writing it once. After [addMessage] of an
    assistant message, [updateLastMessage] rewrites exactly that message;
    after [addMessage] of a message of another role it changes nothing. *)
Theorem updateLastMessage_last_write_wins
    (c1 c2 : jsstring) (m : Message) (st : ConversationState) :
  updateLastMessage c2 (updateLastMessage c1 st) = updateLastMessage c2 st /\
  updateLastMessage c1 (updateLastMessage c1 st) = updateLastMessage c1 st /\
  messages (updateLastMessage c1 (addMessage m st))
  = messages st
    ++ [if decide (role m = assistant) then with_content m c1 else m].
Proof.
  unfold updateLastMessage, addMessage; simpl.
  rewrite !updateLast_updateLast, updateLast_snoc. done.
Qed.

Section StoreListFacts.

Import StoreActions.

Implicit Types (st : ConversationState) (id : Z).

Lemma current_is_true id st :
  current_is id st = true
  <-> exists c, currentConversation st = Some c /\ conv_id c = id.
Proof.
  unfold current_is. destruct (currentConversation st) as [c|].
  - rewrite bool_decide_eq_true. split; [eauto|]. by intros (? & [= <-] & ?).
  - split; [done|]. by intros (? & ? & _).
Qed.

Lemma current_is_deleted id st : current_is id (deleteConversation id st) = false.
Proof.
  unfold deleteConversation, current_is at 1. simpl.
  destruct (current_is id st) eqn:E; [done|].
  unfold current_is in E. by destruct (currentConversation st).
Qed.

Lemma filter_filter_same {A} (P : A -> Prop) `{!forall x, Decision (P x)}
    (l : list A) :
  filter P (filter P l) = filter P l.
Proof.
  induction l as [|x l IH]; [done|].
  rewrite filter_cons. case_decide; [|done].
  rewrite filter_cons, decide_True by done. by rewrite IH.
Qed.

End StoreListFacts.

(** X2. Once the service has deleted conversation [id], the list is the old
    list without the entries of that identifier, the others in their order;
    the open conversation and its messages are dropped when the open
    conversation is the deleted one and are untouched otherwise; groups,
    search and selection are untouched; and deleting again changes
    nothing. *)
Theorem deleteConversation_effect (id : Z) (st : ConversationState) :
  (forall c, c ∈ conversations (StoreActions.deleteConversation id st)
             <-> (c ∈ conversations st /\ conv_id c <> id)) /\
  sublist (conversations (StoreActions.deleteConversation id st))
          (conversations st) /\
  (StoreActions.current_is id st = true ->
   currentConversation (StoreActions.deleteConversation id st) = None /\
   messages (StoreActions.deleteConversation id st) = []) /\
  (StoreActions.current_is id st = false ->
   currentConversation (StoreActions.deleteConversation id st)
     = currentConversation st /\
   messages (StoreActions.deleteConversation id st) = messages st) /\
  groups (StoreActions.deleteConversation id st) = groups st /\
  searchQuery (StoreActions.deleteConversation id st) = searchQuery st /\
  selectedGroupId (StoreActions.deleteConversation id st) = selectedGroupId st /\
  StoreActions.deleteConversation id (StoreActions.deleteConversation id st)
    = StoreActions.deleteConversation id st.
Proof.
  split; [|split; [|split; [|split; [|split; [|split; [|split]]]]]]; try done.
  - intros c. simpl. by rewrite list_elem_of_filter, (comm and).
  - apply sublist_filter.
  - intros H. unfold StoreActions.deleteConversation; simpl. by rewrite H.
  - intros H. unfold StoreActions.deleteConversation; simpl. by rewrite H.
  - pose proof (current_is_deleted id st) as H.
    unfold StoreActions.deleteConversation at 1.
    rewrite H. unfold StoreActions.deleteConversation; simpl.
    by rewrite filter_filter_same.
Qed.

(** A concrete use of [deleteConversation_effect]: the open conversation of
    the example store is deleted. *)
Lemma deleteConversation_effect_witness :
  currentConversation (StoreActions.deleteConversation 2 StoreActions.a_store)
    = None /\
  messages (StoreActions.deleteConversation 2 StoreActions.a_store) = [].
Proof.
  apply (proj1 (proj2 (proj2
           (deleteConversation_effect 2 StoreActions.a_store)))).
  reflexivity.
Defined.

Section SyncFacts.

Import StoreActions.

Implicit Types (st : ConversationState) (id : Z).

Lemma rewrite_conversation_in_sync id f st :
  (forall c, conv_id c = id -> conv_id (f c) = id) ->
  in_sync st -> in_sync (rewrite_conversation id f st).
Proof.
  intros Hid Hsync c c'. unfold rewrite_conversation; simpl.
  intros Hcur [c0 [-> Hc0]]%list_elem_of_fmap.
  destruct (current_is id st) eqn:Ecur.
  - apply current_is_true in Ecur as (cur & Hcurrent & Hcurid).
    rewrite Hcurrent in Hcur. simpl in Hcur. injection Hcur as <-.
    case_bool_decide as Hc0id.
    + intros _. f_equal. apply (Hsync cur c0); [done..|congruence].
    + rewrite Hid by done. congruence.
  - case_bool_decide as Hc0id.
    + rewrite Hid by done. intros Heq. exfalso.
      assert (current_is id st = true) as Habs; [|congruence].
      apply current_is_true. eauto.
    + intros Heq. by apply (Hsync c c0).
Qed.

Lemma deleteConversation_in_sync id st :
  in_sync st -> in_sync (deleteConversation id st).
Proof.
  intros Hsync c c'. unfold deleteConversation; simpl.
  intros Hcur [_ Hin]%list_elem_of_filter.
  destruct (current_is id st); [done|]. by apply Hsync.
Qed.

Lemma rewrite_conversation_others id f st c :
  conv_id c <> id ->
  (forall c0, conv_id c0 = id -> conv_id (f c0) = id) ->
  c ∈ conversations (rewrite_conversation id f st) <-> c ∈ conversations st.
Proof.
  intros Hc Hid. unfold rewrite_conversation; simpl.
  rewrite list_elem_of_fmap. split.
  - intros [c0 [-> Hin]]. case_bool_decide as H0; [|done].
    exfalso. apply Hc. by apply Hid.
  - intros Hin. exists c. by rewrite bool_decide_eq_false_2.
Qed.

End SyncFacts.

(** X3. When the open conversation agrees with the list (every entry of the
    list with its identifier is the open conversation itself), it still does
    after [summarizeConversation], after [deleteConversation], and after
    [updateConversation] when the service answers with the conversation that
    was asked for. These actions keep the length of the list (deletion
    apart) and leave every entry of another identifier in the list. *)
Theorem store_actions_keep_sync
    (id : Z) (updated : Conversation) (s : jsstring) (ts : list jsstring)
    (st : ConversationState) :
  StoreActions.in_sync st ->
  StoreActions.in_sync (StoreActions.summarizeConversation id s ts st) /\
  StoreActions.in_sync (StoreActions.deleteConversation id st) /\
  (conv_id updated = id ->
   StoreActions.in_sync (StoreActions.updateConversation id updated st) /\
   forall c, conv_id c <> id ->
     (c ∈ conversations (StoreActions.updateConversation id updated st)
      <-> c ∈ conversations st)) /\
  (forall c, conv_id c <> id ->
     (c ∈ conversations (StoreActions.summarizeConversation id s ts st)
      <-> c ∈ conversations st)) /\
  length (conversations (StoreActions.summarizeConversation id s ts st))
    = length (conversations st) /\
  length (conversations (StoreActions.updateConversation id updated st))
    = length (conversations st).
Proof.
  intros Hsync. split; [|split; [|split; [|split; [|split]]]].
  - by apply rewrite_conversation_in_sync.
  - by apply deleteConversation_in_sync.
  - intros Hid. split.
    + by apply rewrite_conversation_in_sync.
    + intros c Hc. by apply rewrite_conversation_others.
  - intros c Hc. by apply rewrite_conversation_others.
  - simpl. by rewrite length_fmap.
  - simpl. by rewrite length_fmap.
Qed.

(** A concrete use of [store_actions_keep_sync]: the open conversation of
    the example store gets a summary. *)
Lemma store_actions_keep_sync_witness :
  StoreActions.in_sync
    (StoreActions.summarizeConversation 2 (lit "greetings") [lit "chat"]
       StoreActions.a_store).
Proof.
  refine (proj1 (store_actions_keep_sync 2 (StoreActions.a_conversation 2 [])
                   (lit "greetings") [lit "chat"] StoreActions.a_store _)).
  intros c c' [= <-] Hin Hid. simpl in Hin.
  apply elem_of_cons in Hin as [->|Hin]; [discriminate Hid|].
  apply elem_of_cons in Hin as [->|Hin]; [done|].
  by apply elem_of_nil in Hin.
Defined.

Section GroupFacts.

Import StoreActions.

Implicit Types (st : ConversationState) (id : Z).

Lemma deleteGroup_selection id st :
  selectedGroupId (deleteGroup id st) <> Some id.
Proof.
  unfold deleteGroup; simpl. by case_bool_decide.
Qed.

Lemma deleteGroup_valid id st :
  selection_valid st -> selection_valid (deleteGroup id st).
Proof.
  intros Hvalid g. unfold deleteGroup; simpl.
  case_bool_decide as Hsel; [done|]. intros Hg.
  destruct (Hvalid g Hg) as (gr & Hin & Hgr). exists gr. split; [|done].
  apply list_elem_of_filter. split; [congruence|done].
Qed.

Lemma createGroup_valid g st :
  selection_valid st -> selection_valid (createGroup g st).
Proof.
  intros Hvalid id Hid. destruct (Hvalid id Hid) as (gr & Hin & Hgr).
  exists gr. split; [|done]. simpl. apply elem_of_app. by left.
Qed.

Lemma updateGroup_valid id updated st :
  group_id_of updated = id ->
  selection_valid st -> selection_valid (updateGroup id updated st).
Proof.
  intros Hup Hvalid g Hg. destruct (Hvalid g Hg) as (gr & Hin & Hgr).
  simpl. destruct (decide (group_id_of gr = id)) as [Heq|Hne].
  - exists updated. split; [|congruence].
    apply list_elem_of_fmap. exists gr. by rewrite bool_decide_eq_true_2.
  - exists gr. split; [|done].
    apply list_elem_of_fmap. exists gr. by rewrite bool_decide_eq_false_2.
Qed.

End GroupFacts.

(** X4. Deleting a group removes the entries of that identifier from the
    groups, the others in their order, and clears the selection exactly
    when the deleted group was the selected one, so the selection never
    names a group that was just deleted; the conversations are untouched.
    A selection that names a group of the list keeps doing so through
    [createGroup], [deleteGroup], and [updateGroup] when the service
    answers with the group that was asked for. *)
Theorem group_actions_keep_selection
    (id : Z) (g updated : ConversationGroup) (st : ConversationState) :
  (forall x, x ∈ groups (StoreActions.deleteGroup id st)
             <-> (x ∈ groups st /\ group_id_of x <> id)) /\
  sublist (groups (StoreActions.deleteGroup id st)) (groups st) /\
  selectedGroupId (StoreActions.deleteGroup id st) <> Some id /\
  (selectedGroupId st = Some id ->
   selectedGroupId (StoreActions.deleteGroup id st) = None) /\
  (selectedGroupId st <> Some id ->
   selectedGroupId (StoreActions.deleteGroup id st) = selectedGroupId st) /\
  (selectedGroupId (StoreActions.deleteGroup id st) = None <->
   (selectedGroupId st = Some id \/ selectedGroupId st = None)) /\
  conversations (StoreActions.deleteGroup id st) = conversations st /\
  (StoreActions.selection_valid st ->
   StoreActions.selection_valid (StoreActions.deleteGroup id st) /\
   StoreActions.selection_valid (StoreActions.createGroup g st) /\
   (group_id_of updated = id ->
    StoreActions.selection_valid (StoreActions.updateGroup id updated st))).
Proof.
  split; [|split; [|split; [|split; [|split; [|split; [|split]]]]]];
    try done.
  - intros x. simpl. by rewrite list_elem_of_filter, (comm and).
  - apply sublist_filter.
  - apply deleteGroup_selection.
  - intros H. simpl. by rewrite bool_decide_eq_true_2.
  - intros H. simpl. by rewrite bool_decide_eq_false_2.
  - simpl. case_bool_decide as Hsel; [by split; [left|]|].
    split; [by right|]. by intros [?|?].
  - intros Hvalid. split; [by apply deleteGroup_valid|].
    split; [by apply createGroup_valid|].
    intros Hid. by apply updateGroup_valid.
Qed.

(** A concrete use of [group_actions_keep_selection]: the selected group of
    the example store is deleted. *)
Lemma group_actions_keep_selection_witness :
  StoreActions.selection_valid
    (StoreActions.deleteGroup 10 StoreActions.a_store).
Proof.
  refine (proj1 (proj2 (proj2 (proj2 (proj2 (proj2 (proj2 (proj2
    (group_actions_keep_selection 10 (StoreActions.a_group 12 [])
       (StoreActions.a_group 10 []) StoreActions.a_store))))))) _)).
  intros id [= <-]. exists (StoreActions.a_group 10 (lit "work")).
  split; [|done]. simpl. apply elem_of_cons. by left.
Defined.

(* ===================================================================== *)
(** ** The page: what is received and what is sent *)
(* ===================================================================== *)

Section ReceivedFacts.

Import ChatView VoiceRecorder App Traffic.

Lemma sendMessage_store cl s : store (sendMessage cl s).1 = store s.
Proof.
  unfold sendMessage. destruct (wsRef s); [|done]. by destruct (_ || _).
Qed.

Lemma handleVoiceMessage_store cl t s :
  store (handleVoiceMessage cl t s).1 = store s.
Proof.
  unfold handleVoiceMessage. destruct (wsRef s); [|done].
  by destruct (seen_isStreaming cl).
Qed.

Lemma onstop_resume_store cl outcome r s :
  store (onstop_resume cl outcome r s).1.2 = store s.
Proof.
  unfold onstop_resume. destruct outcome as [| | | |text]; try done.
  destruct (text_and_trim text) as [[t|]|]; try done.
  pose proof (handleVoiceMessage_store cl t s) as H.
  destruct (handleVoiceMessage cl t s) as [s' es].
  by destruct (threw es).
Qed.

Lemma step_messages e a :
  messages (store (chat (step e a).1))
  = messages (store (chat a)) ++ received [e].
Proof.
  destruct e as [v| |data| | | | | |k granted|k size| |k size|k outcome];
    cbn [step]; unfold received; cbn [omap option_bind mbind];
    rewrite ?app_nil_r.
  - done.
  - pose proof (sendMessage_store (render (chat a)) (chat a)) as H.
    destruct (sendMessage (render (chat a)) (chat a)). simpl in *.
    by rewrite H.
  - destruct data; simpl; by rewrite ?app_nil_r.
  - by destruct (wsRef (chat a)) as [[]|].
  - by destruct (wsRef (chat a)).
  - by destruct (wsRef (chat a)) as [[]|].
  - by destruct (wsRef (chat a)) as [[]|].
  - by destruct (handleMouseDown _ _).
  - destruct (getUserMedia a !! k); [|done].
    by destruct (startRecording_resume granted (recorder a)).
  - by destruct (state <$> mediaRecorders a !! k) as [[]|].
  - by destruct (recordingStops (recorder a)).
  - destruct (mediaRecorders a !! k) as [m|]; [|done]. by destruct (state m).
  - destruct (requests a !! k) as [[cl n]|]; [|done].
    pose proof (onstop_resume_store cl outcome (recorder a) (chat a)) as H.
    destruct (onstop_resume cl outcome (recorder a) (chat a)) as [[r' s'] es].
    simpl in *. by rewrite H.
Qed.

Lemma received_cons e evs : received (e :: evs) = received [e] ++ received evs.
Proof. unfold received. simpl. by destruct (match e with Incoming _ => _ | _ => _ end). Qed.

End ReceivedFacts.

(** X5. Whatever happens on the page, the conversation's messages after a
    run of events are the messages before it followed by the messages the
    [user_message] and [assistant_complete] events of the run carried, in
    order of arrival: nothing received is dropped or reordered, and nothing
    the user does (typing, sending, recording) adds or removes a message by
    itself. *)
Theorem messages_are_what_was_received (evs : list App.Event) (a : App.App) :
  messages (ChatView.store (App.chat (App.after evs a)))
  = messages (ChatView.store (App.chat a)) ++ Traffic.received evs.
Proof.
  unfold App.after. revert a. induction evs as [|e evs IH]; intros a.
  - simpl. by rewrite app_nil_r.
  - rewrite received_cons. cbn [App.run].
    pose proof (step_messages e a) as Hstep.
    destruct (App.step e a) as [a1 out1]. specialize (IH a1).
    destruct (App.run evs a1) as [a2 out2]. cbn [fst] in *.
    rewrite IH, Hstep. by rewrite <- app_assoc.
Qed.

Section TrimFacts.

Import Traffic.

Implicit Types (s t : jsstring).

Lemma trimStart_clean s : starts_clean (trimStart s).
Proof.
  induction s as [|c s IH]; [done|]. simpl.
  destruct (isWhiteSpace c) eqn:Hc; [done|]. by simpl.
Qed.

Lemma trimStart_fixed s : starts_clean s -> trimStart s = s.
Proof. destruct s as [|c s]; [done|]. simpl. by intros ->. Qed.

Lemma trimStart_snoc l c :
  isWhiteSpace c = false -> exists l', trimStart (l ++ [c]) = l' ++ [c].
Proof.
  intros Hc. induction l as [|x l IH]; simpl.
  - rewrite Hc. by exists [].
  - destruct (isWhiteSpace x); [done|]. by exists (x :: l).
Qed.

(** [trim] leaves a string with clean ends, and leaves such a string as it
    is. *)
Lemma trim_clean_ends s : clean_ends (trim s).
Proof.
  unfold trim, trimEnd, clean_ends.
  pose proof (trimStart_clean s) as Hclean.
  destruct (trimStart s) as [|c t]; [done|]. simpl in Hclean.
  rewrite reverse_cons.
  destruct (trimStart_snoc (reverse t) c Hclean) as [l' Hl'].
  rewrite reverse_involutive.
  split; [|apply trimStart_clean].
  rewrite Hl', reverse_snoc. done.
Qed.

Lemma trim_fixed s : clean_ends s -> trim s = s.
Proof.
  intros [H1 H2]. unfold trim, trimEnd.
  rewrite (trimStart_fixed s H1), (trimStart_fixed _ H2).
  apply reverse_involutive.
Qed.

Lemma trim_idempotent s : trim (trim s) = trim s.
Proof. apply trim_fixed, trim_clean_ends. Qed.

End TrimFacts.

Section FrameFacts.

Import ChatView VoiceRecorder App Traffic.

Lemma trim_truthy_frame s :
  truthy (trim s) = true -> well_formed_frame (trim s).
Proof.
  intros H. split; [by apply truthy_nonempty|].
  split; [apply trim_clean_ends | apply trim_idempotent].
Qed.

Lemma frames_app out1 out2 : frames (out1 ++ out2) = frames out1 ++ frames out2.
Proof. apply omap_app. Qed.

Lemma frames_ws_send rs c : frames (ws_send rs c) = [] \/ frames (ws_send rs c) = [c].
Proof. destruct rs; simpl; auto. Qed.

Lemma sendMessage_frames cl s :
  Forall well_formed_frame (frames (sendMessage cl s).2).
Proof.
  unfold sendMessage. destruct (wsRef s) as [rs|]; [|constructor].
  destruct (truthy (trim (seen_inputValue cl))) eqn:Ht; simpl;
    [|constructor].
  destruct (seen_isStreaming cl); simpl; [constructor|].
  destruct (frames_ws_send rs (trim (seen_inputValue cl))) as [->| ->];
    [constructor|].
  constructor; [by apply trim_truthy_frame|constructor].
Qed.

Lemma handleVoiceMessage_frames cl t s :
  well_formed_frame t ->
  Forall well_formed_frame (frames (handleVoiceMessage cl t s).2).
Proof.
  intros Ht. unfold handleVoiceMessage.
  destruct (wsRef s) as [rs|]; [|constructor].
  destruct (seen_isStreaming cl); simpl; [constructor|].
  destruct (frames_ws_send rs t) as [->| ->]; [constructor|].
  constructor; [done|constructor].
Qed.

Lemma text_and_trim_frame text t :
  text_and_trim text = Some (Some t) -> well_formed_frame t.
Proof.
  destruct text as [| |[]|[]|s|]; simpl; try done.
  destruct (truthy s); simpl; [|done].
  destruct (truthy (trim s)) eqn:Hs; [|done].
  intros [= <-]. by apply trim_truthy_frame.
Qed.

Lemma onstop_resume_frames cl outcome r s :
  Forall well_formed_frame (frames (onstop_resume cl outcome r s).2).
Proof.
  unfold onstop_resume. destruct outcome as [| | | |text]; try by constructor.
  destruct (text_and_trim text) as [[t|]|] eqn:Ht; try by constructor.
  pose proof (handleVoiceMessage_frames cl t s
                (text_and_trim_frame _ _ Ht)) as H.
  destruct (handleVoiceMessage cl t s) as [s' es].
  destruct (threw es); simpl in *; [|done].
  rewrite frames_app. simpl. by rewrite app_nil_r.
Qed.

Lemma frames_only_logs es : only_logs es = true -> frames es = [].
Proof.
  induction es as [|e es IH]; [done|]. simpl.
  intros [He Hes]%andb_true_iff. rewrite (IH Hes). by destruct e.
Qed.

Lemma step_frames e a : Forall well_formed_frame (frames (step e a).2).
Proof.
  destruct (step_chat e a) as [es H|v|rs es H| |data|cl outcome r].
  - rewrite frames_only_logs by done. constructor.
  - constructor.
  - rewrite frames_only_logs by done. constructor.
  - apply sendMessage_frames.
  - destruct data; by constructor.
  - apply onstop_resume_frames.
Qed.

End FrameFacts.

(** X6. The page never puts an empty or padded message on the socket:
    whatever the state and whatever the events, every frame the text path
    or the voice path sends (or tries to send on a closing socket) has a
    content that is not empty, neither starts nor ends with white space, and
    is left as it is by [trim]. *)
Theorem frames_are_trimmed_and_not_empty
    (evs : list App.Event) (a : App.App) (c : jsstring) :
  c ∈ Traffic.frames (App.run evs a).2 ->
  c <> [] /\ Traffic.clean_ends c /\ trim c = c.
Proof.
  revert a. induction evs as [|e evs IH]; intros a; simpl.
  - by intros ?%elem_of_nil.
  - pose proof (step_frames e a) as Hstep.
    destruct (App.step e a) as [a1 out1]. specialize (IH a1).
    destruct (App.run evs a1) as [a2 out2]. simpl in *.
    rewrite frames_app. intros [Hin|Hin]%elem_of_app; [|by apply IH].
    rewrite Forall_forall in Hstep. by apply Hstep.
Qed.

(** A concrete use of [frames_are_trimmed_and_not_empty]: a padded text is
    typed and sent on the fresh page. *)
Lemma frames_are_trimmed_and_not_empty_witness :
  lit "hi there" <> [] /\ Traffic.clean_ends (lit "hi there")
  /\ trim (lit "hi there") = lit "hi there".
Proof.
  apply (frames_are_trimmed_and_not_empty
           [App.Typed (lit "  hi there "); App.SendPressed] App.fresh).
  vm_compute. apply elem_of_cons. by left.
Defined.

(** X7. While the streaming flag is set the text path is shut, whatever
    the user types: pressing send (or Enter) sends nothing and leaves the
    page as it is; the send button and the recorder are disabled, and a
    press on the microphone button, whatever the recorder's status, calls
    no [getUserMedia] and leaves the page as it is. *)
Theorem text_path_is_single_flight (a : App.App) (v : jsstring) :
  ChatView.isStreaming (App.chat a) = true ->
  App.step App.SendPressed (App.step (App.Typed v) a).1
    = ((App.step (App.Typed v) a).1, []) /\
  ChatView.sendDisabled (App.chat (App.step (App.Typed v) a).1) = true /\
  ChatView.recorderDisabled (App.chat a) = true /\
  App.step App.MouseDown a = (a, []).
Proof.
  intros Hbusy. split; [|split; [|split]].
  - simpl. unfold ChatView.sendMessage, ChatView.render. simpl.
    rewrite Hbusy, orb_true_r. by destruct (ChatView.wsRef (App.chat a)).
  - unfold ChatView.sendDisabled. simpl. by rewrite Hbusy, orb_true_r.
  - done.
  - cbn [App.step]. unfold VoiceRecorder.handleMouseDown.
    unfold ChatView.recorderDisabled. rewrite Hbusy.
    by destruct (VoiceRecorder.status (App.recorder a)).
Qed.

(** A concrete use of [text_path_is_single_flight]: a second text while the
    first turn is in flight. *)
Lemma text_path_is_single_flight_witness :
  App.step App.SendPressed
    (App.step (App.Typed (lit "again"))
       (App.after [App.Typed (lit "hi"); App.SendPressed] App.fresh)).1
  = ((App.step (App.Typed (lit "again"))
        (App.after [App.Typed (lit "hi"); App.SendPressed] App.fresh)).1, []).
Proof.
  apply (text_path_is_single_flight
           (App.after [App.Typed (lit "hi"); App.SendPressed] App.fresh)
           (lit "again")).
  reflexivity.
Defined.

Section ClosureFacts.

Import ChatView VoiceRecorder App Traffic.

Lemma sendMessage_wsRef cl s : wsRef (sendMessage cl s).1 = wsRef s.
Proof.
  unfold sendMessage. destruct (wsRef s) eqn:E; [|done].
  by destruct (_ || _).
Qed.

Lemma handleVoiceMessage_wsRef cl t s :
  wsRef (handleVoiceMessage cl t s).1 = wsRef s.
Proof.
  unfold handleVoiceMessage. destruct (wsRef s) eqn:E; [|done].
  by destruct (seen_isStreaming cl).
Qed.

Lemma onstop_resume_wsRef cl outcome r s :
  wsRef (onstop_resume cl outcome r s).1.2 = wsRef s.
Proof.
  unfold onstop_resume. destruct outcome as [| | | |text]; try done.
  destruct (text_and_trim text) as [[t|]|]; try done.
  pose proof (handleVoiceMessage_wsRef cl t s) as H.
  destruct (handleVoiceMessage cl t s) as [s' es].
  by destruct (threw es).
Qed.

(** The page never lets go of its socket. *)
Lemma step_socket_kept e a :
  is_Some (wsRef (chat a)) -> is_Some (wsRef (chat (step e a).1)).
Proof.
  destruct (step_chat e a) as [es H|v|rs es H| |data|cl outcome r];
    try done.
  - simpl. by intros [? ->].
  - by rewrite sendMessage_wsRef.
  - by destruct data.
  - by rewrite onstop_resume_wsRef.
Qed.

Lemma handleMouseDown_enabled disabled r r' :
  handleMouseDown disabled r = Some r' ->
  disabled = false /\ status r = idle /\ r' = startRecording_begin r.
Proof.
  unfold handleMouseDown. destruct (status r); try done.
  destruct disabled; [done|]. by intros [= <-].
Qed.

Lemma step_closure_clear e a : closure_clear a -> closure_clear (step e a).1.
Proof.
  unfold closure_clear. intros (Hg & Hm & Hr).
  destruct e as [v| |data| | | | | |k granted|k size| |k size|k outcome];
    cbn [step].
  - done.
  - by destruct (sendMessage (render (chat a)) (chat a)).
  - by destruct (handleWSMessage data (chat a)).
  - by destruct (wsRef (chat a)) as [[]|].
  - by destruct (wsRef (chat a)).
  - by destruct (wsRef (chat a)) as [[]|].
  - by destruct (wsRef (chat a)) as [[]|].
  - destruct (handleMouseDown _ _) as [r'|] eqn:E; [|done].
    apply handleMouseDown_enabled in E as (Hd & _ & _).
    cbn. split; [|done]. apply Forall_app. split; [done|].
    constructor; [|done]. exact Hd.
  - destruct (getUserMedia a !! k) as [cl|] eqn:E; [|done].
    assert (seen_isStreaming cl = false) as Hcl.
    { by apply (Forall_lookup_1 _ _ _ _ Hg E). }
    destruct (startRecording_resume granted (recorder a)) as [r' es].
    cbn. split; [by apply Forall_delete|]. split; [|done].
    destruct granted; [|done]. apply Forall_app. split; [done|].
    by constructor.
  - by destruct (state <$> mediaRecorders a !! k) as [[]|].
  - destruct (recordingStops (recorder a)); [|done]. cbn.
    split; [done|]. split; [|done].
    unfold stop_current. destruct (mediaRecorders a) as [|m ms] eqn:E; [done|].
    apply Forall_alter; [done|].
    intros x _ Hx. unfold stop. by destruct (state x).
  - destruct (mediaRecorders a !! k) as [m|] eqn:E; [|done].
    assert (seen_isStreaming (onTranscription m) = false) as Hcl.
    { by apply (Forall_lookup_1 _ _ _ _ Hm E). }
    destruct (state m); try done; cbn;
      (split; [done|]; split; [by apply Forall_insert|]);
      destruct (chunks _); try done;
      (apply Forall_app; split; [done|]; by constructor).
  - destruct (requests a !! k) as [[cl n]|] eqn:E; [|done].
    destruct (onstop_resume cl outcome (recorder a) (chat a)) as [[r' s'] es].
    cbn. split; [done|]. split; [done|]. by apply Forall_delete.
Qed.

Lemma after_invariants evs a :
  closure_clear a -> is_Some (wsRef (chat a)) ->
  closure_clear (after evs a) /\ is_Some (wsRef (chat (after evs a))).
Proof.
  unfold after. revert a. induction evs as [|e evs IH]; intros a Hc Hs; [done|].
  simpl. pose proof (step_closure_clear e a Hc) as H1.
  pose proof (step_socket_kept e a Hs) as H2.
  destruct (step e a) as [a1 out1]. destruct (IH a1 H1 H2) as [H3 H4].
  by destruct (run evs a1) as [a2 out2].
Qed.

End ClosureFacts.

(** X8. On a page mounted with a token, the voice path is never refused,
    whatever happened before (presses, answers of the microphone in any
    order, recordings, texts sent, messages received, the socket opening or
    closing): every callback held for the recorder comes from a render with
    the flag clear, because a press only calls [getUserMedia] while the
    recorder is enabled. So when a transcription request that is under way
    answers with a text that has a character that is not white space, the
    guard of [handleVoiceMessage] lets it pass, whether or not a turn is in
    flight: the streaming content is emptied, the flag set, and the trimmed
    text given to the socket, which sends it exactly when it is open. *)
Theorem voice_path_is_never_refused
    (evs : list App.Event) (k : nat) (cl : ChatView.Closure) (n : N)
    (t : jsstring) :
  App.requests (App.after evs App.mounted) !! k = Some (cl, n) ->
  blank t = false ->
  Traffic.closure_clear (App.after evs App.mounted) /\
  ChatView.seen_isStreaming cl = false /\
  (exists rs,
     ChatView.wsRef (App.chat (App.after evs App.mounted)) = Some rs /\
     ChatView.sent
       (App.step
          (App.SttDone k (VoiceRecorder.Json (VoiceRecorder.JString t)))
          (App.after evs App.mounted)).2
     = ChatView.sent (ChatView.ws_send rs (trim t)) /\
     (rs = ChatView.OPEN ->
      ChatView.sent
        (App.step
           (App.SttDone k (VoiceRecorder.Json (VoiceRecorder.JString t)))
           (App.after evs App.mounted)).2 = [trim t]) /\
     (rs <> ChatView.OPEN ->
      ChatView.sent
        (App.step
           (App.SttDone k (VoiceRecorder.Json (VoiceRecorder.JString t)))
           (App.after evs App.mounted)).2 = [])) /\
  App.submitted
    (App.step (App.SttDone k (VoiceRecorder.Json (VoiceRecorder.JString t)))
       (App.after evs App.mounted)).2 = true /\
  ChatView.streamingContent
    (App.chat
       (App.step
          (App.SttDone k (VoiceRecorder.Json (VoiceRecorder.JString t)))
          (App.after evs App.mounted)).1) = [] /\
  ChatView.isStreaming
    (App.chat
       (App.step
          (App.SttDone k (VoiceRecorder.Json (VoiceRecorder.JString t)))
          (App.after evs App.mounted)).1) = true.
Proof.
  intros Hk Ht.
  destruct (after_invariants evs App.mounted) as [Hc [rs Hws]];
    [by repeat split|by eexists|].
  assert (ChatView.seen_isStreaming cl = false) as Hcl.
  { destruct Hc as (_ & _ & Hr).
    by apply (Forall_lookup_1 _ _ _ _ Hr Hk). }
  assert (truthy t && truthy (trim t) = true) as Htt.
  { pose proof (trim_not_blank t Ht) as Hne.
    destruct t as [|c t]; [done|]. simpl. by destruct (trim (c :: t)). }
  destruct (transcription_ignores_current_flag _ k cl n rs t Hk Hcl Hws Htt)
    as (Hsent & Hsub & Hcont & Hflag).
  split; [done|]. split; [done|]. split; [|done].
  exists rs. split; [done|]. rewrite Hsent.
  split; [done|]. split; [by intros ->|]. by destruct rs.
Qed.

(** A concrete use of [voice_path_is_never_refused]: the socket opens, a
    message is recorded, and its transcription comes back after a text was
    sent. *)
Lemma voice_path_is_never_refused_witness :
  App.submitted
    (App.step
       (App.SttDone 0 (VoiceRecorder.Json (VoiceRecorder.JString (lit " ok "))))
       (App.after
          [App.SocketOpened; App.MouseDown; App.UserMedia 0 true;
           App.DataAvailable 0 320; App.MouseUp; App.Stopped 0 0;
           App.Typed (lit "hi"); App.SendPressed] App.mounted)).2
  = true.
Proof.
  refine (proj1 (proj2 (proj2 (proj2 (voice_path_is_never_refused
    [App.SocketOpened; App.MouseDown; App.UserMedia 0 true;
     App.DataAvailable 0 320; App.MouseUp; App.Stopped 0 0;
     App.Typed (lit "hi"); App.SendPressed] 0
    (ChatView.render (App.chat App.fresh)) 320 (lit " ok ") _ _))))).
  - reflexivity.
  - reflexivity.
Defined.

(** X9. A submission on a socket that is not open is lost but still starts
    the turn on the page. With a non-blank input, the flag clear and the
    socket connecting, closing or closed, [sendMessage] puts no frame on the
    socket, yet clears the input and sets the flag, so the thinking
    indicator shows and the next [sendMessage] is refused; the same holds for
    the voice callback of the current render. *)
Theorem submission_on_unopened_socket
    (s : ChatView.State) (rs : ChatView.ReadyState) (t : jsstring) :
  ChatView.wsRef s = Some rs ->
  rs <> ChatView.OPEN ->
  ChatView.isStreaming s = false ->
  truthy (trim (ChatView.inputValue s)) = true ->
  ChatView.sent (ChatView.sendMessage (ChatView.render s) s).2 = [] /\
  ChatView.inputValue (ChatView.sendMessage (ChatView.render s) s).1 = [] /\
  ChatView.isStreaming (ChatView.sendMessage (ChatView.render s) s).1 = true /\
  ChatView.showsThinking (ChatView.sendMessage (ChatView.render s) s).1 = true /\
  ChatView.sendMessage
    (ChatView.render (ChatView.sendMessage (ChatView.render s) s).1)
    (ChatView.sendMessage (ChatView.render s) s).1
  = ((ChatView.sendMessage (ChatView.render s) s).1, []) /\
  ChatView.sent (ChatView.handleVoiceMessage (ChatView.render s) t s).2 = [] /\
  ChatView.showsThinking
    (ChatView.handleVoiceMessage (ChatView.render s) t s).1 = true.
Proof.
  intros Hws Hrs Hidle Hinput.
  assert (ChatView.sendMessage (ChatView.render s) s
          = (ChatView.setStreamingContent (fun _ => [])
               (ChatView.setIsStreaming true (ChatView.setInputValue [] s)),
             ChatView.ws_send rs (trim (ChatView.inputValue s)))) as ->.
  { unfold ChatView.sendMessage, ChatView.render.
    cbn [ChatView.seen_inputValue ChatView.seen_isStreaming].
    by rewrite Hws, Hidle, Hinput. }
  assert (ChatView.handleVoiceMessage (ChatView.render s) t s
          = (ChatView.setStreamingContent (fun _ => [])
               (ChatView.setIsStreaming true s),
             ChatView.ws_send rs t)) as ->.
  { unfold ChatView.handleVoiceMessage, ChatView.render.
    cbn [ChatView.seen_isStreaming]. by rewrite Hws, Hidle. }
  cbn [fst snd].
  repeat split; try (by destruct rs).
  by apply sendMessage_busy.
Qed.

(** A concrete use of [submission_on_unopened_socket]: a text is sent while
    the socket is still connecting. *)
Lemma submission_on_unopened_socket_witness :
  ChatView.sent
    (ChatView.sendMessage
       (ChatView.render
          {| ChatView.inputValue := lit "hi"; ChatView.isStreaming := false;
             ChatView.streamingContent := [];
             ChatView.wsRef := Some ChatView.CONNECTING;
             ChatView.store := App.two_messages |})
       {| ChatView.inputValue := lit "hi"; ChatView.isStreaming := false;
          ChatView.streamingContent := [];
          ChatView.wsRef := Some ChatView.CONNECTING;
          ChatView.store := App.two_messages |}).2
  = [].
Proof.
  refine (proj1 (submission_on_unopened_socket _ ChatView.CONNECTING [] _ _ _ _));
    [reflexivity|discriminate|reflexivity|reflexivity].
Defined.

(* ===================================================================== *)
(** ** The recorder: outcomes and states *)
(* ===================================================================== *)

Section RecorderOutcomeFacts.

Import ChatView VoiceRecorder App RecorderStates.

Lemma onstop_resume_idle cl outcome r s :
  status (onstop_resume cl outcome r s).1.1 = idle.
Proof.
  unfold onstop_resume. destruct outcome as [| | | |text]; try done.
  destruct (text_and_trim text) as [[t|]|]; try done.
  destruct (handleVoiceMessage cl t s) as [s' es].
  by destruct (threw es).
Qed.

Lemma onstop_resume_chunks cl outcome r s :
  chunks (onstop_resume cl outcome r s).1.1 = chunks r.
Proof.
  unfold onstop_resume. destruct outcome as [| | | |text]; try done.
  destruct (text_and_trim text) as [[t|]|]; try done.
  destruct (handleVoiceMessage cl t s) as [s' es].
  by destruct (threw es).
Qed.

Lemma onstop_idle cl outcome r s : status (onstop cl outcome r s).1.1 = idle.
Proof.
  unfold onstop. destruct (status (onstop_begin r)) eqn:E; try done.
  - unfold onstop_begin in *. by destruct (chunks r).
  - apply onstop_resume_idle.
Qed.

Lemma text_and_trim_speech text t :
  text_and_trim text = Some (Some t) ->
  exists s, text = JString s /\ blank s = false /\ t = trim s.
Proof.
  destruct text as [| |[]|[]|s|]; simpl; try done.
  destruct (truthy s) eqn:Hs; simpl; [|done].
  destruct (truthy (trim s)) eqn:Ht; [|done].
  intros [= <-]. exists s. split; [done|]. split; [|done].
  destruct (blank s) eqn:Hb; [|done].
  by rewrite (trim_blank s Hb) in Ht.
Qed.

End RecorderOutcomeFacts.

(** X11. A recording submits a turn only when it has audio and the server
    answered with a string that has a character that is not white space:
    in every other case the chat state is the same state and nothing is put
    on the socket. When the request fails (a step of it rejects, or the
    answer's [text] is a truthy value that is not a string), the error
    ['语音识别失败'] is reported and logged. *)
Theorem recording_submits_only_speech
    (cl : ChatView.Closure) (outcome : VoiceRecorder.SttOutcome)
    (r : VoiceRecorder.Recorder) (s : ChatView.State) :
  ((VoiceRecorder.onstop cl outcome r s).1.2 <> s \/
   App.submitted (VoiceRecorder.onstop cl outcome r s).2 = true ->
   VoiceRecorder.chunks r <> [] /\
   exists t, outcome = VoiceRecorder.Json (VoiceRecorder.JString t) /\
             blank t = false) /\
  (VoiceRecorder.chunks r <> [] -> RecorderStates.fails outcome = true ->
   VoiceRecorder.onstop cl outcome r s
   = (VoiceRecorder.setStatus VoiceRecorder.idle
        (VoiceRecorder.setError (Some VoiceRecorder.err_stt_failed) r),
      s, [ChatView.ConsoleError "STT error:" None])).
Proof.
  split.
  - unfold VoiceRecorder.onstop, VoiceRecorder.onstop_begin.
    destruct (VoiceRecorder.chunks r) as [|n ns] eqn:Hch.
    { simpl. intros [H|H]; done. }
    cbn [VoiceRecorder.status VoiceRecorder.setStatus].
    intros H. split; [done|].
    unfold VoiceRecorder.onstop_resume in H.
    destruct outcome as [| | | |text]; try (destruct H; done).
    destruct (VoiceRecorder.text_and_trim text) as [[t|]|] eqn:Ht;
      try (destruct H; done).
    destruct (text_and_trim_speech text t Ht) as (u & -> & Hu & _). eauto.
  - intros Hch Hf.
    unfold VoiceRecorder.onstop, VoiceRecorder.onstop_begin.
    destruct (VoiceRecorder.chunks r) as [|n ns] eqn:E; [done|].
    cbn [VoiceRecorder.status VoiceRecorder.setStatus].
    unfold VoiceRecorder.onstop_resume, RecorderStates.fails in *.
    destruct outcome as [| | | |text]; try done.
    by destruct (VoiceRecorder.text_and_trim text) as [[t|]|].
Qed.

(** A concrete use of [recording_submits_only_speech]: the server answers
    with a number where the text should be. *)
Lemma recording_submits_only_speech_witness :
  VoiceRecorder.onstop (ChatView.render (App.chat App.fresh))
    (VoiceRecorder.Json (VoiceRecorder.JNumber 42))
    (App.recorder
       (App.after [App.MouseDown; App.UserMedia 0 true;
                   App.DataAvailable 0 1600] App.fresh))
    (App.chat App.fresh)
  = (VoiceRecorder.setStatus VoiceRecorder.idle
       (VoiceRecorder.setError (Some VoiceRecorder.err_stt_failed)
          (App.recorder
             (App.after [App.MouseDown; App.UserMedia 0 true;
                         App.DataAvailable 0 1600] App.fresh))),
     App.chat App.fresh, [ChatView.ConsoleError "STT error:" None]).
Proof.
  apply (proj2 (recording_submits_only_speech _ _ _ _)).
  - vm_compute. discriminate.
  - reflexivity.
Defined.

Section RecorderStateFacts.

Import ChatView VoiceRecorder App RecorderStates.

Lemma ondataavailable_status size r : status (ondataavailable size r) = status r.
Proof. unfold ondataavailable. by destruct (0 <? size)%N. Qed.

Lemma ondataavailable_positive size r :
  Forall (fun n => (0 < n)%N) (chunks r) ->
  Forall (fun n => (0 < n)%N) (chunks (ondataavailable size r)).
Proof.
  intros H. unfold ondataavailable. destruct (0 <? size)%N eqn:Hs; [|done].
  simpl. apply Forall_app. split; [done|]. constructor; [|done].
  by apply N.ltb_lt.
Qed.

Lemma ondataavailable_grows size r :
  chunks r <> [] -> chunks (ondataavailable size r) <> [].
Proof.
  intros H. unfold ondataavailable. destruct (0 <? size)%N; [|done].
  simpl. by destruct (chunks r).
Qed.

Lemma audioBlob_pos r :
  Forall (fun n => (0 < n)%N) (chunks r) -> chunks r <> [] ->
  (0 < audioBlob r)%N.
Proof.
  unfold audioBlob. destruct (chunks r) as [|n ns]; [done|].
  intros Hpos _. apply Forall_cons in Hpos as [Hn _]. simpl. lia.
Qed.

Lemma step_has_audio e a :
  has_audio (recorder a) /\ requests_have_audio a ->
  has_audio (recorder (step e a).1) /\ requests_have_audio (step e a).1.
Proof.
  intros [Ha Hq]. pose proof Ha as [Hpos Hproc].
  destruct e as [v| |data| | | | | |k granted|k size| |k size|k outcome];
    cbn [step].
  - done.
  - by destruct (sendMessage (render (chat a)) (chat a)).
  - by destruct (handleWSMessage data (chat a)).
  - by destruct (wsRef (chat a)) as [[]|].
  - by destruct (wsRef (chat a)).
  - by destruct (wsRef (chat a)) as [[]|].
  - by destruct (wsRef (chat a)) as [[]|].
  - destruct (handleMouseDown _ _) as [r'|] eqn:E; [|done].
    apply handleMouseDown_enabled in E as (_ & Hidle & ->).
    split; [|done]. split; cbn; [done|]. by rewrite Hidle.
  - destruct (getUserMedia a !! k) as [cl|]; [|done].
    unfold startRecording_resume.
    destruct granted; (split; [|done]); split; done.
  - assert (has_audio (ondataavailable size (recorder a))) as H.
    { split.
      - by apply ondataavailable_positive.
      - rewrite ondataavailable_status. intros Hs.
        by apply ondataavailable_grows, Hproc. }
    by destruct (state <$> mediaRecorders a !! k) as [[]|].
  - by destruct (recordingStops (recorder a)).
  - destruct (mediaRecorders a !! k) as [m|]; [|done].
    pose proof (ondataavailable_positive size (recorder a) Hpos) as Hpos'.
    assert (has_audio (onstop_begin (ondataavailable size (recorder a)))
            /\ requests_have_audio
                 (set_requests
                    (match chunks (ondataavailable size (recorder a)) with
                     | [] => requests a
                     | _ :: _ =>
                         requests a
                         ++ [(onTranscription m,
                              audioBlob (ondataavailable size (recorder a)))]
                     end) a)) as [H1 H2].
    { unfold onstop_begin, requests_have_audio.
      pose proof (audioBlob_pos (ondataavailable size (recorder a)) Hpos')
        as Hblob.
      destruct (chunks (ondataavailable size (recorder a))) as [|c cs] eqn:E.
      - split; [|done]. split; cbn; [by rewrite E|done].
      - split.
        + split; cbn; [by rewrite E|by rewrite E].
        + cbn. apply Forall_app. split; [done|].
          constructor; [|done]. by apply Hblob. }
    by destruct (state m).
  - destruct (requests a !! k) as [[cl n]|]; [|done].
    pose proof (onstop_resume_idle cl outcome (recorder a) (chat a)) as Hidle.
    pose proof (onstop_resume_chunks cl outcome (recorder a) (chat a)) as Hch.
    destruct (onstop_resume cl outcome (recorder a) (chat a)) as [[r' s'] es].
    cbn in *. split.
    + split; [by rewrite Hch|by rewrite Hidle].
    + by apply Forall_delete.
Qed.

Lemma after_has_audio evs a :
  has_audio (recorder a) /\ requests_have_audio a ->
  has_audio (recorder (after evs a)) /\ requests_have_audio (after evs a).
Proof.
  unfold after. revert a. induction evs as [|e evs IH]; intros a Ha; [done|].
  cbn [run]. pose proof (step_has_audio e a Ha) as H1.
  destruct (step e a) as [a1 out1]. specialize (IH a1 H1).
  by destruct (run evs a1) as [a2 out2].
Qed.

Lemma last_alter_stop m ms :
  last (alter stop (pred (length (m :: ms))) (m :: ms))
  = stop <$> last (m :: ms).
Proof.
  rewrite !last_lookup, length_alter.
  by rewrite list_lookup_alter, decide_True.
Qed.

Lemma stop_not_inactive m : state m <> MrInactive -> state (stop m) <> MrInactive.
Proof. unfold stop. by destruct m as [[] cl]. Qed.

Lemma step_backed e a : backed a -> backed (step e a).1.
Proof.
  unfold backed. intros [Hrec Hproc].
  destruct e as [v| |data| | | | | |k granted|k size| |k size|k outcome];
    cbn [step].
  - done.
  - by destruct (sendMessage (render (chat a)) (chat a)).
  - by destruct (handleWSMessage data (chat a)).
  - by destruct (wsRef (chat a)) as [[]|].
  - by destruct (wsRef (chat a)).
  - by destruct (wsRef (chat a)) as [[]|].
  - by destruct (wsRef (chat a)) as [[]|].
  - destruct (handleMouseDown _ _) as [r'|] eqn:E; [|done].
    apply handleMouseDown_enabled in E as (_ & Hidle & ->).
    cbn. rewrite Hidle. by split.
  - destruct (getUserMedia a !! k) as [cl|]; [|done].
    unfold startRecording_resume. destruct granted; cbn; [|by split].
    split; [|done]. intros _. eexists. by rewrite last_snoc.
  - destruct (state <$> mediaRecorders a !! k) as [[]|]; try done;
      cbn; by rewrite ondataavailable_status.
  - destruct (recordingStops (recorder a)) eqn:E; [|done]. cbn.
    split; [|done]. intros Hs. destruct (Hrec Hs) as (m & Hm & Hst).
    unfold stop_current. destruct (mediaRecorders a) as [|m0 ms]; [done|].
    rewrite last_alter_stop, Hm. exists (stop m).
    split; [done|]. by apply stop_not_inactive.
  - destruct (mediaRecorders a !! k) as [m|]; [|done].
    assert (forall ms,
              backed
                (set_requests
                   (match chunks (ondataavailable size (recorder a)) with
                    | [] => requests a
                    | _ :: _ =>
                        requests a
                        ++ [(onTranscription m,
                             audioBlob (ondataavailable size (recorder a)))]
                    end)
                   (set_mediaRecorders ms
                      (set_recorder
                         (onstop_begin (ondataavailable size (recorder a)))
                         a)))) as H.
    { intros ms. unfold backed, onstop_begin. cbn.
      destruct (chunks (ondataavailable size (recorder a))); cbn.
      - by split.
      - split; [done|]. intros _. by destruct (requests a). }
    destruct (state m); [apply H|apply H|by split].
  - destruct (requests a !! k) as [[cl n]|]; [|done].
    pose proof (onstop_resume_idle cl outcome (recorder a) (chat a)) as Hidle.
    destruct (onstop_resume cl outcome (recorder a) (chat a)) as [[r' s'] es].
    cbn in *. rewrite Hidle. by split.
Qed.

Lemma after_backed evs a : backed a -> backed (after evs a).
Proof.
  unfold after. revert a. induction evs as [|e evs IH]; intros a Ha; [done|].
  cbn [run]. pose proof (step_backed e a Ha) as H1.
  destruct (step e a) as [a1 out1]. specialize (IH a1 H1).
  by destruct (run evs a1) as [a2 out2].
Qed.

End RecorderStateFacts.

(** X10. The [onstop] handler always brings the recorder back to idle:
    with or without chunks, whatever way the transcription request ends,
    and also when the callback throws. On the page, whatever happened while
    the request was under way, when a request ends the status is idle and
    the request is no longer pending; an answer for a request that is not
    pending changes nothing. So on a page mounted with a token the recorder
    is never left in the processing state by the end of a request: if the
    status is processing after an answer, the answer was for no pending
    request and a request is still under way. *)
Theorem recorder_always_returns_to_idle
    (cl : ChatView.Closure) (outcome : VoiceRecorder.SttOutcome)
    (r : VoiceRecorder.Recorder) (s : ChatView.State) (a : App.App)
    (k : nat) (evs : list App.Event) :
  VoiceRecorder.status (VoiceRecorder.onstop cl outcome r s).1.1
    = VoiceRecorder.idle /\
  (is_Some (App.requests a !! k) ->
   VoiceRecorder.status (App.recorder (App.step (App.SttDone k outcome) a).1)
     = VoiceRecorder.idle /\
   App.requests (App.step (App.SttDone k outcome) a).1
     = delete k (App.requests a)) /\
  (App.requests a !! k = None ->
   App.step (App.SttDone k outcome) a = (a, [])) /\
  (VoiceRecorder.status
     (App.recorder
        (App.step (App.SttDone k outcome) (App.after evs App.mounted)).1)
   = VoiceRecorder.processing ->
   App.requests (App.after evs App.mounted) !! k = None /\
   App.requests (App.after evs App.mounted) <> []).
Proof.
  assert (is_Some (App.requests a !! k) ->
          VoiceRecorder.status
            (App.recorder (App.step (App.SttDone k outcome) a).1)
          = VoiceRecorder.idle /\
          App.requests (App.step (App.SttDone k outcome) a).1
          = delete k (App.requests a)) as Hdone.
  { intros [[cl' n] Hk]. cbn [App.step]. rewrite Hk.
    pose proof (onstop_resume_idle cl' outcome (App.recorder a) (App.chat a))
      as H.
    destruct (VoiceRecorder.onstop_resume cl' outcome (App.recorder a)
                (App.chat a)) as [[r' s'] es].
    by cbn in *. }
  split; [apply onstop_idle|]. split; [done|]. split.
  - intros Hk. cbn [App.step]. by rewrite Hk.
  - clear Hdone. intros Hs.
    destruct (after_backed evs App.mounted) as [_ Hproc]; [by split|].
    revert Hs. cbn [App.step].
    destruct (App.requests (App.after evs App.mounted) !! k)
      as [[cl' n]|] eqn:Hk.
    + pose proof (onstop_resume_idle cl' outcome
                    (App.recorder (App.after evs App.mounted))
                    (App.chat (App.after evs App.mounted))) as H.
      destruct (VoiceRecorder.onstop_resume cl' outcome _ _)
        as [[r' s'] es].
      cbn in *. congruence.
    + cbn. intros Hs. split; [done|]. by apply Hproc.
Qed.

(** X12. What the recorder's status stands for, on a page mounted with a
    token, whatever the order in which presses, answers of the microphone,
    blobs, [stop] events and answers of the transcription service arrive.
    Whenever the status is recording, the [MediaRecorder] that
    [mediaRecorderRef.current] holds has not fired its [stop] event, so a
    release of the button reaches it: after [handleMouseUp] it is stopping,
    or was already. Whenever the status is processing, a transcription
    request is under way, whose [finally] will set the status to idle. *)
Theorem recorder_status_is_backed (evs : list App.Event) :
  (VoiceRecorder.status (App.recorder (App.after evs App.mounted))
     = VoiceRecorder.recording ->
   exists m,
     last (App.mediaRecorders (App.after evs App.mounted)) = Some m /\
     VoiceRecorder.state m <> VoiceRecorder.MrInactive /\
     last (App.mediaRecorders
             (App.step App.MouseUp (App.after evs App.mounted)).1)
       = Some (VoiceRecorder.setState VoiceRecorder.MrStopping m)) /\
  (VoiceRecorder.status (App.recorder (App.after evs App.mounted))
     = VoiceRecorder.processing ->
   App.requests (App.after evs App.mounted) <> [] /\
   forall outcome,
     VoiceRecorder.status
       (App.recorder
          (App.step (App.SttDone 0 outcome) (App.after evs App.mounted)).1)
     = VoiceRecorder.idle).
Proof.
  destruct (after_backed evs App.mounted) as [Hrec Hproc]; [by split|].
  split.
  - intros Hs. destruct (Hrec Hs) as (m & Hm & Hst).
    exists m. split; [done|]. split; [done|].
    cbn [App.step]. unfold VoiceRecorder.recordingStops. rewrite Hs.
    cbn. unfold App.stop_current.
    destruct (App.mediaRecorders (App.after evs App.mounted)) as [|m0 ms];
      [done|].
    rewrite last_alter_stop, Hm. cbn. f_equal.
    unfold VoiceRecorder.stop, VoiceRecorder.setState.
    destruct m as [[] cl]; cbn in *; done.
  - intros Hs. pose proof (Hproc Hs) as Hne. split; [done|].
    intros outcome. cbn [App.step].
    destruct (App.requests (App.after evs App.mounted)) as [|[cl n] rs];
      [done|].
    cbn [lookup list_lookup].
    pose proof (onstop_resume_idle cl outcome
                  (App.recorder (App.after evs App.mounted))
                  (App.chat (App.after evs App.mounted))) as H.
    destruct (VoiceRecorder.onstop_resume cl outcome _ _) as [[r' s'] es].
    by cbn in *.
Qed.

(** A concrete use of [recorder_status_is_backed]: two presses before the
    microphone answers; the first recording is released and its request is
    under way when the second answer arrives, which sets the status to
    recording again. *)
Lemma recorder_status_is_backed_witness :
  exists m,
    last (App.mediaRecorders
            (App.after [App.MouseDown; App.MouseDown; App.UserMedia 0 true;
                        App.DataAvailable 0 7; App.MouseUp; App.Stopped 0 0;
                        App.UserMedia 0 true] App.mounted)) = Some m /\
    VoiceRecorder.state m <> VoiceRecorder.MrInactive /\
    last (App.mediaRecorders
            (App.step App.MouseUp
               (App.after [App.MouseDown; App.MouseDown; App.UserMedia 0 true;
                           App.DataAvailable 0 7; App.MouseUp; App.Stopped 0 0;
                           App.UserMedia 0 true] App.mounted)).1)
      = Some (VoiceRecorder.setState VoiceRecorder.MrStopping m).
Proof.
  apply (proj1 (recorder_status_is_backed
           [App.MouseDown; App.MouseDown; App.UserMedia 0 true;
            App.DataAvailable 0 7; App.MouseUp; App.Stopped 0 0;
            App.UserMedia 0 true])).
  reflexivity.
Defined.

(** X13. On a page that started fresh the recorder never keeps an empty
    chunk, and a transcription request is only made for a recording with
    audio: in every reachable state the chunks all have a positive size;
    when the status is processing there is at least one chunk and the blob
    they make has a positive size; and every request under way was made
    with a blob of a positive size. *)
Theorem recorder_requests_have_audio (evs : list App.Event) :
  Forall (fun n => (0 < n)%N)
    (VoiceRecorder.chunks (App.recorder (App.after evs App.fresh))) /\
  (VoiceRecorder.status (App.recorder (App.after evs App.fresh))
     = VoiceRecorder.processing ->
   VoiceRecorder.chunks (App.recorder (App.after evs App.fresh)) <> [] /\
   (0 < RecorderStates.blob_size (App.recorder (App.after evs App.fresh)))%N) /\
  (forall k cl n,
     App.requests (App.after evs App.fresh) !! k = Some (cl, n) -> (0 < n)%N).
Proof.
  destruct (after_has_audio evs App.fresh) as [[Hpos Hproc] Hreq].
  { split; [split; [constructor|done]|constructor]. }
  split; [done|]. split.
  - intros Hs. split; [by apply Hproc|].
    apply audioBlob_pos; [done|by apply Hproc].
  - intros k cl n Hk.
    by apply (Forall_lookup_1 _ _ _ _ Hreq Hk).
Qed.

(** A concrete use of [recorder_requests_have_audio]: a recording with an
    empty blob between two chunks. *)
Lemma recorder_requests_have_audio_witness :
  (0 < RecorderStates.blob_size
         (App.recorder
            (App.after [App.MouseDown; App.UserMedia 0 true;
                        App.DataAvailable 0 5; App.DataAvailable 0 0;
                        App.DataAvailable 0 3; App.MouseUp; App.Stopped 0 0]
               App.fresh)))%N.
Proof.
  refine (proj2 (proj1 (proj2 (recorder_requests_have_audio
           [App.MouseDown; App.UserMedia 0 true; App.DataAvailable 0 5;
            App.DataAvailable 0 0; App.DataAvailable 0 3; App.MouseUp;
            App.Stopped 0 0])) _)).
  reflexivity.
Defined.

(* ===================================================================== *)
(** ** The WAV encoder: the header, the bytes, the quantisation *)
(* ===================================================================== *)

Section HeaderFacts.

Import Wav WavRead.

Lemma le_bytes_range n v : Forall (fun b => 0 <= b < 256) (le_bytes n v).
Proof.
  revert v. induction n as [|n IH]; intros v; simpl; constructor; [|done].
  apply Z.mod_pos_bound. lia.
Qed.

Lemma header_bytes_range sampleRate n :
  Forall (fun b => 0 <= b < 256) (header sampleRate n).
Proof.
  unfold header.
  repeat (apply Forall_app; split);
    try apply le_bytes_range; repeat constructor; lia.
Qed.

Lemma samples_bytes_range data :
  Forall (fun b => 0 <= b < 256) (flat_map (fun x => le_bytes 2 (pcm16 x)) data).
Proof.
  induction data as [|x data IH]; [constructor|].
  cbn [flat_map]. apply Forall_app. split; [apply le_bytes_range|done].
Qed.

Lemma header_fixed_fields sampleRate n body :
  fourcc 0 (header sampleRate n ++ body) = [82; 73; 70; 70] /\
  fourcc 8 (header sampleRate n ++ body) = [87; 65; 86; 69] /\
  fourcc 12 (header sampleRate n ++ body) = [102; 109; 116; 32] /\
  fourcc 36 (header sampleRate n ++ body) = [100; 97; 116; 97] /\
  getUint32 16 (header sampleRate n ++ body) = Some 16 /\
  getUint16 20 (header sampleRate n ++ body) = Some 1 /\
  getUint16 22 (header sampleRate n ++ body) = Some 1 /\
  getUint32 24 (header sampleRate n ++ body) = Some (sampleRate mod 4294967296) /\
  getUint32 28 (header sampleRate n ++ body)
    = Some ((sampleRate * 2) mod 4294967296) /\
  getUint16 32 (header sampleRate n ++ body) = Some 2 /\
  getUint16 34 (header sampleRate n ++ body) = Some 16.
Proof.
  unfold header.
  generalize (Z.of_nat (44 + n * 2) - 8) as total.
  generalize (Z.of_nat (n * 2)) as dataLength.
  intros dataLength total.
  replace (sampleRate * 1 * 2) with (sampleRate * 2) by lia.
  generalize (sampleRate * 2) as byteRate. intros byteRate.
  unfold getUint32, getUint16, fourcc.
  cbn [app le_bytes lookup list_lookup Nat.add mbind option_bind take drop].
  rewrite !le4_value. repeat split; reflexivity.
Qed.

End HeaderFacts.

(** X14. The header [audioBufferToWav] writes is the canonical header of
    mono 16-bit PCM: the tags [RIFF], [WAVE], [fmt ] and [data] at offsets
    0, 8, 12 and 36; a format chunk of 16 bytes, format 1, one channel,
    block alignment 2 and 16 bits a sample; the sample rate and the byte
    rate modulo [2^32], so that for a sample rate below [2^31] the byte rate
    recorded is the sample rate times the block alignment. *)
Theorem wav_header_is_canonical (sampleRate : Z) (data : list Wav.Sample) :
  exists out,
    Wav.audioBufferToWav sampleRate data = Some out /\
    WavRead.fourcc 0 out = Z.of_N <$> lit "RIFF" /\
    WavRead.fourcc 8 out = Z.of_N <$> lit "WAVE" /\
    WavRead.fourcc 12 out = Z.of_N <$> lit "fmt " /\
    WavRead.fourcc 36 out = Z.of_N <$> lit "data" /\
    Wav.getUint32 16 out = Some 16 /\
    Wav.getUint16 20 out = Some 1 /\
    Wav.getUint16 22 out = Some 1 /\
    Wav.getUint16 32 out = Some 2 /\
    Wav.getUint16 34 out = Some 16 /\
    Wav.getUint32 24 out = Some (sampleRate mod 4294967296) /\
    Wav.getUint32 28 out = Some ((sampleRate * 2) mod 4294967296) /\
    (0 <= sampleRate < 2147483648 ->
     Wav.getUint32 24 out = Some sampleRate /\
     Wav.getUint32 28 out = Some (sampleRate * 2)).
Proof.
  eexists. split; [apply audioBufferToWav_closed_form|].
  destruct (header_fixed_fields sampleRate (length data)
              (flat_map (fun x => Wav.le_bytes 2 (Wav.pcm16 x)) data))
    as (H0 & H8 & H12 & H36 & H16 & H20 & H22 & H24 & H28 & H32 & H34).
  repeat split; try done.
  - rewrite H24. by rewrite Z.mod_small by lia.
  - rewrite H28. by rewrite Z.mod_small by lia.
Qed.

(** A concrete use of [wav_header_is_canonical]: the recorder's 16 kHz. *)
Lemma wav_header_is_canonical_witness :
  exists out,
    Wav.audioBufferToWav 16000 [Wav.Finite 0; Wav.Finite (1#4)] = Some out /\
    Wav.getUint32 24 out = Some 16000 /\
    Wav.getUint32 28 out = Some 32000.
Proof.
  destruct (wav_header_is_canonical 16000 [Wav.Finite 0; Wav.Finite (1#4)])
    as (out & Hout & _ & _ & _ & _ & _ & _ & _ & _ & _ & _ & _ & Hrate).
  exists out. split; [exact Hout|]. apply Hrate. lia.
Defined.

(** X15. Every element of the result of [audioBufferToWav] is a byte, and
    the payload of a channel made of two pieces is the payload of the first
    piece followed by the payload of the second: the samples are encoded
    one by one, two bytes each, in order. *)
Theorem wav_bytes_and_payload
    (sampleRate : Z) (data1 data2 : list Wav.Sample) :
  exists out out1 out2,
    Wav.audioBufferToWav sampleRate (data1 ++ data2) = Some out /\
    Wav.audioBufferToWav sampleRate data1 = Some out1 /\
    Wav.audioBufferToWav sampleRate data2 = Some out2 /\
    Forall (fun b => 0 <= b < 256) out /\
    WavRead.payload out = WavRead.payload out1 ++ WavRead.payload out2 /\
    length (WavRead.payload out) = (2 * length (data1 ++ data2))%nat.
Proof.
  do 3 eexists.
  split; [apply audioBufferToWav_closed_form|].
  split; [apply audioBufferToWav_closed_form|].
  split; [apply audioBufferToWav_closed_form|].
  split; [|split].
  - apply Forall_app. split;
      [apply header_bytes_range | apply samples_bytes_range].
  - unfold WavRead.payload.
    rewrite !drop_app_length' by (by rewrite header_length).
    by rewrite flat_map_app.
  - unfold WavRead.payload.
    rewrite drop_app_length' by (by rewrite header_length).
    rewrite length_samples. lia.
Qed.

Section QuantisationFacts.

Import Wav WavRead.

Local Open Scope Q_scope.

Lemma pcmQ_negative c :
  c < 0 -> pcmQ c = Qceiling (c * (32768#1)).
Proof.
  intros Hc. unfold pcmQ, trunc.
  change (inject_Z 32768) with (32768#1).
  assert (Qltb c 0 = true) as -> by (by apply Qltb_lt).
  assert (Qltb (c * (32768#1)) 0 = true) as -> by (apply Qltb_lt; lra).
  done.
Qed.

Lemma pcmQ_nonnegative c :
  0 <= c -> pcmQ c = Qfloor (c * (32767#1)).
Proof.
  intros Hc. unfold pcmQ, trunc.
  change (inject_Z 32767) with (32767#1).
  assert (Qltb c 0 = false) as -> by (by apply Qltb_ge).
  assert (Qltb (c * (32767#1)) 0 = false) as -> by (apply Qltb_ge; lra).
  done.
Qed.

Lemma clampQ_monotone q1 q2 : q1 <= q2 -> clampQ q1 <= clampQ q2.
Proof.
  intros H. unfold clampQ.
  destruct (Qltb q1 1) eqn:H1; [apply Qltb_lt in H1|apply Qltb_ge in H1];
    (destruct (Qltb q2 1) eqn:H2; [apply Qltb_lt in H2|apply Qltb_ge in H2]);
    cbv zeta.
  - destruct (Qltb (-1) q1) eqn:H3; [apply Qltb_lt in H3|apply Qltb_ge in H3];
      (destruct (Qltb (-1) q2) eqn:H4;
         [apply Qltb_lt in H4|apply Qltb_ge in H4]); lra.
  - change (Qltb (-1) 1) with true. cbv iota.
    destruct (Qltb (-1) q1) eqn:H3; [apply Qltb_lt in H3|apply Qltb_ge in H3];
      lra.
  - lra.
  - lra.
Qed.

Lemma pcmQ_monotone c1 c2 : c1 <= c2 -> (pcmQ c1 <= pcmQ c2)%Z.
Proof.
  intros H.
  destruct (Qlt_le_dec c1 0) as [Hn1|Hp1]; destruct (Qlt_le_dec c2 0) as [Hn2|Hp2].
  - rewrite !pcmQ_negative by done. apply Qceiling_resp_le. lra.
  - rewrite pcmQ_negative, pcmQ_nonnegative by done.
    transitivity 0%Z.
    + change 0%Z with (Qceiling (inject_Z 0)). apply Qceiling_resp_le.
      unfold inject_Z. lra.
    + change 0%Z with (Qfloor (inject_Z 0)). apply Qfloor_resp_le.
      unfold inject_Z. lra.
  - lra.
  - rewrite !pcmQ_nonnegative by done. apply Qfloor_resp_le. lra.
Qed.

Lemma clampQ_high q : 1 <= q -> clampQ q = 1.
Proof.
  intros H. unfold clampQ. by assert (Qltb q 1 = false) as -> by (by apply Qltb_ge).
Qed.

Lemma clampQ_low q : q <= -1 -> clampQ q = -1.
Proof.
  intros H. unfold clampQ.
  assert (Qltb q 1 = true) as -> by (apply Qltb_lt; lra).
  cbv zeta. by assert (Qltb (-1) q = false) as -> by (by apply Qltb_ge).
Qed.

Lemma pcmQ_error c :
  (Qltb c 0 = false ->
   c * factor c - 1 < inject_Z (pcmQ c) /\ inject_Z (pcmQ c) <= c * factor c
   /\ (0 <= pcmQ c)%Z) /\
  (Qltb c 0 = true ->
   c * factor c <= inject_Z (pcmQ c) /\ inject_Z (pcmQ c) < c * factor c + 1
   /\ (pcmQ c <= 0)%Z).
Proof.
  unfold factor. split; intros Hc; rewrite Hc.
  - apply Qltb_ge in Hc. rewrite pcmQ_nonnegative by done.
    change (inject_Z 32767) with (32767#1).
    pose proof (Qfloor_le (c * (32767#1))) as H1.
    pose proof (Qlt_floor (c * (32767#1))) as H2.
    rewrite inject_Z_plus in H2. change (inject_Z 1) with 1 in H2.
    split; [lra|]. split; [done|].
    change 0%Z with (Qfloor (inject_Z 0)). apply Qfloor_resp_le.
    unfold inject_Z. lra.
  - apply Qltb_lt in Hc. rewrite pcmQ_negative by done.
    change (inject_Z 32768) with (32768#1).
    pose proof (Qle_ceiling (c * (32768#1))) as H1.
    pose proof (Qceiling_lt (c * (32768#1))) as H2.
    replace (Qceiling (c * (32768#1)) - 1)%Z
      with (Qceiling (c * (32768#1)) + -1)%Z in H2 by lia.
    rewrite inject_Z_plus in H2. change (inject_Z (-1)) with (-1#1) in H2.
    split; [done|]. split; [lra|].
    change 0%Z with (Qceiling (inject_Z 0)). apply Qceiling_resp_le.
    unfold inject_Z. lra.
Qed.

End QuantisationFacts.

(** X16. The integer stored for a finite sample is its clamped value,
    scaled, cut toward zero: it has the sign of the sample and differs from
    the scaled value by less than one step. For a clamped value [c] and its
    factor [k] ([0x7fff] when [c] is not negative, [0x8000] when it is),
    [c*k - 1 < v <= c*k] and [0 <= v] in the first case,
    [c*k <= v < c*k + 1] and [v <= 0] in the second. *)
Theorem pcm16_quantisation (q : Q) :
  (Wav.Qltb (Wav.clampQ q) 0 = false ->
   (Wav.clampQ q * WavRead.factor (Wav.clampQ q) - 1
      < inject_Z (Wav.pcm16 (Wav.Finite q)))%Q /\
   (inject_Z (Wav.pcm16 (Wav.Finite q))
      <= Wav.clampQ q * WavRead.factor (Wav.clampQ q))%Q /\
   0 <= Wav.pcm16 (Wav.Finite q)) /\
  (Wav.Qltb (Wav.clampQ q) 0 = true ->
   (Wav.clampQ q * WavRead.factor (Wav.clampQ q)
      <= inject_Z (Wav.pcm16 (Wav.Finite q)))%Q /\
   (inject_Z (Wav.pcm16 (Wav.Finite q))
      < Wav.clampQ q * WavRead.factor (Wav.clampQ q) + 1)%Q /\
   Wav.pcm16 (Wav.Finite q) <= 0).
Proof. rewrite pcm16_finite. apply pcmQ_error. Qed.

(** A concrete use of [pcm16_quantisation]: a third of full scale. *)
Lemma pcm16_quantisation_witness :
  ((1#3) * WavRead.factor (Wav.clampQ (1#3)) - 1
     < inject_Z (Wav.pcm16 (Wav.Finite (1#3))))%Q.
Proof.
  apply (proj1 (proj1 (pcm16_quantisation (1#3)) eq_refl)).
Defined.

(** X17. The encoder keeps the order of the samples and saturates at the
    ends: a finite sample that is not greater than another is stored as an
    integer that is not greater; every sample from 1 up is stored as 32767
    and every sample from -1 down as -32768; equal samples, whatever their
    representation, are stored alike. *)
Theorem pcm16_monotone_and_saturating (q1 q2 : Q) :
  ((q1 <= q2)%Q -> Wav.pcm16 (Wav.Finite q1) <= Wav.pcm16 (Wav.Finite q2)) /\
  ((q1 == q2)%Q -> Wav.pcm16 (Wav.Finite q1) = Wav.pcm16 (Wav.Finite q2)) /\
  ((1 <= q1)%Q -> Wav.pcm16 (Wav.Finite q1) = 32767) /\
  ((q1 <= -1)%Q -> Wav.pcm16 (Wav.Finite q1) = -32768).
Proof.
  rewrite !pcm16_finite.
  assert (forall a b, (a <= b)%Q ->
            Wav.pcmQ (Wav.clampQ a) <= Wav.pcmQ (Wav.clampQ b)) as Hmono.
  { intros a b Hab. by apply pcmQ_monotone, clampQ_monotone. }
  split; [apply Hmono|]. split; [|split].
  - intros Heq. apply Z.le_antisymm; apply Hmono; rewrite Heq; apply Qle_refl.
  - intros H. by rewrite clampQ_high.
  - intros H. by rewrite clampQ_low.
Qed.

(** A concrete use of [pcm16_monotone_and_saturating]: two samples beyond
    full scale. *)
Lemma pcm16_monotone_and_saturating_witness :
  Wav.pcm16 (Wav.Finite (-(7#2))) <= Wav.pcm16 (Wav.Finite (5#4)).
Proof.
  apply (proj1 (pcm16_monotone_and_saturating (-(7#2)) (5#4))).
  vm_compute. discriminate.
Defined.

(* ===================================================================== *)
(** ** The login page *)
(* ===================================================================== *)

Section LoginFacts.

Import LoginPage.

Lemma truthy_trim_not_blank s : truthy (trim s) = true <-> blank s = false.
Proof.
  split.
  - intros H. destruct (blank s) eqn:Hb; [|done].
    by rewrite (trim_blank s Hb) in H.
  - intros H. apply truthy_nonempty. by apply trim_not_blank.
Qed.

Lemma detail_or_default_nonempty d : detail_or_default d <> [].
Proof.
  unfold detail_or_default. destruct d as [d|]; [|done].
  destruct (truthy d) eqn:E; [|done]. by apply truthy_nonempty.
Qed.

End LoginFacts.

(** X18. The login form asks the store only for credentials that pass its
    checks: [handleSubmit] calls [login] or [register] if and only if the
    username and the password each have a character that is not white
    space and the password has at least 6 characters; the call is the one
    of the form's mode and carries both fields exactly as typed, untrimmed;
    and at most one call is made. *)
Theorem login_form_validates
    (answer : LoginPage.Answer) (f : LoginPage.Form) :
  (existsb LoginPage.is_call (LoginPage.handleSubmit answer f).2 = true
   <-> (blank (LoginPage.username f) = false /\
        blank (LoginPage.password f) = false /\
        (6 <= length (LoginPage.password f))%nat)) /\
  (forall e, e ∈ (LoginPage.handleSubmit answer f).2 ->
     LoginPage.is_call e = true ->
     e = if LoginPage.isLogin f
         then LoginPage.Login (LoginPage.username f) (LoginPage.password f)
         else LoginPage.Register (LoginPage.username f)
                (LoginPage.password f)) /\
  (length (filter (fun e => LoginPage.is_call e = true)
             (LoginPage.handleSubmit answer f).2) <= 1)%nat.
Proof.
  unfold LoginPage.handleSubmit. cbv zeta.
  rewrite <- !truthy_trim_not_blank.
  destruct (truthy (trim (LoginPage.username f))) eqn:Hu; simpl.
  2:{ split; [split; [done|by intros [? _]]|]. split; [|simpl; lia].
      by intros e ?%elem_of_nil. }
  destruct (truthy (trim (LoginPage.password f))) eqn:Hp; simpl.
  2:{ split; [split; [done|by intros (_ & ? & _)]|]. split; [|simpl; lia].
      by intros e ?%elem_of_nil. }
  destruct (Nat.ltb_spec (length (LoginPage.password f)) 6) as [Hlen|Hlen].
  { split; [split; [done|intros (_ & _ & ?); lia]|]. split; [|simpl; lia].
    by intros e ?%elem_of_nil. }
  destruct answer as [|detail]; destruct (LoginPage.isLogin f); simpl;
    (split; [split; [done|done]|]); (split; [|simpl; lia]);
    intros e He Hcall;
    repeat (apply elem_of_cons in He as [->|He]; [done|]);
    by apply elem_of_nil in He.
Qed.

(** A concrete use of [login_form_validates]: a password of six spaces is
    long enough and yet turned down. *)
Lemma login_form_validates_witness :
  existsb LoginPage.is_call
    (LoginPage.handleSubmit LoginPage.Accepted
       {| LoginPage.isLogin := true; LoginPage.username := lit "alice";
          LoginPage.password := lit "      "; LoginPage.error := [] |}).2
  = false.
Proof.
  destruct (existsb LoginPage.is_call
    (LoginPage.handleSubmit LoginPage.Accepted
       {| LoginPage.isLogin := true; LoginPage.username := lit "alice";
          LoginPage.password := lit "      "; LoginPage.error := [] |}).2)
    eqn:E; [|reflexivity].
  apply (proj1 (login_form_validates _ _)) in E.
  destruct E as (_ & E & _). vm_compute in E. discriminate E.
Defined.

(** X19. After [handleSubmit] the message shown tells how the submission
    went: it is empty exactly when the store accepted the call, and then
    (and only then) the page navigates to ['/']; when a check fails or the
    store refuses, a message that is not empty is shown, the one of the
    failed check or the server's [detail], or the default message when the
    [detail] is missing or empty. The fields and the mode are never
    changed. *)
Theorem login_form_reports
    (answer : LoginPage.Answer) (f : LoginPage.Form) :
  (LoginPage.error (LoginPage.handleSubmit answer f).1 = []
   <-> LoginPage.Navigate (lit "/") ∈ (LoginPage.handleSubmit answer f).2) /\
  (LoginPage.Navigate (lit "/") ∈ (LoginPage.handleSubmit answer f).2
   -> answer = LoginPage.Accepted /\
      existsb LoginPage.is_call (LoginPage.handleSubmit answer f).2 = true) /\
  (forall detail, answer = LoginPage.Refused detail ->
     existsb LoginPage.is_call (LoginPage.handleSubmit answer f).2 = true ->
     LoginPage.error (LoginPage.handleSubmit answer f).1
     = LoginPage.detail_or_default detail) /\
  LoginPage.username (LoginPage.handleSubmit answer f).1 = LoginPage.username f /\
  LoginPage.password (LoginPage.handleSubmit answer f).1 = LoginPage.password f /\
  LoginPage.isLogin (LoginPage.handleSubmit answer f).1 = LoginPage.isLogin f.
Proof.
  unfold LoginPage.handleSubmit. cbv zeta.
  destruct (negb _ || negb _) eqn:Hblank.
  { simpl. split; [split; [done|by intros ?%elem_of_nil]|].
    split; [by intros ?%elem_of_nil|]. split; [done|done]. }
  destruct (length (LoginPage.password f) <? 6)%nat eqn:Hlen.
  { simpl. split; [split; [done|by intros ?%elem_of_nil]|].
    split; [by intros ?%elem_of_nil|]. split; [done|done]. }
  destruct answer as [|detail]; simpl.
  - split; [split; [|done]|].
    { intros _. apply elem_of_cons. right. apply elem_of_cons. by left. }
    split; [|split; [done|done]].
    intros _. split; [done|]. by destruct (LoginPage.isLogin f).
  - pose proof (detail_or_default_nonempty detail) as Hne.
    assert (LoginPage.Navigate (lit "/") ∉
              [if LoginPage.isLogin f
               then LoginPage.Login (LoginPage.username f) (LoginPage.password f)
               else LoginPage.Register (LoginPage.username f)
                      (LoginPage.password f)]) as Hnot.
    { intros [H|H]%elem_of_cons; [by destruct (LoginPage.isLogin f)|].
      by apply elem_of_nil in H. }
    split; [split; [done|done]|].
    split; [done|]. split; [|done].
    by intros d [= ->] _.
Qed.

(** A concrete use of [login_form_reports]: the server refuses with an
    empty detail. *)
Lemma login_form_reports_witness :
  LoginPage.error
    (LoginPage.handleSubmit (LoginPage.Refused (Some []))
       {| LoginPage.isLogin := false; LoginPage.username := lit "bob";
          LoginPage.password := lit "secret"; LoginPage.error := [] |}).1
  = LoginPage.err_failed.
Proof.
  apply (proj1 (proj2 (proj2 (login_form_reports _ _))) (Some [])).
  - reflexivity.
  - reflexivity.
Defined.

(* ===================================================================== *)
(** ** The auth store *)
(* ===================================================================== *)

Section AuthStoreFacts.

Import AuthStore.

Implicit Types (w : World).

Lemma isAuthenticated_logout ls :
  AuthService.isAuthenticated (AuthService.logout ls) = false.
Proof. unfold AuthService.isAuthenticated. by rewrite getToken_logout. Qed.

Lemma isAuthenticated_setToken t ls :
  AuthService.isAuthenticated (AuthService.setToken t ls) = truthy t.
Proof. unfold AuthService.isAuthenticated. by rewrite getToken_setToken. Qed.

Lemma logout_other_keys k ls :
  k <> AuthService.tokenKey -> AuthService.logout ls !! k = ls !! k.
Proof. intros H. by apply lookup_delete_ne. Qed.

Lemma setToken_other_keys k t ls :
  k <> AuthService.tokenKey -> AuthService.setToken t ls !! k = ls !! k.
Proof. intros H. by apply lookup_insert_ne. Qed.

Lemma fetchUser_agree answer w : agree (fetchUser answer w).1.
Proof.
  unfold fetchUser, agree.
  destruct (AuthService.isAuthenticated (storage w)) eqn:E.
  - destruct answer; simpl; [by rewrite isAuthenticated_logout|done].
  - simpl. by rewrite E.
Qed.

End AuthStoreFacts.

(** X20. [fetchUser] brings the store back in line with the token: after
    it, whatever the answer, the store's [isAuthenticated] is what
    [authService.isAuthenticated()] says, and it is [true] only with a user
    loaded. The request is made exactly when a non-empty token is stored,
    and then the loading flag ends cleared; when the request fails the
    token is removed; the other keys of [localStorage] are never
    touched. *)
Theorem fetchUser_resynchronises
    (answer : AuthStore.MeAnswer) (w : AuthStore.World) :
  AuthStore.agree (AuthStore.fetchUser answer w).1 /\
  (AuthStore.isAuthenticated (AuthStore.auth (AuthStore.fetchUser answer w).1)
     = true ->
   exists u, answer = AuthStore.Me u /\
     AuthStore.user (AuthStore.auth (AuthStore.fetchUser answer w).1) = Some u) /\
  (AuthStore.fetchUser answer w).2
    = AuthService.isAuthenticated (AuthStore.storage w) /\
  ((AuthStore.fetchUser answer w).2 = true ->
   AuthStore.isLoading (AuthStore.auth (AuthStore.fetchUser answer w).1)
     = false) /\
  ((AuthStore.fetchUser answer w).2 = true -> answer = AuthStore.MeFailed ->
   AuthService.getToken (AuthStore.storage (AuthStore.fetchUser answer w).1)
     = None) /\
  (forall k, k <> AuthService.tokenKey ->
     AuthStore.storage (AuthStore.fetchUser answer w).1 !! k
     = AuthStore.storage w !! k).
Proof.
  split; [apply fetchUser_agree|].
  unfold AuthStore.fetchUser.
  destruct (AuthService.isAuthenticated (AuthStore.storage w)) eqn:E.
  - destruct answer as [|u]; simpl.
    + split; [done|]. split; [done|]. split; [done|].
      split; [intros _ _; apply getToken_logout|].
      intros k Hk. by apply logout_other_keys.
    + split; [eauto|]. split; [done|]. split; [done|]. split; done.
  - simpl. split; [done|]. split; [done|]. split; [done|]. split; done.
Qed.

(** A concrete use of [fetchUser_resynchronises]: the token has expired and
    the request for the user fails. *)
Lemma fetchUser_resynchronises_witness :
  AuthService.getToken
    (AuthStore.storage
       (AuthStore.fetchUser AuthStore.MeFailed
          (AuthStore.initial (AuthService.setToken (lit "old") ∅))).1)
  = None.
Proof.
  apply (proj1 (proj2 (proj2 (proj2 (proj2
    (fetchUser_resynchronises AuthStore.MeFailed
       (AuthStore.initial (AuthService.setToken (lit "old") ∅)))))))).
  - reflexivity.
  - reflexivity.
Defined.

(** X21. [login] and [register] always end with the loading flag cleared,
    and return (rather than rethrow) exactly when every request succeeded,
    in which case the user is loaded and the store authenticated. The
    token is written to [localStorage] as soon as the login request
    succeeds: when the request for the user then fails, the token stays
    stored although the store's user and [isAuthenticated] are left as they
    were. When the login or the registration itself is refused,
    [localStorage] is untouched. Other keys of [localStorage] are never
    touched. *)
Theorem login_stores_token_first
    (la : AuthStore.LoginAnswer) (ra : AuthStore.RegisterAnswer)
    (w : AuthStore.World) :
  AuthStore.isLoading (AuthStore.auth (AuthStore.login la w).1) = false /\
  AuthStore.isLoading (AuthStore.auth (AuthStore.register ra w).1) = false /\
  ((AuthStore.login la w).2 = AuthStore.returns
   <-> exists t u, la = AuthStore.Token t (AuthStore.Me u)) /\
  (forall t u, la = AuthStore.Token t (AuthStore.Me u) ->
     AuthStore.user (AuthStore.auth (AuthStore.login la w).1) = Some u /\
     AuthStore.isAuthenticated (AuthStore.auth (AuthStore.login la w).1)
       = true) /\
  (forall t me, la = AuthStore.Token t me ->
     AuthService.getToken (AuthStore.storage (AuthStore.login la w).1)
       = Some t) /\
  (forall t, la = AuthStore.Token t AuthStore.MeFailed ->
     AuthStore.user (AuthStore.auth (AuthStore.login la w).1)
       = AuthStore.user (AuthStore.auth w) /\
     AuthStore.isAuthenticated (AuthStore.auth (AuthStore.login la w).1)
       = AuthStore.isAuthenticated (AuthStore.auth w) /\
     AuthService.isAuthenticated (AuthStore.storage (AuthStore.login la w).1)
       = truthy t) /\
  (la = AuthStore.LoginRefused ->
   AuthStore.storage (AuthStore.login la w).1 = AuthStore.storage w) /\
  (ra = AuthStore.RegisterRefused ->
   AuthStore.storage (AuthStore.register ra w).1 = AuthStore.storage w /\
   (AuthStore.register ra w).2 = AuthStore.throws) /\
  (forall la', ra = AuthStore.Registered la' ->
     AuthStore.register ra w = AuthStore.login la' w) /\
  (forall k, k <> AuthService.tokenKey ->
     AuthStore.storage (AuthStore.login la w).1 !! k
     = AuthStore.storage w !! k).
Proof.
  split; [by destruct la as [|t [|u]]|].
  split; [by destruct ra as [|[|t [|u]]]|].
  split.
  { destruct la as [|t [|u]]; simpl; split; try done;
      try (by intros (? & ? & ?)); eauto. }
  split; [by intros t u ->|].
  split; [intros t me ->; destruct me; apply getToken_setToken|].
  split.
  { intros t ->. simpl. split; [done|]. split; [done|].
    apply isAuthenticated_setToken. }
  split; [by intros ->|].
  split; [by intros ->|].
  split; [by intros la' ->|].
  intros k Hk. destruct la as [|t [|u]]; simpl; try done;
    by apply setToken_other_keys.
Qed.

(** A concrete use of [login_stores_token_first]: the login succeeds and
    the request for the user fails. *)
Lemma login_stores_token_first_witness :
  AuthService.getToken
    (AuthStore.storage
       (AuthStore.login (AuthStore.Token (lit "tok") AuthStore.MeFailed)
          (AuthStore.initial ∅)).1)
  = Some (lit "tok").
Proof.
  apply (proj1 (proj2 (proj2 (proj2 (proj2
    (login_stores_token_first
       (AuthStore.Token (lit "tok") AuthStore.MeFailed)
       AuthStore.RegisterRefused (AuthStore.initial ∅))))))
    (lit "tok") AuthStore.MeFailed).
  reflexivity.
Defined.

(** X22. After [logout] the user is gone, the store and the token agree
    that nobody is authenticated, and every other key of [localStorage] is
    as it was; a [fetchUser] that follows makes no request and leaves
    everything as [logout] left it; logging out twice is logging out
    once. *)
Theorem logout_clears_both_sides
    (answer : AuthStore.MeAnswer) (w : AuthStore.World) :
  AuthStore.user (AuthStore.auth (AuthStore.logout w)) = None /\
  AuthStore.isAuthenticated (AuthStore.auth (AuthStore.logout w)) = false /\
  AuthService.isAuthenticated (AuthStore.storage (AuthStore.logout w)) = false /\
  AuthService.getToken (AuthStore.storage (AuthStore.logout w)) = None /\
  (forall k, k <> AuthService.tokenKey ->
     AuthStore.storage (AuthStore.logout w) !! k = AuthStore.storage w !! k) /\
  AuthStore.fetchUser answer (AuthStore.logout w)
    = (AuthStore.logout w, false) /\
  AuthStore.logout (AuthStore.logout w) = AuthStore.logout w.
Proof.
  split; [done|]. split; [done|].
  split; [apply isAuthenticated_logout|].
  split; [apply getToken_logout|].
  split; [intros k Hk; by apply logout_other_keys|].
  split.
  - unfold AuthStore.fetchUser. simpl. by rewrite isAuthenticated_logout.
  - unfold AuthStore.logout. simpl. f_equal.
    unfold AuthService.logout. by rewrite delete_delete_eq.
Qed.

(** A concrete use of [logout_clears_both_sides]: the settings kept under
    another key survive the logout. *)
Lemma logout_clears_both_sides_witness :
  AuthStore.storage
    (AuthStore.logout
       (AuthStore.initial
          (AuthService.setToken (lit "tok")
             {[ lit "livetalk-settings" := lit "{}" ]})))
    !! lit "livetalk-settings"
  = Some (lit "{}").
Proof.
  rewrite (proj1 (proj2 (proj2 (proj2 (proj2
    (logout_clears_both_sides AuthStore.MeFailed
       (AuthStore.initial
          (AuthService.setToken (lit "tok")
             {[ lit "livetalk-settings" := lit "{}" ]})))))))
    (lit "livetalk-settings")).
  - reflexivity.
  - vm_compute. discriminate.
Defined.

(* ===================================================================== *)
(** ** The theme *)
(* ===================================================================== *)

Section ThemeFacts.

Import SettingsStore.

Implicit Types (cl : list string) (t : Theme).

Lemma applied_class_not_kept t prefersDark cl :
  applied_class t prefersDark ∉ classList_remove ["light"; "dark"]%string cl.
Proof.
  unfold classList_remove. intros [Hnot _]%list_elem_of_filter.
  apply Hnot. unfold applied_class, getEffectiveTheme. cbn [theme].
  destruct t; [| |destruct prefersDark]; repeat constructor.
Qed.

Lemma applyTheme_eq t prefersDark cl :
  applyTheme t prefersDark cl
  = classList_remove ["light"; "dark"]%string cl
    ++ [applied_class t prefersDark].
Proof.
  pose proof (applied_class_not_kept t prefersDark cl) as Hnot.
  unfold applyTheme, classList_add.
  assert (className match t with
                    | system => if prefersDark then dark else light
                    | _ => t
                    end = applied_class t prefersDark) as ->
    by (by destruct t).
  by rewrite decide_False.
Qed.

Lemma applied_class_in_applyTheme t prefersDark cl :
  applied_class t prefersDark ∈ applyTheme t prefersDark cl.
Proof.
  rewrite applyTheme_eq. apply elem_of_app. right.
  by apply list_elem_of_singleton.
Qed.

Lemma applied_class_cases t prefersDark :
  applied_class t prefersDark = "light"%string
  \/ applied_class t prefersDark = "dark"%string.
Proof.
  unfold applied_class, getEffectiveTheme. cbn [theme].
  destruct t; [by left|by right|]. destruct prefersDark; [by right|by left].
Qed.

Lemma classList_remove_applied t prefersDark cl :
  classList_remove ["light"; "dark"]%string
    (classList_remove ["light"; "dark"]%string cl
     ++ [applied_class t prefersDark])
  = classList_remove ["light"; "dark"]%string cl.
Proof.
  unfold classList_remove. rewrite filter_app, filter_filter_same.
  rewrite filter_cons, decide_False, filter_nil, app_nil_r; [done|].
  intros Hnot. apply Hnot.
  destruct (applied_class_cases t prefersDark) as [-> | ->];
    repeat constructor.
Qed.

End ThemeFacts.

(** X23. After [applyTheme] the root carries exactly one of the classes
    ['light'] and ['dark'], the one [getEffectiveTheme] names for the same
    theme and the same system preference: the explicit theme, or the
    system's preference for ['system']. Every other class of the root is
    kept, in its order; a class list without repetition stays so; and
    applying the same theme twice is applying it once. *)
Theorem applyTheme_sets_one_class
    (t : SettingsStore.Theme) (prefersDark : bool) (cl : list string) :
  (SettingsStore.applied_class t prefersDark
     ∈ SettingsStore.applyTheme t prefersDark cl) /\
  (forall c, c ∈ SettingsStore.applyTheme t prefersDark cl ->
     c = "light"%string \/ c = "dark"%string ->
     c = SettingsStore.applied_class t prefersDark) /\
  SettingsStore.classList_remove ["light"; "dark"]%string
    (SettingsStore.applyTheme t prefersDark cl)
  = SettingsStore.classList_remove ["light"; "dark"]%string cl /\
  (NoDup cl -> NoDup (SettingsStore.applyTheme t prefersDark cl)) /\
  SettingsStore.applyTheme t prefersDark
    (SettingsStore.applyTheme t prefersDark cl)
  = SettingsStore.applyTheme t prefersDark cl /\
  (t <> SettingsStore.system ->
   SettingsStore.applied_class t prefersDark = SettingsStore.className t).
Proof.
  rewrite !applyTheme_eq.
  split; [apply elem_of_app; right; by apply list_elem_of_singleton|].
  split.
  { intros c [Hc|Hc]%elem_of_app Hld.
    - exfalso. unfold SettingsStore.classList_remove in Hc.
      apply list_elem_of_filter in Hc as [Hnot _]. apply Hnot.
      destruct Hld as [-> | ->]; repeat constructor.
    - by apply list_elem_of_singleton in Hc. }
  split; [apply classList_remove_applied|].
  split.
  { intros Hnd. apply NoDup_app. split; [by apply NoDup_filter|].
    split; [|apply NoDup_singleton].
    intros c Hc ->%list_elem_of_singleton.
    by apply (applied_class_not_kept t prefersDark cl). }
  split; [by rewrite classList_remove_applied|].
  by destruct t.
Qed.

(** A concrete use of [applyTheme_sets_one_class]: the system theme on a
    root that carried ['light'] among other classes. *)
Lemma applyTheme_sets_one_class_witness :
  NoDup (SettingsStore.applyTheme SettingsStore.system true
           ["app"; "light"; "wide"]%string).
Proof.
  apply (proj1 (proj2 (proj2 (proj2
    (applyTheme_sets_one_class SettingsStore.system true
       ["app"; "light"; "wide"]%string))))).
  repeat (constructor; [by vm_compute; intros H; repeat
    (apply elem_of_cons in H as [H|H]; [discriminate H|]);
    apply elem_of_nil in H|]).
  constructor.
Defined.

(** X24. The theme button goes round the three themes: from light to
    dark, from dark to system, from system to light; a press always
    changes the theme, three presses bring it back, and after every press
    the root's class is the one of the effective theme of the new
    setting. The voice mode is never touched. *)
Theorem theme_button_goes_round
    (prefersDark : bool) (s : SettingsStore.SettingsState) (cl : list string) :
  SettingsStore.cycleTheme SettingsStore.light = Some SettingsStore.dark /\
  SettingsStore.cycleTheme SettingsStore.dark = Some SettingsStore.system /\
  SettingsStore.cycleTheme SettingsStore.system = Some SettingsStore.light /\
  SettingsStore.theme (SettingsStore.pressThemeButton prefersDark (s, cl)).1
    <> SettingsStore.theme s /\
  SettingsStore.theme
    (SettingsStore.pressThemeButton prefersDark
       (SettingsStore.pressThemeButton prefersDark
          (SettingsStore.pressThemeButton prefersDark (s, cl)))).1
  = SettingsStore.theme s /\
  (SettingsStore.applied_class
     (SettingsStore.theme (SettingsStore.pressThemeButton prefersDark (s, cl)).1)
     prefersDark
   ∈ (SettingsStore.pressThemeButton prefersDark (s, cl)).2) /\
  SettingsStore.voiceMode (SettingsStore.pressThemeButton prefersDark (s, cl)).1
  = SettingsStore.voiceMode s.
Proof.
  split; [done|]. split; [done|]. split; [done|].
  unfold SettingsStore.pressThemeButton. cbn [fst snd].
  destruct (SettingsStore.theme s) eqn:E;
    (split; [done|]); (split; [done|]); (split; [|done]);
    cbn [SettingsStore.cycleTheme SettingsStore.setTheme fst snd
         SettingsStore.theme];
    apply applied_class_in_applyTheme.
Qed.

(* ===================================================================== *)
(** ** The [useWebSocket] hook *)
(* ===================================================================== *)

Section HookFacts.

Import ChatView UseWebSocket.

Lemma connect_new_socket n token h :
  n <> 0 -> has_token token = true ->
  connect (Some n) token h
  = {| isConnected := isConnected h;
       wsRef := Some (length (sockets h));
       reconnectTimeoutRef := reconnectTimeoutRef h;
       sockets := sockets h
                  ++ [{| readyState := CONNECTING; conversationId := n |}];
       timers := timers h; nextTimer := nextTimer h |}.
Proof.
  intros Hn Ht. unfold connect. rewrite Ht.
  by destruct (Z.eqb_spec n 0).
Qed.

Lemma length_sockets_disconnect h :
  length (sockets (disconnect h)) = length (sockets h).
Proof. simpl. destruct (wsRef h); [apply length_alter|done]. Qed.

(** The close event of a socket that [disconnect] closed, or left alone,
    sets a timer that reconnects to the conversation of that socket. *)
Lemma close_event_reconnects h i so token :
  sockets h !! i = Some so ->
  readyState so <> CLOSED ->
  conversationId so <> 0 ->
  has_token token = true ->
  timers (handle (Closed i) h) !! nextTimer h = Some (conversationId so) /\
  reconnectTimeoutRef (handle (Closed i) h) = Some (nextTimer h) /\
  isConnected (handle (Closed i) h) = false /\
  wsRef (handle (TimerFired (nextTimer h) token) (handle (Closed i) h))
    = Some (length (sockets h)) /\
  sockets (handle (TimerFired (nextTimer h) token) (handle (Closed i) h))
    !! length (sockets h)
    = Some {| readyState := CONNECTING; conversationId := conversationId so |} /\
  timers (handle (TimerFired (nextTimer h) token) (handle (Closed i) h))
    !! nextTimer h = None.
Proof.
  intros Hi Hrs Hn Ht.
  assert (handle (Closed i) h
          = {| isConnected := false; wsRef := wsRef h;
               reconnectTimeoutRef := Some (nextTimer h);
               sockets := <[i := withReadyState CLOSED so]> (sockets h);
               timers := <[nextTimer h := conversationId so]> (timers h);
               nextTimer := S (nextTimer h) |}) as ->.
  { cbn [handle]. rewrite Hi. by destruct (readyState so). }
  cbn [timers reconnectTimeoutRef isConnected].
  rewrite lookup_insert_eq.
  split; [done|]. split; [done|]. split; [done|].
  cbn [handle timers]. rewrite lookup_insert_eq.
  destruct (Z.eqb_spec (conversationId so) 0) as [|_]; [done|].
  cbn [negb]. rewrite connect_new_socket by done.
  cbn [wsRef sockets timers]. rewrite length_insert.
  split; [done|]. split; [|by rewrite lookup_delete_eq].
  rewrite lookup_app_r by (by rewrite length_insert).
  by rewrite length_insert, Nat.sub_diag.
Qed.

End HookFacts.

(** X25. The hook's [send] puts a frame on the socket only when it holds a
    socket that is open, and otherwise does nothing (it never throws);
    [connect] does nothing without a conversation (an identifier of 0
    counts as none) or without a token. [disconnect] lets go of the socket,
    closing it and no other, and clears the timer the reference names, and
    no other. It does not stop the reconnection: the effect's cleanup, on
    unmount or before a re-run for another conversation, closes the socket
    held, and when the close event of that socket arrives afterwards a
    timer is set again; when that timer fires, with a token present, the
    hook builds a new socket to the conversation of the socket that closed
    and holds it, in place of the socket the re-run had built. *)
Theorem hook_reconnects_after_disconnect
    (h : UseWebSocket.Hook) (i : nat) (so : UseWebSocket.Socket)
    (id : option Z) (token : option jsstring) (data : jsstring) :
  (UseWebSocket.send data h <> [] <->
   exists j so',
     UseWebSocket.wsRef h = Some j /\
     UseWebSocket.sockets h !! j = Some so' /\
     UseWebSocket.readyState so' = ChatView.OPEN) /\
  (UseWebSocket.send data h = [] \/ UseWebSocket.send data h = [data]) /\
  (UseWebSocket.has_conversation id && UseWebSocket.has_token token = false ->
   UseWebSocket.connect id token h = h) /\
  (* what [disconnect] does *)
  UseWebSocket.wsRef (UseWebSocket.disconnect h) = None /\
  UseWebSocket.isConnected (UseWebSocket.disconnect h) = false /\
  UseWebSocket.send data (UseWebSocket.disconnect h) = [] /\
  (forall t, UseWebSocket.reconnectTimeoutRef h = Some t -> t <> 0%nat ->
     UseWebSocket.timers (UseWebSocket.disconnect h) !! t = None) /\
  (forall t, UseWebSocket.reconnectTimeoutRef h <> Some t ->
     UseWebSocket.timers (UseWebSocket.disconnect h) !! t
     = UseWebSocket.timers h !! t) /\
  (forall j, UseWebSocket.wsRef h = Some j ->
     UseWebSocket.sockets (UseWebSocket.disconnect h) !! j
     = UseWebSocket.close <$> UseWebSocket.sockets h !! j) /\
  (forall j, UseWebSocket.wsRef h <> Some j ->
     UseWebSocket.sockets (UseWebSocket.disconnect h) !! j
     = UseWebSocket.sockets h !! j) /\
  (* the socket held is closed by the cleanup; its close event arrives *)
  (UseWebSocket.wsRef h = Some i ->
   UseWebSocket.sockets h !! i = Some so ->
   UseWebSocket.readyState so <> ChatView.CLOSED ->
   UseWebSocket.conversationId so <> 0 ->
   UseWebSocket.has_token token = true ->
   (* on unmount *)
   (UseWebSocket.wsRef
      (UseWebSocket.handle
         (UseWebSocket.TimerFired (UseWebSocket.nextTimer h) token)
         (UseWebSocket.handle (UseWebSocket.Closed i)
            (UseWebSocket.cleanup h)))
    = Some (length (UseWebSocket.sockets h)) /\
    UseWebSocket.sockets
      (UseWebSocket.handle
         (UseWebSocket.TimerFired (UseWebSocket.nextTimer h) token)
         (UseWebSocket.handle (UseWebSocket.Closed i)
            (UseWebSocket.cleanup h)))
      !! length (UseWebSocket.sockets h)
    = Some {| UseWebSocket.readyState := ChatView.CONNECTING;
              UseWebSocket.conversationId := UseWebSocket.conversationId so |})
   /\
   (* on a re-run for the conversation [n] *)
   forall n, n <> 0 ->
     UseWebSocket.wsRef (UseWebSocket.rerun (Some n) token h)
       = Some (length (UseWebSocket.sockets h)) /\
     UseWebSocket.sockets (UseWebSocket.rerun (Some n) token h)
       !! length (UseWebSocket.sockets h)
       = Some {| UseWebSocket.readyState := ChatView.CONNECTING;
                 UseWebSocket.conversationId := n |} /\
     UseWebSocket.wsRef
       (UseWebSocket.handle
          (UseWebSocket.TimerFired (UseWebSocket.nextTimer h) token)
          (UseWebSocket.handle (UseWebSocket.Closed i)
             (UseWebSocket.rerun (Some n) token h)))
       = Some (S (length (UseWebSocket.sockets h))) /\
     UseWebSocket.sockets
       (UseWebSocket.handle
          (UseWebSocket.TimerFired (UseWebSocket.nextTimer h) token)
          (UseWebSocket.handle (UseWebSocket.Closed i)
             (UseWebSocket.rerun (Some n) token h)))
       !! S (length (UseWebSocket.sockets h))
       = Some {| UseWebSocket.readyState := ChatView.CONNECTING;
                 UseWebSocket.conversationId :=
                   UseWebSocket.conversationId so |} /\
     UseWebSocket.sockets
       (UseWebSocket.handle
          (UseWebSocket.TimerFired (UseWebSocket.nextTimer h) token)
          (UseWebSocket.handle (UseWebSocket.Closed i)
             (UseWebSocket.rerun (Some n) token h)))
       !! length (UseWebSocket.sockets h)
       = Some {| UseWebSocket.readyState := ChatView.CONNECTING;
                 UseWebSocket.conversationId := n |}).
Proof.
  split.
  { unfold UseWebSocket.send.
    destruct (UseWebSocket.wsRef h) as [j|];
      [|split; [done|by intros (? & ? & ? & _)]].
    destruct (UseWebSocket.sockets h !! j) as [[rs n]|] eqn:E; cbn.
    - destruct rs; (split; [try done; eauto|]); try done;
        intros (j' & so' & [= <-] & Hso & Hrs); rewrite E in Hso;
        by injection Hso as <-.
    - split; [done|]. intros (j' & so' & [= <-] & Hso & _). congruence. }
  split.
  { unfold UseWebSocket.send.
    destruct (UseWebSocket.wsRef h) as [j|]; [|by left].
    destruct (UseWebSocket.readyState <$> UseWebSocket.sockets h !! j)
      as [[]|]; auto. }
  split.
  { unfold UseWebSocket.connect, UseWebSocket.has_conversation.
    destruct id as [n|]; [|done]. by intros ->. }
  split; [done|]. split; [done|]. split; [done|].
  split.
  { intros t Ht Hpos. cbn. rewrite Ht.
    destruct (Nat.eqb_spec t 0); [done|]. apply lookup_delete_eq. }
  split.
  { intros t Ht. cbn.
    destruct (UseWebSocket.reconnectTimeoutRef h) as [t'|]; [|done].
    destruct (t' =? 0)%nat; [done|].
    apply lookup_delete_ne. congruence. }
  split.
  { intros j Hj. cbn. rewrite Hj. apply list_lookup_alter_eq. }
  split.
  { intros j Hj. cbn.
    destruct (UseWebSocket.wsRef h) as [j'|]; [|done].
    apply list_lookup_alter_ne. congruence. }
  intros Hi Hso Hrs Hn Ht.
  assert (UseWebSocket.sockets (UseWebSocket.disconnect h) !! i
          = Some (UseWebSocket.withReadyState ChatView.CLOSING so)) as Hclosing.
  { cbn. rewrite Hi, list_lookup_alter_eq, Hso. cbn.
    unfold UseWebSocket.close.
    by destruct (UseWebSocket.readyState so). }
  split.
  - destruct (close_event_reconnects (UseWebSocket.disconnect h) i _ token
                Hclosing) as (_ & _ & _ & H1 & H2 & _); try done.
    rewrite length_sockets_disconnect in H1, H2. by split.
  - intros n Hn'.
    unfold UseWebSocket.rerun, UseWebSocket.effect, UseWebSocket.cleanup.
    rewrite connect_new_socket by done.
    set (h1 := {| UseWebSocket.isConnected := _ |}).
    assert (UseWebSocket.sockets h1 !! i
            = Some (UseWebSocket.withReadyState ChatView.CLOSING so)) as Hh1.
    { subst h1. cbn [UseWebSocket.sockets].
      apply lookup_app_l_Some. exact Hclosing. }
    assert (length (UseWebSocket.sockets h1)
            = S (length (UseWebSocket.sockets h))) as Hlen.
    { subst h1. cbn [UseWebSocket.sockets].
      rewrite length_app, length_sockets_disconnect. cbn. lia. }
    assert (UseWebSocket.sockets h1 !! length (UseWebSocket.sockets h)
            = Some {| UseWebSocket.readyState := ChatView.CONNECTING;
                      UseWebSocket.conversationId := n |}) as Hnew.
    { subst h1. cbn [UseWebSocket.sockets].
      rewrite lookup_app_r by (by rewrite length_sockets_disconnect).
      by rewrite length_sockets_disconnect, Nat.sub_diag. }
    assert (UseWebSocket.nextTimer h1 = UseWebSocket.nextTimer h) as Hnt
      by done.
    assert (i < length (UseWebSocket.sockets h))%nat as Hlt
      by (by apply lookup_lt_Some in Hso).
    split.
    { subst h1. cbn [UseWebSocket.wsRef].
      by rewrite length_sockets_disconnect. }
    split; [done|].
    destruct (close_event_reconnects h1 i _ token Hh1)
      as (_ & _ & _ & H1 & H2 & _); try done.
    rewrite Hnt, Hlen in H1, H2. split; [done|]. split; [done|].
    clear H1 H2.
    assert (UseWebSocket.handle (UseWebSocket.Closed i) h1
            = {| UseWebSocket.isConnected := false;
                 UseWebSocket.wsRef := UseWebSocket.wsRef h1;
                 UseWebSocket.reconnectTimeoutRef :=
                   Some (UseWebSocket.nextTimer h1);
                 UseWebSocket.sockets :=
                   <[i := UseWebSocket.withReadyState ChatView.CLOSED
                            (UseWebSocket.withReadyState ChatView.CLOSING so)]>
                     (UseWebSocket.sockets h1);
                 UseWebSocket.timers :=
                   <[UseWebSocket.nextTimer h1 :=
                       UseWebSocket.conversationId so]>
                     (UseWebSocket.timers h1);
                 UseWebSocket.nextTimer := S (UseWebSocket.nextTimer h1) |})
      as ->.
    { cbn [UseWebSocket.handle]. by rewrite Hh1. }
    cbn [UseWebSocket.handle UseWebSocket.timers]. rewrite Hnt.
    rewrite lookup_insert_eq. cbn [UseWebSocket.conversationId].
    destruct (Z.eqb_spec (UseWebSocket.conversationId so) 0) as [|_]; [done|].
    cbn [negb]. rewrite connect_new_socket by done.
    cbn [UseWebSocket.sockets].
    rewrite lookup_app_l by (rewrite length_insert, Hlen; lia).
    rewrite list_lookup_insert_ne by lia. exact Hnew.
Qed.

(** A concrete use of [hook_reconnects_after_disconnect]: a hook connected
    to conversation 7 is given conversation 8; the socket to 7 closes and
    three seconds later the hook holds a new socket to 7. *)
Lemma hook_reconnects_after_disconnect_witness :
  UseWebSocket.sockets
    (UseWebSocket.handle
       (UseWebSocket.TimerFired 1 (Some (lit "tok")))
       (UseWebSocket.handle (UseWebSocket.Closed 0)
          (UseWebSocket.rerun (Some 8) (Some (lit "tok"))
             UseWebSocket.connected)))
    !! 2%nat
  = Some {| UseWebSocket.readyState := ChatView.CONNECTING;
            UseWebSocket.conversationId := 7 |}.
Proof.
  destruct (hook_reconnects_after_disconnect UseWebSocket.connected 0
              {| UseWebSocket.readyState := ChatView.OPEN;
                 UseWebSocket.conversationId := 7 |}
              (Some 8) (Some (lit "tok")) [])
    as (_ & _ & _ & _ & _ & _ & _ & _ & _ & _ & H).
  destruct H as [_ H]; [reflexivity|reflexivity|discriminate|discriminate|
                         reflexivity|].
  destruct (H 8) as (_ & _ & _ & H4 & _); [discriminate|].
  exact H4.
Defined.

(* ===================================================================== *)
(** ** The recorder: starting a recording *)
(* ===================================================================== *)

(** X26. A press on the microphone button never touches the chat state,
    sets no status and sends nothing. From a recorder that is not idle, or
    disabled, it does nothing at all. From an idle recorder that is not
    disabled it clears the error and the chunks, whatever an earlier
    recording left, and calls [getUserMedia], holding the callback of the
    current render; the status stays idle until the microphone answers, so
    another press does the same again. When the microphone answers a call
    that is pending, whatever the status is by then: granted, the status
    becomes recording and a new [MediaRecorder], recording, is the one the
    page holds; refused, the status becomes idle, ['无法访问麦克风'] is
    reported and the refusal is logged. In both cases the chunks and the
    chat state are left as they are and the call is no longer pending. *)
Theorem microphone_press (a : App.App) (k : nat) (granted : bool) :
  App.chat (App.step App.MouseDown a).1 = App.chat a /\
  (App.step App.MouseDown a).2 = [] /\
  VoiceRecorder.status (App.recorder (App.step App.MouseDown a).1)
    = VoiceRecorder.status (App.recorder a) /\
  App.mediaRecorders (App.step App.MouseDown a).1 = App.mediaRecorders a /\
  (VoiceRecorder.status (App.recorder a) <> VoiceRecorder.idle \/
   ChatView.isStreaming (App.chat a) = true ->
   App.step App.MouseDown a = (a, [])) /\
  (VoiceRecorder.status (App.recorder a) = VoiceRecorder.idle ->
   ChatView.isStreaming (App.chat a) = false ->
   VoiceRecorder.chunks (App.recorder (App.step App.MouseDown a).1) = [] /\
   VoiceRecorder.error (App.recorder (App.step App.MouseDown a).1) = None /\
   App.getUserMedia (App.step App.MouseDown a).1
     = App.getUserMedia a ++ [ChatView.render (App.chat a)] /\
   App.getUserMedia (App.step App.MouseDown (App.step App.MouseDown a).1).1
     = App.getUserMedia a
       ++ [ChatView.render (App.chat a); ChatView.render (App.chat a)]) /\
  (forall cl, App.getUserMedia a !! k = Some cl ->
   App.chat (App.step (App.UserMedia k granted) a).1 = App.chat a /\
   VoiceRecorder.chunks (App.recorder (App.step (App.UserMedia k granted) a).1)
     = VoiceRecorder.chunks (App.recorder a) /\
   App.getUserMedia (App.step (App.UserMedia k granted) a).1
     = delete k (App.getUserMedia a) /\
   App.requests (App.step (App.UserMedia k granted) a).1 = App.requests a /\
   VoiceRecorder.status (App.recorder (App.step (App.UserMedia k granted) a).1)
     = (if granted then VoiceRecorder.recording else VoiceRecorder.idle) /\
   VoiceRecorder.error (App.recorder (App.step (App.UserMedia k granted) a).1)
     = (if granted then VoiceRecorder.error (App.recorder a)
        else Some VoiceRecorder.err_no_microphone) /\
   App.mediaRecorders (App.step (App.UserMedia k granted) a).1
     = (if granted
        then App.mediaRecorders a
               ++ [{| VoiceRecorder.state := VoiceRecorder.MrRecording;
                      VoiceRecorder.onTranscription := cl |}]
        else App.mediaRecorders a) /\
   (App.step (App.UserMedia k granted) a).2
     = (if granted then []
        else [ChatView.ConsoleError "Microphone access error:" None])) /\
  (App.getUserMedia a !! k = None ->
   App.step (App.UserMedia k granted) a = (a, [])).
Proof.
  assert (VoiceRecorder.status (App.recorder a) <> VoiceRecorder.idle \/
          ChatView.isStreaming (App.chat a) = true ->
          App.step App.MouseDown a = (a, [])) as Hoff.
  { intros H. cbn [App.step]. unfold VoiceRecorder.handleMouseDown.
    destruct (VoiceRecorder.status (App.recorder a)) eqn:E; try done.
    destruct H as [H|H]; [done|].
    unfold ChatView.recorderDisabled. by rewrite H. }
  assert (VoiceRecorder.status (App.recorder a) = VoiceRecorder.idle ->
          ChatView.isStreaming (App.chat a) = false ->
          App.step App.MouseDown a
          = (App.set_getUserMedia
               (App.getUserMedia a ++ [ChatView.render (App.chat a)])
               (App.set_recorder
                  (VoiceRecorder.startRecording_begin (App.recorder a)) a),
             [])) as Hon.
  { intros Hidle Hfree. cbn [App.step]. unfold VoiceRecorder.handleMouseDown.
    rewrite Hidle. unfold ChatView.recorderDisabled. by rewrite Hfree. }
  assert (App.chat (App.step App.MouseDown a).1 = App.chat a /\
          (App.step App.MouseDown a).2 = [] /\
          VoiceRecorder.status (App.recorder (App.step App.MouseDown a).1)
            = VoiceRecorder.status (App.recorder a) /\
          App.mediaRecorders (App.step App.MouseDown a).1
            = App.mediaRecorders a) as (H1 & H2 & H3 & H4).
  { cbn [App.step].
    destruct (VoiceRecorder.handleMouseDown _ _) as [r'|] eqn:E; [|done].
    apply handleMouseDown_enabled in E as (_ & Hidle & ->). done. }
  split; [done|]. split; [done|]. split; [done|]. split; [done|].
  split; [done|]. split; [|split].
  - intros Hidle Hfree. rewrite (Hon Hidle Hfree). cbn.
    split; [done|]. split; [done|]. split; [done|].
    unfold VoiceRecorder.handleMouseDown. cbn. rewrite Hidle.
    unfold ChatView.recorderDisabled. rewrite Hfree. cbn.
    by rewrite <- app_assoc.
  - intros cl Hk. cbn [App.step]. rewrite Hk.
    unfold VoiceRecorder.startRecording_resume. by destruct granted.
  - intros Hk. cbn [App.step]. by rewrite Hk.
Qed.

(** A concrete use of [microphone_press]: a recording that got no text is
    followed by another press; the microphone is refused this time. *)
Lemma microphone_press_witness :
  VoiceRecorder.error
    (App.recorder
       (App.step (App.UserMedia 0 false)
          (App.after [App.MouseDown; App.UserMedia 0 true;
                      App.DataAvailable 0 9; App.MouseUp; App.Stopped 0 0;
                      App.SttDone 0 (VoiceRecorder.Json
                                       (VoiceRecorder.JString (lit " ")));
                      App.MouseDown]
             App.fresh)).1)
  = Some VoiceRecorder.err_no_microphone.
Proof.
  refine (proj1 (proj2 (proj2 (proj2 (proj2 (proj2
    (proj1 (proj2 (proj2 (proj2 (proj2 (proj2 (proj2
      (microphone_press
         (App.after [App.MouseDown; App.UserMedia 0 true;
                     App.DataAvailable 0 9; App.MouseUp; App.Stopped 0 0;
                     App.SttDone 0 (VoiceRecorder.Json
                                      (VoiceRecorder.JString (lit " ")));
                     App.MouseDown]
            App.fresh) 0 false)))))))
       (ChatView.render (App.chat App.fresh)) _))))))).
  reflexivity.
Defined.
